(** * Maze generation core of JNicksKnacks: grid model, randomized DFS carver,
      Wilson's algorithm and the cancellable delay; the drawing of the maze
      on the canvas; the drag-select grid.

    The development embeds the TypeScript source shallowly.  Cell objects live
    in the two-dimensional array [Maze.cells] and nowhere else, so a reference
    to a Cell is modelled by its position [(x, y)] in that array (the object
    stored at [cells[y][x]]); [===] on Cell references is equality of
    positions.  Mutation of a Cell through a reference is an update of the
    array at that position, which keeps the aliasing of the source: every
    holder of the reference sees the update.

    The drawing code is embedded as the sequence of calls it makes on the
    canvas context, with the arithmetic of the coordinates left to the host.
    The drag-select grid is embedded as its handlers, acting on the two
    state cells of the component and on the console. *)

From Stdlib Require Import ZArith QArith Qround List String Ascii Lia Permutation.
From Stdlib Require Import DecimalString DecimalZ DecimalPos Sorted.
From stdpp Require Import base relations list.

Local Open Scope Z_scope.

(** ** JavaScript arrays and Sets *)

(** [arr[i]] for a number [i]: [undefined] (here [None]) outside the array. *)
Definition js_get {A} (arr : list A) (i : Z) : option A :=
  if i <? 0 then None else arr !! Z.to_nat i.

(** [arr[i] = v] for [0 <= i <= arr.length]; an assignment at [arr.length]
    extends the array by one element.  Assignments further out would leave
    holes; the source makes none and they leave the array as it is here. *)
Definition js_set {A} (arr : list A) (i : Z) (v : A) : list A :=
  if (0 <=? i) && (i <? Z.of_nat (length arr)) then <[Z.to_nat i := v]> arr
  else if i =? Z.of_nat (length arr) then arr ++ [v]
  else arr.

(** [arr.indexOf(v)]: the first index holding [v], or [-1]. *)
Fixpoint indexOf {A} (eqb : A -> A -> bool) (arr : list A) (v : A) : Z :=
  match arr with
  | [] => -1
  | a :: arr' =>
      if eqb a v then 0
      else let i := indexOf eqb arr' v in if i =? -1 then -1 else i + 1
  end.

(** [arr.slice(0, n)] for [n >= 0]. *)
Definition slice0 {A} (arr : list A) (n : Z) : list A := take (Z.to_nat n) arr.

(** [for (let i = lo; i < hi; i++) body], threading the mutated state. *)
Definition for_range {S} (lo hi : Z) (body : Z -> S -> S) (s : S) : S :=
  fold_left (fun s i => body i s) (seqZ lo (hi - lo)) s.

(** A reference to a Cell: the position of the object in [Maze.cells]. *)
Abbreviation Ref := (Z * Z)%type.

Definition ref_eqb (a b : Ref) : bool := (a.1 =? b.1) && (a.2 =? b.2).

(** A JavaScript [Set]: insertion-ordered, without duplicates. *)
Abbreviation JSet A := (list A) (only parsing).

Section JSetOps.
Context {A : Type} (eqb : A -> A -> bool).

Definition Set_has (s : JSet A) (v : A) : bool := existsb (eqb v) s.

Definition Set_add (s : JSet A) (v : A) : JSet A :=
  if Set_has s v then s else s ++ [v].

Definition Set_delete (s : JSet A) (v : A) : JSet A :=
  List.filter (fun w => negb (eqb v w)) s.

(** [new Set(arr)] *)
Definition Set_of (arr : list A) : JSet A := fold_left Set_add arr [].
End JSetOps.

Definition Set_size {A} (s : JSet A) : Z := Z.of_nat (length s).

(** ** Randomization utilities *)

(** A completion of a call: a normal value, or a thrown [Error(msg)]. *)
Inductive completion (T : Type) : Type :=
| Normal (v : T)
| Throw (msg : string).
Arguments Normal {T} v.
Arguments Throw {T} msg.

(** The argument type [Set<T> | T[]] of [randomMember]. *)
Inductive Group (T : Type) : Type :=
| GSet (items : JSet T)
| GArray (items : list T).
Arguments GSet {T} items.
Arguments GArray {T} items.

(** A result of [Math.random()] is a real in [[0, 1)]; the model takes it as
    an exact rational. *)
Definition unit_interval (r : Q) : Prop := (0 <= r)%Q /\ (r < 1)%Q.

(** [randomMember(group)], given the value [random] that its one call of
    [Math.random()] returns.  The result of [items[randomIndex]] is [None]
    when JavaScript would give [undefined]. *)
Definition randomMember {T} (random : Q) (group : Group T) : completion (option T) :=
  if match group with
     | GSet s => Set_size s =? 0
     | GArray a => Z.of_nat (length a) =? 0
     end
  then Throw "empty group"%string
  else
    let items := match group with GSet s => s | GArray a => a end in
    let randomIndex := Qfloor (random * inject_Z (Z.of_nat (length items))) in
    Normal (js_get items randomIndex).

(** ** Grid graph model *)

Module Cell.
Record t : Type := mk {
  x : Z;
  y : Z;
  edges : list Ref;
  neighbors : list Ref
}.

(** [new Cell(x, y)]: the default [neighbors = []] is a fresh array per call. *)
Definition new (x y : Z) : t :=
  {| x := x; y := y; edges := []; neighbors := [] |}.

Definition push_edge (r : Ref) (c : t) : t :=
  {| x := x c; y := y c; edges := edges c ++ [r]; neighbors := neighbors c |}.

Definition push_neighbor (r : Ref) (c : t) : t :=
  {| x := x c; y := y c; edges := edges c; neighbors := neighbors c ++ [r] |}.

(** [this.neighbors.filter(neighbor => !this.edges.find(cell => cell === neighbor))] *)
Definition uncarvedEdges (c : t) : list Ref :=
  List.filter
    (fun neighbor =>
       negb (match List.find (fun cell => ref_eqb cell neighbor) (edges c) with
             | Some _ => true
             | None => false
             end))
    (neighbors c).
End Cell.

(** The array of arrays holding the Cell objects. *)
Abbreviation Cells := (list (list Cell.t)).

(** [cells[y][x]] *)
Definition deref (cells : Cells) (r : Ref) : option Cell.t :=
  match js_get cells r.2 with
  | Some row => js_get row r.1
  | None => None
  end.

(** Mutation of the object behind reference [r]. *)
Definition modify (r : Ref) (f : Cell.t -> Cell.t) (cells : Cells) : Cells :=
  if (r.1 <? 0) || (r.2 <? 0) then cells
  else alter (alter f (Z.to_nat r.1)) (Z.to_nat r.2) cells.

(** [this_.carveEdge(neighbor)]: two pushes, in this order, on the shared
    store; when both references are the same object it receives both. *)
Definition carveEdge (this_ neighbor : Ref) (cells : Cells) : Cells :=
  modify neighbor (Cell.push_edge this_) (modify this_ (Cell.push_edge neighbor) cells).

(** [cells.flat()]: the references to all cells, row by row. *)
Definition flat (cells : Cells) : list Ref :=
  mjoin (imap (fun y row => imap (fun x _ => (Z.of_nat x, Z.of_nat y)) row) cells).

Module Maze.
Record t : Type := mk {
  width : Z;
  height : Z;
  cells : Cells;
  start : option Ref;
  end_ : option Ref
}.

(** First pass of the constructor: allocate the cells. *)
Definition generate_cells (width height : Z) : Cells :=
  for_range 0 height
    (fun y cells =>
       let cells := js_set cells y [] in
       for_range 0 width
         (fun x cells =>
            match js_get cells y with
            | Some row => js_set cells y (js_set row x (Cell.new x y))
            | None => cells
            end)
         cells)
    [].

(** Second pass: wire the neighbors, in the order left, right, top, bottom. *)
Definition setup_neighbors (width height : Z) (cells : Cells) : Cells :=
  for_range 0 height
    (fun y cells =>
       for_range 0 width
         (fun x cells =>
            let cell := (x, y) in
            let cells :=
              if 0 <? x then modify cell (Cell.push_neighbor (x - 1, y)) cells else cells in
            let cells :=
              if x <? width - 1 then modify cell (Cell.push_neighbor (x + 1, y)) cells else cells in
            let cells :=
              if 0 <? y then modify cell (Cell.push_neighbor (x, y - 1)) cells else cells in
            let cells :=
              if y <? height - 1 then modify cell (Cell.push_neighbor (x, y + 1)) cells else cells in
            cells)
         cells)
    cells.

(** [new Maze(width, height)] *)
Definition new (width height : Z) : t :=
  {| width := width;
     height := height;
     cells := setup_neighbors width height (generate_cells width height);
     start := None;
     end_ := None |}.

(** [getCell(x, y)]: the reference to the cell, or [null]. *)
Definition getCell (m : t) (x y : Z) : option Ref :=
  if (x <? 0) || (x >=? width m) || (y <? 0) || (y >=? height m) then None
  else match deref (cells m) (x, y) with
       | Some _ => Some (x, y)
       | None => None
       end.

Definition with_cells (m : t) (cs : Cells) : t :=
  {| width := width m; height := height m; cells := cs;
     start := start m; end_ := end_ m |}.
End Maze.

(** ** Randomized depth-first carver *)

Module DFS.
(** The state the carver mutates: the maze, the closure variable [visited],
    and the number of [shuffle] calls made so far.  The keys of [visited]
    are the strings [`${x},${y}`]; that template is injective on pairs of
    integers and the pair itself stands for the key. *)
Record State : Type := mkState {
  maze : Maze.t;
  visited : JSet (Z * Z);
  shuffles : nat
}.

(** [for (const neighbor of neighbors) { visit(current, neighbor.x, neighbor.y); }]
    for the given [visit]; reading [neighbor.x] of a missing cell would end
    the calling invocation with a TypeError. *)
Fixpoint visit_each (visit : Ref -> Z -> Z -> State -> option State)
  (current : Ref) (neighbors : list Ref) (s : State) : option State :=
  match neighbors with
  | [] => Some s
  | neighbor :: rest =>
      match deref (Maze.cells (maze s)) neighbor with
      | None => Some s
      | Some n =>
          match visit current (Cell.x n) (Cell.y n) s with
          | None => None
          | Some s => visit_each visit current rest s
          end
      end
  end.

Section Carver.
(** [shuffle] is [arr.sort(() => Math.random() - 0.5)]: what order the
    engine's sort leaves under a random comparator is its own business, so
    the [k]-th call is given by [sort_random k]. *)
Variable sort_random : nat -> list Ref -> list Ref.

Definition shuffle (k : nat) (arr : list Ref) : list Ref := sort_random k arr.

(** [visit(last, x, y)].  [visit] is declared [async] but awaits nothing
    and nobody awaits it: each call runs to its end before the caller goes
    on.  [None] is for a recursion deeper than [fuel]. *)
Fixpoint visit (fuel : nat) (last : Ref) (x y : Z) (s : State) : option State :=
  match fuel with
  | O => None
  | S fuel' =>
      let coord := (x, y) in
      if Set_has ref_eqb (visited s) coord then Some s
      else
        let s := mkState (maze s) (Set_add ref_eqb (visited s) coord) (shuffles s) in
        match Maze.getCell (maze s) x y with
        | None => Some s
        | Some current =>
            let s :=
              mkState (Maze.with_cells (maze s) (carveEdge current last (Maze.cells (maze s))))
                      (visited s) (shuffles s) in
            match deref (Maze.cells (maze s)) current with
            | None => Some s
            | Some c =>
                let neighbors := shuffle (shuffles s) (Cell.uncarvedEdges c) in
                let s := mkState (maze s) (visited s) (Datatypes.S (shuffles s)) in
                visit_each (visit fuel') current neighbors s
            end
        end
  end.

(** [solveMazeWithRandomDPS(maze)], given the value [random] of the one
    [Math.random()] call of [randomMember]; the result is the maze as the
    call leaves it. *)
Definition solveMazeWithRandomDPS (fuel : nat) (random : Q) (m : Maze.t)
  : option (completion Maze.t) :=
  match randomMember random (GArray (flat (Maze.cells m))) with
  | Throw msg => Some (Throw msg)
  | Normal None => Some (Throw "TypeError"%string)
  | Normal (Some rndCell) =>
      match deref (Maze.cells m) rndCell with
      | None => Some (Throw "TypeError"%string)
      | Some c =>
          match visit fuel rndCell (Cell.x c) (Cell.y c) (mkState m [] 0%nat) with
          | None => None
          | Some s => Some (Normal (maze s))
          end
      end
  end.
End Carver.
End DFS.

(** ** Host objects: promises, timers and the abort signal *)

Inductive PromiseState : Type :=
| Pending
| Fulfilled
| Rejected (reason : string).

(** The part of the host that [timeoutWithCancel] touches.  The [n]-th call
    creates promise [n]; its timer (callback [resolve]) and its "abort"
    listener ([clearTimeout(timer); reject(new Error("aborted"))]) close over
    that promise and carry the same number. *)
Record Host : Type := mkHost {
  aborted : bool;                 (* signal.aborted *)
  listeners : list nat;           (* "abort" listeners, in registration order *)
  timers : list nat;              (* timers set and neither fired nor cleared *)
  delays : list Z;                (* the [time] of each [setTimeout(resolve, time)] *)
  promises : list PromiseState
}.

Definition settle (p : nat) (st : PromiseState) (h : Host) : Host :=
  match promises h !! p with
  | Some Pending =>
      mkHost (aborted h) (listeners h) (timers h) (delays h) (<[p := st]> (promises h))
  | _ => h
  end.

(** [resolve()] and [reject(new Error(reason))]: no effect on a settled promise. *)
Definition resolve (p : nat) (h : Host) : Host := settle p Fulfilled h.
Definition reject (p : nat) (reason : string) (h : Host) : Host := settle p (Rejected reason) h.

Definition clearTimeout (p : nat) (h : Host) : Host :=
  mkHost (aborted h) (listeners h) (List.filter (fun t => negb (Nat.eqb t p)) (timers h))
    (delays h) (promises h).

(** The listener that [timeoutWithCancel] registers. *)
Definition on_abort (p : nat) (h : Host) : Host :=
  reject p "aborted"%string (clearTimeout p h).

(** The signal's abort steps (run by [AbortController.abort()]): nothing on a
    signal that is aborted already; otherwise the flag is set and the "abort"
    event is dispatched once, to the listeners registered at that moment. *)
Definition signal_abort (h : Host) : Host :=
  if aborted h then h
  else fold_left (fun h p => on_abort p h) (listeners h)
         (mkHost true (listeners h) (timers h) (delays h) (promises h)).

(** The timer of promise [p] elapses. *)
Definition timer_fires (p : nat) (h : Host) : Host :=
  if existsb (Nat.eqb p) (timers h) then resolve p (clearTimeout p h) else h.

(** [timeoutWithCancel(time, signal)]: the executor sets the timer and
    registers the listener; the call returns the new promise. *)
Definition timeoutWithCancel (time : Z) (h : Host) : nat * Host :=
  let p := length (promises h) in
  (p, mkHost (aborted h) (listeners h ++ [p]) (timers h ++ [p]) (delays h ++ [time])
        (promises h ++ [Pending])).

(** What happens while the caller is suspended on promise [p]: the outside
    world may call [abort()] on the controller ([abort_called]), and the
    timer elapses unless it was cleared. *)
Definition while_pending (abort_called : bool) (p : nat) (h : Host) : Host :=
  timer_fires p (if abort_called then signal_abort h else h).

(** ** Wilson's algorithm *)

(** The ways a run of an [async] function can end. *)
Inductive result (A : Type) : Type :=
| Ok (a : A)            (* normal completion *)
| Err (msg : string)    (* an [Error(msg)] thrown and not caught *)
| NoCompletion.         (* out of fuel, or suspended on a promise that never settles *)
Arguments Ok {A} a.
Arguments Err {A} msg.
Arguments NoCompletion {A}.

(** One call of the renderer, with the maze as it is at the call. *)
Inductive Draw : Type :=
| RenderMaze (maze : Maze.t) (currentCell : option Ref) (currentPath : list Ref)
| FillSelf (cell : Ref) (color : string).

Module Wilson.
Record State : Type := mkState {
  maze : Maze.t;
  unvisited : JSet Ref;
  visited : JSet Ref;
  stepsTaken : Z;
  randoms : nat;          (* calls of [Math.random()] so far *)
  frames : list Draw;     (* drawing calls so far, oldest first *)
  host : Host
}.

(** State and exceptions: the state survives a throw. *)
Definition M (A : Type) : Type := State -> State * result A.

Definition ret {A} (a : A) : M A := fun s => (s, Ok a).

Definition bind {A B} (c : M A) (k : A -> M B) : M B :=
  fun s =>
    match c s with
    | (s', Ok a) => k a s'
    | (s', Err msg) => (s', Err msg)
    | (s', NoCompletion) => (s', NoCompletion)
    end.

Definition throw {A} (msg : string) : M A := fun s => (s, Err msg).
Definition diverge {A} : M A := fun s => (s, NoCompletion).
Definition gets {A} (f : State -> A) : M A := fun s => (s, Ok (f s)).
Definition update (f : State -> State) : M unit := fun s => (f s, Ok tt).

Notation "'let*' x ':=' c 'in' k" := (bind c (fun x => k))
  (at level 10, x name, c at level 100, k at level 200).
Notation "c ';;' k" := (bind c (fun _ => k))
  (at level 100, k at level 200, right associativity).

Definition set_maze (m : Maze.t) (s : State) : State :=
  mkState m (unvisited s) (visited s) (stepsTaken s) (randoms s) (frames s) (host s).
Definition set_unvisited (u : JSet Ref) (s : State) : State :=
  mkState (maze s) u (visited s) (stepsTaken s) (randoms s) (frames s) (host s).
Definition set_visited (v : JSet Ref) (s : State) : State :=
  mkState (maze s) (unvisited s) v (stepsTaken s) (randoms s) (frames s) (host s).
Definition set_stepsTaken (n : Z) (s : State) : State :=
  mkState (maze s) (unvisited s) (visited s) n (randoms s) (frames s) (host s).
Definition set_randoms (n : nat) (s : State) : State :=
  mkState (maze s) (unvisited s) (visited s) (stepsTaken s) n (frames s) (host s).
Definition set_frames (f : list Draw) (s : State) : State :=
  mkState (maze s) (unvisited s) (visited s) (stepsTaken s) (randoms s) f (host s).
Definition set_host (h : Host) (s : State) : State :=
  mkState (maze s) (unvisited s) (visited s) (stepsTaken s) (randoms s) (frames s) h.

Section Run.
(** [rng n] is the value of the [n]-th call of [Math.random()];
    [world p] tells whether the outside world calls [abort()] while the
    run is suspended on promise [p].  The steps between two awaits run
    without interruption, so a call of [abort()] from outside comes before
    the run starts ([signal_aborted] below) or while it is suspended on a
    delay. *)
Variable rng : nat -> Q.
Variable world : nat -> bool.

Definition random : M Q :=
  fun s => (set_randoms (S (randoms s)) s, Ok (rng (randoms s))).

(** [randomMember(group)] in the run.  With [Math.random()] in [[0, 1)]
    the member is never [undefined]; the model does not follow a run
    beyond an undefined member and ends it with a TypeError there. *)
Definition pick (group : Group Ref) : M Ref :=
  let* r := random in
  match randomMember r group with
  | Throw msg => throw msg
  | Normal None => throw "TypeError"%string
  | Normal (Some c) => ret c
  end.

Definition cell (r : Ref) : M Cell.t :=
  fun s =>
    match deref (Maze.cells (maze s)) r with
    | Some c => (s, Ok c)
    | None => (s, Err "TypeError"%string)
    end.

(** [renderMaze(maze, currentCell, currentPath, ctx)] reads the maze and
    draws; the model records the call. *)
Definition renderMaze (currentCell : option Ref) (currentPath : list Ref) : M unit :=
  update (fun s => set_frames (frames s ++ [RenderMaze (maze s) currentCell currentPath]) s).

Definition fillSelf (c : Ref) (color : string) : M unit :=
  update (fun s => set_frames (frames s ++ [FillSelf c color]) s).

(** [await timeoutWithCancel(time, cancelSignal)] *)
Definition await_timeout (time : Z) : M unit :=
  fun s =>
    let '(p, h) := timeoutWithCancel time (host s) in
    let h := while_pending (world p) p h in
    let s := set_host h s in
    match promises h !! p with
    | Some Fulfilled => (s, Ok tt)
    | Some (Rejected reason) => (s, Err reason)
    | _ => (s, NoCompletion)
    end.

(** The loop erasure of a walk step, on [path] as it is after
    [path.push(current)]. *)
Definition erase_loop (path : list Ref) (next : Ref) : list Ref :=
  let loopIdx := indexOf ref_eqb path next in
  if negb (loopIdx =? -1) then slice0 path (loopIdx + 1) else path ++ [next].

(** The body of the inner [while]: one step of the random walk.  It
    returns the new [path] and [next], which becomes [current]. *)
Definition walk_step (stepTime : Z) (startCell : Ref) (path : list Ref) (current : Ref)
  : M (list Ref * Ref) :=
  update (fun s => set_stepsTaken (stepsTaken s + 1) s);;
  let path := path ++ [current] in
  let* c := cell current in
  let* next := pick (GArray (Cell.uncarvedEdges c)) in
  let path := erase_loop path next in
  let* size := gets (fun s => Set_size (visited s)) in
  (if size >? 1 then
     renderMaze (Some next) path;;
     (if size =? 1 then fillSelf startCell "white"%string else ret tt);;
     await_timeout stepTime
   else ret tt);;
  ret (path, next).

(** [while (!visited.has(current)) { ... }] *)
Fixpoint walk (fuel : nat) (stepTime : Z) (startCell : Ref) (path : list Ref) (current : Ref)
  : M (list Ref) :=
  let* seen := gets (fun s => Set_has ref_eqb (visited s) current) in
  if seen then ret path
  else
    match fuel with
    | O => diverge
    | S fuel' =>
        let* step := walk_step stepTime startCell path current in
        walk fuel' stepTime startCell step.1 step.2
    end.

(** [for (let i = 0; i < path.length - 1; i++) { ... }] *)
Definition carve_path (path : list Ref) (s : State) : State :=
  for_range 0 (Z.of_nat (length path) - 1)
    (fun i s =>
       match js_get path i, js_get path (i + 1) with
       | Some cell, Some nextCell =>
           let s := set_maze (Maze.with_cells (maze s)
                                (carveEdge cell nextCell (Maze.cells (maze s)))) s in
           let s := set_visited (Set_add ref_eqb (visited s) cell) s in
           set_unvisited (Set_delete ref_eqb (unvisited s) cell) s
       | _, _ => s
       end)
    s.

(** [while (unvisited.size > 0) { ... }] *)
Fixpoint walks (fuel : nat) (stepTime : Z) (startCell : Ref) : M unit :=
  let* size := gets (fun s => Set_size (unvisited s)) in
  if size >? 0 then
    match fuel with
    | O => diverge
    | S fuel' =>
        let* u := gets unvisited in
        let* current := pick (GSet u) in
        let* path := walk fuel' stepTime startCell [] current in
        update (carve_path path);;
        walks fuel' stepTime startCell
    end
  else ret tt.

Definition body (fuel : nat) (stepTime : Z) : M Z :=
  let* m := gets maze in
  update (set_unvisited (Set_of ref_eqb (flat (Maze.cells m))));;
  update (set_visited []);;
  let* startCell := pick (GArray (flat (Maze.cells m))) in
  update (fun s => set_visited (Set_add ref_eqb (visited s) startCell) s);;
  update (fun s => set_unvisited (Set_delete ref_eqb (unvisited s) startCell) s);;
  update (set_stepsTaken 0);;
  walks fuel stepTime startCell;;
  renderMaze None [];;
  await_timeout 5000;;
  gets stepsTaken.

(** [wilsonsAlgorithm(maze, ctx, cancelSignal, stepTime)]: [signal_aborted]
    is [cancelSignal.aborted] at the call.  The result is the completion
    of the returned promise and the state the run leaves. *)
Definition wilsonsAlgorithm (fuel : nat) (m : Maze.t) (signal_aborted : bool) (stepTime : Z)
  : State * result Z :=
  body fuel stepTime (mkState m [] [] 0 0%nat [] (mkHost signal_aborted [] [] [] [])).
End Run.
End Wilson.

(** ** Drawing on the canvas *)

(** The numbers of the drawing code are doubles.  The model leaves their
    arithmetic to the host: any type with these operations will do. *)
Class JSNumber (num : Type) : Type := {
  of_int : Z -> num;            (* an integer-valued number *)
  lit_half : num;               (* the literal [.5] *)
  lit_1_5 : num;                (* the literal [1.5] *)
  Math_PI : num;
  mul : num -> num -> num;
  add : num -> num -> num;
  div : num -> num -> num
}.

(** Numbers as the expressions that the code evaluates. *)
Inductive NumExpr : Type :=
| NInt (z : Z)
| NHalf
| NOneAndHalf
| NPi
| NMul (a b : NumExpr)
| NAdd (a b : NumExpr)
| NDiv (a b : NumExpr).

#[export] Instance NumExpr_JSNumber : JSNumber NumExpr :=
  {| of_int := NInt; lit_half := NHalf; lit_1_5 := NOneAndHalf; Math_PI := NPi;
     mul := NMul; add := NAdd; div := NDiv |}.

(** What the drawing code does to the [CanvasRenderingContext2D]: the
    assignments and calls it makes on [ctx], in order. *)
Inductive CanvasCall (num : Type) : Type :=
| SetFillStyle (style : string)
| SetStrokeStyle (style : string)
| SetLineWidth (v : num)
| SetLineCap (cap : string)
| BeginPath
| ClosePath
| MoveTo (x y : num)
| LineTo (x y : num)
| ArcTo (x y radius startAngle endAngle : num)     (* [ctx.arc] *)
| FillRect (x y w h : num)
| Fill
| Stroke.
Arguments SetFillStyle {num} style.
Arguments SetStrokeStyle {num} style.
Arguments SetLineWidth {num} v.
Arguments SetLineCap {num} cap.
Arguments BeginPath {num}.
Arguments ClosePath {num}.
Arguments MoveTo {num} x y.
Arguments LineTo {num} x y.
Arguments ArcTo {num} x y radius startAngle endAngle.
Arguments FillRect {num} x y w h.
Arguments Fill {num}.
Arguments Stroke {num}.

Module Canvas.
Section Drawing.
Context {num : Type} {numbers : JSNumber num}.

(** [this.getTopLeft(cellSize)] *)
Definition getTopLeft (this_ : Cell.t) (cellSize : num) : num * num :=
  (mul cellSize (of_int (Cell.x this_)), mul cellSize (of_int (Cell.y this_))).

(** [this.getCenter(cellSize)] *)
Definition getCenter (this_ : Cell.t) (cellSize : num) : num * num :=
  (mul cellSize (add (of_int (Cell.x this_)) lit_half),
   mul cellSize (add (of_int (Cell.y this_)) lit_half)).

(** [this.fillSelf(ctx, cellSize, color)] *)
Definition fillSelf (this_ : Cell.t) (cellSize : num) (color : string) : list (CanvasCall num) :=
  let lt := getTopLeft this_ cellSize in
  [BeginPath; MoveTo lt.1 lt.2; SetFillStyle color; FillRect lt.1 lt.2 cellSize cellSize;
   ClosePath].

(** The body of [this.edges.forEach((nb) => ...)] in [drawOuts], over the
    edges left.  An edge is a reference to a Cell object; [None] stands for
    a reference to no cell of the grid, which the program cannot hold. *)
Fixpoint lines_out (cells : Cells) (cx cy cellSize : num) (edges : list Ref)
  : option (list (CanvasCall num)) :=
  match edges with
  | [] => Some []
  | nb :: rest =>
      match deref cells nb with
      | None => None
      | Some n =>
          let c := getCenter n cellSize in
          match lines_out cells cx cy cellSize rest with
          | None => None
          | Some calls => Some (LineTo c.1 c.2 :: MoveTo cx cy :: calls)
          end
      end
  end.

(** [this.drawOuts(ctx, cellSize)] *)
Definition drawOuts (cells : Cells) (this_ : Cell.t) (cellSize : num)
  : option (list (CanvasCall num)) :=
  match Cell.edges this_ with
  | [] => Some []
  | _ =>
      let c := getCenter this_ cellSize in
      match lines_out cells c.1 c.2 cellSize (Cell.edges this_) with
      | None => None
      | Some lines =>
          Some ([BeginPath; SetLineWidth (div cellSize lit_1_5); SetStrokeStyle "white"%string;
                 SetLineCap "round"%string; MoveTo c.1 c.2]
                ++ lines ++ [ClosePath; Stroke])
      end
  end.

(** [currentPath.includes(c)] *)
Definition includes (arr : list Ref) (c : Ref) : bool :=
  existsb (fun a => ref_eqb a c) arr.

(** The callback of [maze.cells.flat().forEach((c) => ...)] in [renderMaze]. *)
Definition render_cell (cells : Cells) (currentCell : option Ref) (currentPath : list Ref)
  (cellSize : num) (r : Ref) : option (list (CanvasCall num)) :=
  match deref cells r with
  | None => None
  | Some c =>
      let path_fill := if includes currentPath r then fillSelf c cellSize "#888"%string else [] in
      match drawOuts cells c cellSize with
      | None => None
      | Some outs =>
          let marker :=
            match currentCell with
            | Some cur =>
                if ref_eqb cur r then
                  let ce := getCenter c cellSize in
                  [BeginPath;
                   ArcTo ce.1 ce.2 (div cellSize (of_int 4)) (of_int 0) (mul (of_int 2) Math_PI);
                   SetFillStyle "firebrick"%string; Fill; ClosePath]
                else []
            | None => []
            end in
          Some (path_fill ++ outs ++ marker)
      end
  end.

Fixpoint render_cells (cells : Cells) (currentCell : option Ref) (currentPath : list Ref)
  (cellSize : num) (rs : list Ref) : option (list (CanvasCall num)) :=
  match rs with
  | [] => Some []
  | r :: rest =>
      match render_cell cells currentCell currentPath cellSize r with
      | None => None
      | Some calls =>
          match render_cells cells currentCell currentPath cellSize rest with
          | None => None
          | Some more => Some (calls ++ more)
          end
      end
  end.

(** [renderMaze(maze, currentCell, currentPath, ctx)], on a context whose
    canvas is [canvas_width] by [canvas_height]. *)
Definition renderMaze (maze : Maze.t) (currentCell : option Ref) (currentPath : list Ref)
  (canvas_width canvas_height : num) : option (list (CanvasCall num)) :=
  let cellSize := div canvas_width (of_int (Maze.width maze)) in
  match render_cells (Maze.cells maze) currentCell currentPath cellSize
          (flat (Maze.cells maze)) with
  | None => None
  | Some calls =>
      Some (SetFillStyle "#000"%string
            :: FillRect (of_int 0) (of_int 0) canvas_width canvas_height :: calls)
  end.
End Drawing.
End Canvas.

(** ** The drag-select grid *)

Module SquareFlipper.
(** [`${n}`] for an integer [n]; in the component, a grid index. *)
Definition String_of_int (n : Z) : string := NilZero.string_of_int (Z.to_int n).

(** [Number(s)] for a string [s] that is a decimal integer literal: digits
    with an optional minus sign.  [None] stands for every other string;
    the component parses none. *)
Definition ToNumber (s : string) : option Z :=
  option_map Z.of_int (NilZero.int_of_string s).

(** [s.split(sep)] for a separator of one character. *)
Fixpoint split (sep : ascii) (s : string) : list string :=
  match s with
  | EmptyString => [EmptyString]
  | String a s' =>
      if Ascii.eqb a sep then EmptyString :: split sep s'
      else match split sep s' with
           | first :: rest => String a first :: rest
           | [] => [String a EmptyString]
           end
  end.

(** [key(r, c)]: the template [`${r},${c}`]. *)
Definition key (r c : Z) : string :=
  String.append (String_of_int r) (String "," (String_of_int c)).

(** [parseKey(k)]: the pair [{ r, c }]; [None] when [k] does not start with
    two integer literals separated by a comma. *)
Definition parseKey (k : string) : option (Z * Z) :=
  match map ToNumber (split "," k) with
  | Some r :: Some c :: _ => Some (r, c)
  | _ => None
  end.

Definition neighbors (r c : Z) : list (Z * Z) :=
  [(r - 1, c); (r + 1, c); (r, c - 1); (r, c + 1)].

(** The loop [for (const k of set) { ... }] of [isOrthAdjacentToAnySelected],
    over the keys left. *)
Fixpoint any_adjacent (r c : Z) (keys : list string) : option bool :=
  match keys with
  | [] => Some false
  | k :: rest =>
      match parseKey k with
      | None => None
      | Some (rr, cc) =>
          if Z.abs (rr - r) + Z.abs (cc - c) =? 1 then Some true
          else any_adjacent r c rest
      end
  end.

Definition isOrthAdjacentToAnySelected (r c : Z) (set : JSet string) : option bool :=
  if Set_size set =? 0 then Some true else any_adjacent r c set.

(** The updater that [handlePointerEnter] passes to [setSelected]. *)
Definition select_more (r c : Z) (prev : JSet string) : option (JSet string) :=
  let next := prev in
  let k := key r c in
  if Set_has String.eqb next k then Some next
  else
    match isOrthAdjacentToAnySelected r c next with
    | None => None
    | Some true => Some (Set_add String.eqb next k)
    | Some false => Some next
    end.

(** The comparator of [finishAndLog]: [(a.r - b.r) || (a.c - b.c)]. *)
Definition row_major (a b : Z * Z) : Z :=
  if negb (a.1 - b.1 =? 0) then a.1 - b.1 else a.2 - b.2.

(** [list.sort(compare)].  Under a consistent comparator the order that
    [sort] leaves is the sorted, stable one, whatever algorithm the engine
    uses; insertion from the right computes it. *)
Fixpoint sort_insert {A} (compare : A -> A -> Z) (x : A) (l : list A) : list A :=
  match l with
  | [] => [x]
  | y :: l' => if compare x y <=? 0 then x :: l else y :: sort_insert compare x l'
  end.

Definition Array_sort {A} (compare : A -> A -> Z) (l : list A) : list A :=
  foldr (sort_insert compare) [] l.

(** The state of the component: the two [useState] cells, and what it has
    logged on the console (one entry per [console.log], the array logged).
    Each handler is taken to run on the state that the handlers before it
    have left, as when React renders between two events. *)
Record State : Type := mkState {
  isSelecting : bool;
  selected : JSet string;
  console : list (list (Z * Z))
}.

Definition initial : State := mkState false [] [].

Definition handlePointerDown (r c : Z) (s : State) : State :=
  mkState true (Set_of String.eqb [key r c]) (console s).

Definition handlePointerEnter (r c : Z) (s : State) : option State :=
  if negb (isSelecting s) then Some s
  else
    match select_more r c (selected s) with
    | None => None
    | Some next => Some (mkState (isSelecting s) next (console s))
    end.

(** [Array.from(selected).map(parseKey)] *)
Fixpoint parse_all (keys : list string) : option (list (Z * Z)) :=
  match keys with
  | [] => Some []
  | k :: rest =>
      match parseKey k, parse_all rest with
      | Some cell, Some cells => Some (cell :: cells)
      | _, _ => None
      end
  end.

Definition finishAndLog (s : State) : option State :=
  if negb (isSelecting s) then Some s
  else
    match parse_all (selected s) with
    | None => None
    | Some list =>
        let list := Array_sort row_major list in
        Some (mkState false (selected s)
                (console s ++ [list; map (fun cell => (cell.1 + 1, cell.2 + 1)) list]))
    end.

Definition cancelSelection (s : State) : State :=
  if negb (isSelecting s) then s
  else mkState false [] (console s).

(** The pointer events that the component handles. *)
Inductive Event : Type :=
| PointerDown (r c : Z)      (* on the cell [(r, c)] *)
| PointerEnter (r c : Z)     (* on the cell [(r, c)] *)
| PointerUp
| PointerCancel
| PointerLeave.              (* the pointer leaves the container *)

Definition handle (s : State) (e : Event) : option State :=
  match e with
  | PointerDown r c => Some (handlePointerDown r c s)
  | PointerEnter r c => handlePointerEnter r c s
  | PointerUp => finishAndLog s
  | PointerCancel => Some (cancelSelection s)
  | PointerLeave => Some (cancelSelection s)
  end.

Fixpoint run (s : State) (events : list Event) : option State :=
  match events with
  | [] => Some s
  | e :: rest =>
      match handle s e with
      | None => None
      | Some s' => run s' rest
      end
  end.
End SquareFlipper.

(** * Vocabulary of the properties *)

(** ** The grid *)

(** The position [r] is inside a grid of [w] by [h]. *)
Definition in_bounds (w h : Z) (r : Ref) : Prop :=
  0 <= r.1 < w /\ 0 <= r.2 < h.

(** [h] rows of [w] cells each. *)
Definition grid_shape (w h : Z) (cells : Cells) : Prop :=
  Z.of_nat (length cells) = h /\ Forall (fun row => Z.of_nat (length row) = w) cells.

(** The row [y] that the first pass of the constructor allocates. *)
Definition new_row (w y : Z) : list Cell.t := (fun x => Cell.new x y) <$> seqZ 0 w.

(** The four pushes that the second pass makes on the cell at [(x, y)]. *)
Definition wire (w h x y : Z) (c : Cell.t) : Cell.t :=
  let c := if 0 <? x then Cell.push_neighbor (x - 1, y) c else c in
  let c := if x <? w - 1 then Cell.push_neighbor (x + 1, y) c else c in
  let c := if 0 <? y then Cell.push_neighbor (x, y - 1) c else c in
  let c := if y <? h - 1 then Cell.push_neighbor (x, y + 1) c else c in
  c.

(** The grid-adjacent positions of [(x, y)], in the order left, right, top, bottom. *)
Definition around (x y : Z) : list Ref :=
  [(x - 1, y); (x + 1, y); (x, y - 1); (x, y + 1)].

(** The neighbors that the constructor wires to the cell at [r]. *)
Definition adjacent (w h : Z) (r : Ref) : list Ref :=
  Cell.neighbors (wire w h r.1 r.2 (Cell.new r.1 r.2)).

(** All positions of the grid. *)
Definition positions (w h : Z) : list Ref :=
  y ← seqZ 0 h; (fun x => (x, y)) <$> seqZ 0 w.

(** A maze of [w] by [h] as the constructor leaves it, up to the edges carved
    since: every cell holds its position and the neighbors wired to it. *)
Definition grid_maze (w h : Z) (m : Maze.t) : Prop :=
  Maze.width m = w /\ Maze.height m = h /\
  grid_shape w h (Maze.cells m) /\
  forall r c, deref (Maze.cells m) r = Some c ->
    Cell.x c = r.1 /\ Cell.y c = r.2 /\ Cell.neighbors c = adjacent w h r.

(** ** Runs *)

(** What can happen to the host between two steps of a caller. *)
Inductive HostEvent : Type :=
| AbortCalled                      (* [abort()] on the controller *)
| TimerElapsed (p : nat)           (* the timer of promise [p] elapses *)
| TimeoutRequested (time : Z).     (* another [timeoutWithCancel] *)

Definition host_event (h : Host) (e : HostEvent) : Host :=
  match e with
  | AbortCalled => signal_abort h
  | TimerElapsed p => timer_fires p h
  | TimeoutRequested time => (timeoutWithCancel time h).2
  end.

(** Runs used as examples: [Math.random()] returns the listed values in
    turn (and 0 afterwards). *)
Definition rng_of (values : list Q) (n : nat) : Q := nth n values (0 # 1).

Definition never : nat -> bool := fun _ => false.
Definition during (p : nat) : nat -> bool := fun q => Nat.eqb q p.

(** A sort that leaves every array in the order it has. *)
Definition sort_keeps : nat -> list Ref -> list Ref := fun _ arr => arr.

(** ** The carved graph *)

(** The entries of all [edges] arrays together; one [carveEdge] call adds
    two of them, so half their number is the number of carved edges. *)
Definition edge_entries (cells : Cells) : Z :=
  Z.of_nat (sum_list_with (fun c => length (Cell.edges c)) (mjoin cells)).

Definition carved_edges (cells : Cells) : Z := edge_entries cells / 2.

(** [b] is listed in the edges of [a]. *)
Definition carved (cells : Cells) (a b : Ref) : Prop :=
  exists c, deref cells a = Some c /\ b ∈ Cell.edges c.

(** Every cell can be reached from every cell along carved edges. *)
Definition connected (cells : Cells) : Prop :=
  forall a b, a ∈ flat cells -> b ∈ flat cells -> rtc (carved cells) a b.

(** The invariant of the data model: the edges of a cell are among its neighbors. *)
Definition edges_within_neighbors (cells : Cells) : Prop :=
  forall r c, deref cells r = Some c -> forall e, e ∈ Cell.edges c -> e ∈ Cell.neighbors c.

(** Traversal of the carved graph: [fuel] rounds of adding the edges of
    everything seen so far. *)
Definition edges_of (cells : Cells) (r : Ref) : list Ref :=
  match deref cells r with
  | Some c => Cell.edges c
  | None => []
  end.

Fixpoint traverse (fuel : nat) (cells : Cells) (seen : list Ref) : list Ref :=
  match fuel with
  | O => seen
  | S fuel' =>
      traverse fuel' cells (fold_left (Set_add ref_eqb) (seen ≫= edges_of cells) seen)
  end.

Definition connectedb (cells : Cells) : bool :=
  forallb (fun a =>
             forallb (fun b => Set_has ref_eqb (traverse (length (flat cells)) cells [a]) b)
                     (flat cells))
          (flat cells).

(** What a drawing call shows: the current cell and the path. *)
Definition shown (d : Draw) : option (option Ref * list Ref) :=
  match d with
  | RenderMaze _ currentCell currentPath => Some (currentCell, currentPath)
  | FillSelf _ _ => None
  end.

(** No abort has been dispatched so far: the signal is not aborted, the
    listeners belong to promises made, and the world has called [abort()]
    during none of the delays awaited. *)
Definition quiet (world : nat -> bool) (h : Host) : Prop :=
  aborted h = false /\
  Forall (fun q => (q < length (promises h))%nat) (listeners h) /\
  forall q, (q < length (promises h))%nat -> world q = false.

(** The run was cut at its delay [p]: that promise is rejected with
    "aborted", it is the last one made, the abort came during it and during
    no earlier delay, and the maze is the one of the frame rendered last. *)
Definition cut_at (world : nat -> bool) (p : nat) (s : Wilson.State) : Prop :=
  promises (Wilson.host s) !! p = Some (Rejected "aborted") /\
  length (promises (Wilson.host s)) = S p /\
  world p = true /\
  (forall q, (q < p)%nat -> world q = false) /\
  exists fs cur path, Wilson.frames s = fs ++ [RenderMaze (Wilson.maze s) cur path].

(** A step of a run keeps the host property [IH], unless it throws
    "aborted" and leaves a state with [E]. *)
Definition keeps_unless_aborted (IH : Host -> Prop) (E : Wilson.State -> Prop)
  {A} (c : Wilson.M A) : Prop :=
  forall s, IH (Wilson.host s) ->
    ((c s).2 <> Err "aborted" /\ IH (Wilson.host (c s).1)) \/
    ((c s).2 = Err "aborted" /\ E (c s).1).

(** ** The depth-first carver *)

(** What holds of the carver's state between two calls of [visit], on a
    grid of [w] by [h] started at [root]: the visited positions are cells
    of the grid, cells not visited have no edges, every visit made one
    [carveEdge] call, every visited cell is linked to the root, and edges
    are listed at both ends. *)
Definition carver_inv (w h : Z) (root : Ref) (s : DFS.State) : Prop :=
  grid_maze w h (DFS.maze s) /\
  NoDup (DFS.visited s) /\
  (forall r, r ∈ DFS.visited s -> in_bounds w h r) /\
  (forall r c, deref (Maze.cells (DFS.maze s)) r = Some c ->
               r ∉ DFS.visited s -> Cell.edges c = []) /\
  edge_entries (Maze.cells (DFS.maze s)) = 2 * Z.of_nat (length (DFS.visited s)) /\
  (forall r, r ∈ DFS.visited s -> rtc (carved (Maze.cells (DFS.maze s))) root r) /\
  (forall a b, carved (Maze.cells (DFS.maze s)) a b -> carved (Maze.cells (DFS.maze s)) b a).

(** What a call of [visit] (or a loop of them) that takes [s] to [s'] adds:
    nothing visited or carved is lost, and every cell visited by it has all
    its neighbors visited at the end. *)
Definition carver_step (w h : Z) (root : Ref) (s s' : DFS.State) : Prop :=
  carver_inv w h root s' /\
  (forall r, r ∈ DFS.visited s -> r ∈ DFS.visited s') /\
  (length (DFS.visited s) <= length (DFS.visited s'))%nat /\
  (forall a b, carved (Maze.cells (DFS.maze s)) a b -> carved (Maze.cells (DFS.maze s')) a b) /\
  (forall r, r ∈ DFS.visited s' -> r ∉ DFS.visited s ->
             forall n, n ∈ adjacent w h r -> n ∈ DFS.visited s').

(** The shape of the [edges] arrays of the cells visited so far: the root
    lists itself twice, first; after that, and in every other cell, the
    entries are distinct neighbors of the cell and never the cell itself. *)
Definition tree_edges (root : Ref) (visited : list Ref) (cells : Cells) : Prop :=
  (visited = [] \/ root ∈ visited) /\
  forall r c, deref cells r = Some c -> r ∈ visited ->
    exists rest,
      Cell.edges c = (if decide (r = root) then [root; root] else []) ++ rest /\
      NoDup rest /\ (r ∉ rest) /\ forall e, e ∈ rest -> e ∈ Cell.neighbors c.

(** ** Runs of Wilson's algorithm *)

(** A step of a run started in a state with [P] leaves a state with [Q]
    and its value when it completes, and a state with [I] when it throws or
    does not complete. *)
Definition run_triple {A} (P : Wilson.State -> Prop) (c : Wilson.M A)
  (Q : A -> Wilson.State -> Prop) (I : Wilson.State -> Prop) : Prop :=
  forall s, P s ->
    match (c s).2 with
    | Ok a => Q a (c s).1
    | _ => I (c s).1
    end.

(** The host and the frames between two steps of a run: no timer is set
    and no promise pending, every delay made has left its listener on the
    signal, and each frame is a call of [renderMaze] that was followed by one
    delay. *)
Definition settled_run (s : Wilson.State) : Prop :=
  let h := Wilson.host s in
  timers h = [] /\
  listeners h = seq 0 (length (promises h)) /\
  length (delays h) = length (promises h) /\
  length (Wilson.frames s) = length (promises h) /\
  Forall (fun d => is_Some (shown d)) (Wilson.frames s) /\
  Forall (fun st => st <> Pending) (promises h).

(** The maze and the two Sets between two walks of a run on a grid of [w]
    by [h] that started from the maze [m0] and the seed cell [seed]: the
    grid is as it was but for edges carved since, every cell is in one of
    the Sets, and every visited cell is linked to the seed both ways. *)
Definition wilson_inv (w h : Z) (m0 : Maze.t) (seed : Ref)
  (m : Maze.t) (visited unvisited : list Ref) : Prop :=
  grid_maze w h m /\
  Maze.start m = Maze.start m0 /\ Maze.end_ m = Maze.end_ m0 /\
  (forall a b, carved (Maze.cells m0) a b -> carved (Maze.cells m) a b) /\
  (forall r, in_bounds w h r -> r ∈ visited \/ r ∈ unvisited) /\
  (forall r, r ∈ unvisited -> in_bounds w h r) /\
  (forall r, r ∈ visited ->
     in_bounds w h r /\ rtc (carved (Maze.cells m)) seed r /\ rtc (carved (Maze.cells m)) r seed).

(** ** Drawings *)

(** How many of the calls made on the context are of a given kind. *)
Definition count_calls {num} (kind : CanvasCall num -> bool) (calls : list (CanvasCall num)) : Z :=
  Z.of_nat (length (List.filter kind calls)).

Definition is_LineTo {num} (c : CanvasCall num) : bool :=
  match c with LineTo _ _ => true | _ => false end.
Definition is_Stroke {num} (c : CanvasCall num) : bool :=
  match c with Stroke => true | _ => false end.
Definition is_FillRect {num} (c : CanvasCall num) : bool :=
  match c with FillRect _ _ _ _ => true | _ => false end.
Definition is_ArcTo {num} (c : CanvasCall num) : bool :=
  match c with ArcTo _ _ _ _ _ => true | _ => false end.

(** Every edge held by a cell of the grid refers to a cell of the grid. *)
Definition edges_in_grid (cells : Cells) : Prop :=
  forall r c, deref cells r = Some c -> forall e, e ∈ Cell.edges c -> is_Some (deref cells e).

(** ** Selections on the drag-select grid *)

(** The Manhattan distance of two cells. *)
Definition manhattan (a b : Z * Z) : Z := Z.abs (a.1 - b.1) + Z.abs (a.2 - b.2).

(** The keys of a list of cells, in order. *)
Definition keys_of (cells : list (Z * Z)) : list string :=
  map (fun cell => SquareFlipper.key cell.1 cell.2) cells.

(** Every cell of [cells] can be reached from every other by steps between
    orthogonally adjacent cells of [cells]. *)
Definition orth_connected (cells : list (Z * Z)) : Prop :=
  forall a b, a ∈ cells -> b ∈ cells ->
    rtc (fun p q => q ∈ cells /\ manhattan p q = 1) a b.

(** Row-major order: by row, then by column. *)
Definition row_major_le (a b : Z * Z) : Prop :=
  a.1 < b.1 \/ (a.1 = b.1 /\ a.2 <= b.2).

(** * Properties *)

(** ** Loops and arrays *)

Lemma for_range_empty {S} (lo hi : Z) (body : Z -> S -> S) (s : S) :
  hi <= lo -> for_range lo hi body s = s.
Proof.
  intros H. unfold for_range. rewrite seqZ_nil by lia. reflexivity.
Qed.

Lemma for_range_snoc {S} (lo hi : Z) (body : Z -> S -> S) (s : S) :
  lo <= hi -> for_range lo (hi + 1) body s = body hi (for_range lo hi body s).
Proof.
  intros H. unfold for_range.
  replace (hi + 1 - lo) with ((hi - lo) + 1) by lia.
  rewrite seqZ_app by lia. rewrite fold_left_app.
  rewrite (seqZ_cons _ 1) by lia. rewrite seqZ_nil by lia. simpl.
  replace (lo + (hi - lo)) with hi by lia. reflexivity.
Qed.

(** Induction over the iterations of a [for] loop that starts at 0. *)
Lemma for_range_ind {S} (P : Z -> S -> Prop) (body : Z -> S -> S) (s : S) (n : Z) :
  P 0 s ->
  (forall i t, 0 <= i < n -> P i t -> P (i + 1) (body i t)) ->
  0 <= n -> P n (for_range 0 n body s).
Proof.
  intros H0 Hstep Hn.
  assert (forall k, 0 <= k -> k <= n -> P k (for_range 0 k body s)) as Hall.
  { intros k Hk. pattern k. apply natlike_ind; [| |exact Hk].
    - intros _. rewrite for_range_empty by lia. exact H0.
    - intros j Hj IH Hle. unfold Z.succ. rewrite for_range_snoc by lia.
      apply Hstep; [lia|]. apply IH. lia. }
  apply Hall; lia.
Qed.

Lemma js_get_Some {A} (arr : list A) (i : Z) (a : A) :
  js_get arr i = Some a <-> 0 <= i /\ arr !! Z.to_nat i = Some a.
Proof.
  unfold js_get. destruct (Z.ltb_spec i 0); split; try intros [? ?]; try lia; try done.
Qed.

Lemma js_get_app_last {A} (arr : list A) (a : A) (i : Z) :
  Z.of_nat (length arr) = i -> js_get (arr ++ [a]) i = Some a.
Proof.
  intros <-. apply js_get_Some. split; [lia|]. rewrite Nat2Z.id.
  rewrite lookup_app_r by lia. rewrite Nat.sub_diag. reflexivity.
Qed.

Lemma js_set_push {A} (arr : list A) (v : A) (i : Z) :
  Z.of_nat (length arr) = i -> js_set arr i v = arr ++ [v].
Proof.
  intros <-. unfold js_set.
  destruct (Z.ltb_spec (Z.of_nat (length arr)) (Z.of_nat (length arr))); [lia|].
  rewrite andb_false_r. rewrite Z.eqb_refl. reflexivity.
Qed.

Lemma js_set_last {A} (arr : list A) (a v : A) (i : Z) :
  Z.of_nat (length arr) = i -> js_set (arr ++ [a]) i v = arr ++ [v].
Proof.
  intros <-. unfold js_set. rewrite length_app. simpl.
  destruct (Z.leb_spec 0 (Z.of_nat (length arr))); [|lia].
  destruct (Z.ltb_spec (Z.of_nat (length arr)) (Z.of_nat (length arr + 1))); [|lia].
  simpl. rewrite Nat2Z.id.
  replace (length arr) with (length arr + 0)%nat at 1 by lia.
  rewrite insert_app_r. reflexivity.
Qed.

(** ** References into the grid *)

Lemma ref_eqb_eq (a b : Ref) : ref_eqb a b = true <-> a = b.
Proof.
  destruct a as [a1 a2], b as [b1 b2]. unfold ref_eqb. simpl.
  rewrite andb_true_iff, !Z.eqb_eq. split; [intros [-> ->]; reflexivity|].
  intros [= -> ->]. split; reflexivity.
Qed.

Lemma ref_eqb_refl (a : Ref) : ref_eqb a a = true.
Proof. apply ref_eqb_eq. reflexivity. Qed.

Lemma ref_eqb_neq (a b : Ref) : ref_eqb a b = false <-> a <> b.
Proof.
  rewrite <- ref_eqb_eq. destruct (ref_eqb a b); split; congruence.
Qed.

Lemma deref_Some (cells : Cells) (r : Ref) (c : Cell.t) :
  deref cells r = Some c <->
  0 <= r.1 /\ 0 <= r.2 /\
  exists row, cells !! Z.to_nat r.2 = Some row /\ row !! Z.to_nat r.1 = Some c.
Proof.
  unfold deref. split.
  - destruct (js_get cells r.2) as [row|] eqn:Hrow; [|done].
    intros Hc. apply js_get_Some in Hrow as [? ?]. apply js_get_Some in Hc as [? ?].
    eauto 6.
  - intros (? & ? & row & Hrow & Hc).
    assert (js_get cells r.2 = Some row) as -> by (apply js_get_Some; done).
    apply js_get_Some; done.
Qed.

Lemma deref_in_bounds (w h : Z) (cells : Cells) (r : Ref) :
  grid_shape w h cells -> is_Some (deref cells r) <-> in_bounds w h r.
Proof.
  intros [Hh Hw]. unfold in_bounds. split.
  - intros [c Hc]. apply deref_Some in Hc as (? & ? & row & Hrow & Hc).
    pose proof (lookup_lt_Some _ _ _ Hrow). pose proof (lookup_lt_Some _ _ _ Hc).
    rewrite Forall_forall in Hw.
    assert (Z.of_nat (length row) = w).
    { apply Hw. eapply list_elem_of_lookup_2. eassumption. }
    lia.
  - intros [? ?].
    destruct (lookup_lt_is_Some_2 cells (Z.to_nat r.2)) as [row Hrow]; [lia|].
    rewrite Forall_forall in Hw.
    assert (Z.of_nat (length row) = w).
    { apply Hw. eapply list_elem_of_lookup_2. eassumption. }
    destruct (lookup_lt_is_Some_2 row (Z.to_nat r.1)) as [c Hc]; [lia|].
    exists c. apply deref_Some. split; [lia|]. split; [lia|]. eauto.
Qed.

Lemma deref_modify_eq (r : Ref) (f : Cell.t -> Cell.t) (cells : Cells) :
  deref (modify r f cells) r = f <$> deref cells r.
Proof.
  unfold modify, deref, js_get.
  destruct (Z.ltb_spec r.1 0), (Z.ltb_spec r.2 0); simpl; try done.
  - destruct (cells !! Z.to_nat r.2); reflexivity.
  - rewrite list_lookup_alter_eq. destruct (cells !! Z.to_nat r.2); simpl; [|reflexivity].
    apply list_lookup_alter_eq.
Qed.

Lemma deref_modify_ne (r r' : Ref) (f : Cell.t -> Cell.t) (cells : Cells) :
  r <> r' -> deref (modify r f cells) r' = deref cells r'.
Proof.
  intros Hne. unfold modify, deref, js_get.
  destruct (Z.ltb_spec r.1 0), (Z.ltb_spec r.2 0); simpl; try done.
  destruct (Z.ltb_spec r'.2 0); [done|].
  destruct (decide (Z.to_nat r.2 = Z.to_nat r'.2)) as [Heq|Hy].
  - rewrite Heq, list_lookup_alter_eq. destruct (cells !! Z.to_nat r'.2); simpl; [|done].
    destruct (Z.ltb_spec r'.1 0); [done|].
    apply list_lookup_alter_ne. intros Hx.
    apply Hne. destruct r, r'; simpl in *. f_equal; lia.
  - rewrite list_lookup_alter_ne by done. reflexivity.
Qed.

Lemma deref_modify (r r' : Ref) (f : Cell.t -> Cell.t) (cells : Cells) :
  deref (modify r f cells) r' =
  if decide (r = r') then f <$> deref cells r' else deref cells r'.
Proof.
  destruct (decide (r = r')) as [->|Hne].
  - apply deref_modify_eq.
  - apply deref_modify_ne. exact Hne.
Qed.

Lemma modify_shape (w h : Z) (r : Ref) (f : Cell.t -> Cell.t) (cells : Cells) :
  grid_shape w h cells -> grid_shape w h (modify r f cells).
Proof.
  intros [Hh Hw]. unfold modify.
  destruct ((r.1 <? 0) || (r.2 <? 0)); [done|].
  split; [rewrite length_alter; exact Hh|].
  apply Forall_alter; [exact Hw|].
  intros row _ Hrow. rewrite length_alter. exact Hrow.
Qed.

Lemma modify_modify (r : Ref) (f g : Cell.t -> Cell.t) (cells : Cells) :
  modify r f (modify r g cells) = modify r (fun c => f (g c)) cells.
Proof.
  unfold modify. destruct ((r.1 <? 0) || (r.2 <? 0)); [done|].
  rewrite list_alter_alter_eq. apply list_alter_ext; [|done].
  intros row _. simpl. rewrite list_alter_alter_eq. reflexivity.
Qed.

Lemma modify_id (r : Ref) (cells : Cells) : modify r (fun c => c) cells = cells.
Proof.
  unfold modify. destruct ((r.1 <? 0) || (r.2 <? 0)); [done|].
  apply list_alter_id. intros row. apply list_alter_id. done.
Qed.

Lemma elem_of_flat (cells : Cells) (r : Ref) :
  r ∈ flat cells <-> is_Some (deref cells r).
Proof.
  unfold flat. rewrite list_elem_of_join. split.
  - intros (l & Hr & Hl).
    apply elem_of_lookup_imap in Hl as (j & row & -> & Hrow).
    apply elem_of_lookup_imap in Hr as (i & c & -> & Hc).
    exists c. apply deref_Some. simpl. rewrite !Nat2Z.id.
    split; [lia|]. split; [lia|]. eauto.
  - intros [c Hc]. apply deref_Some in Hc as (Hx & Hy & row & Hrow & Hc).
    exists (imap (fun x (_ : Cell.t) => (Z.of_nat x, Z.of_nat (Z.to_nat r.2))) row). split.
    + apply elem_of_lookup_imap. exists (Z.to_nat r.1), c. split; [|exact Hc].
      rewrite !Z2Nat.id by lia. destruct r; reflexivity.
    + apply elem_of_lookup_imap. exists (Z.to_nat r.2), row. split; [|exact Hrow].
      reflexivity.
Qed.

Lemma flat_length (w h : Z) (cells : Cells) :
  grid_shape w h cells -> Z.of_nat (length (flat cells)) = w * h.
Proof.
  intros [Hh Hw]. unfold flat. subst h.
  assert (forall (f : nat -> nat) ,
            Z.of_nat (length (mjoin (imap (fun y (row : list Cell.t) =>
               imap (fun x (_ : Cell.t) => (Z.of_nat x, Z.of_nat (f y))) row) cells)))
            = w * Z.of_nat (length cells)) as Hgen.
  { induction Hw as [|row rows Hrow Hrows IH]; intros f; simpl; [lia|].
    rewrite length_app, length_imap.
    specialize (IH (fun y => f (S y))). unfold compose. simpl in IH. lia. }
  apply (Hgen (fun y => y)).
Qed.

(** ** The constructor *)

Lemma generate_cells_rows (w h : Z) :
  Maze.generate_cells w h = new_row w <$> seqZ 0 h.
Proof.
  unfold Maze.generate_cells.
  destruct (Z.le_gt_cases h 0) as [Hh|Hh].
  { rewrite for_range_empty by lia. rewrite seqZ_nil by lia. reflexivity. }
  apply (for_range_ind (fun k (cells : Cells) => cells = new_row w <$> seqZ 0 k)); [done| |lia].
  intros y cells Hy ->.
  assert (Z.of_nat (length (new_row w <$> seqZ 0 y)) = y) as Hlen.
  { rewrite length_fmap, length_seqZ. lia. }
  rewrite (js_set_push _ _ _ Hlen).
  replace (seqZ 0 (y + 1)) with (seqZ 0 y ++ [y]).
  2:{ rewrite (seqZ_app 0 y 1) by lia. reflexivity. }
  rewrite fmap_app. simpl. f_equal.
  set (rows := new_row w <$> seqZ 0 y) in *.
  destruct (Z.le_gt_cases w 0) as [Hw|Hw].
  { rewrite for_range_empty by lia. unfold new_row. rewrite seqZ_nil by lia. reflexivity. }
  apply (for_range_ind (fun k (cells : Cells) => cells = rows ++ [new_row k y])); [done| |lia].
  intros x cells Hx ->.
  rewrite (js_get_app_last _ _ _ Hlen).
  rewrite (js_set_last _ _ _ _ Hlen). f_equal. f_equal.
  unfold new_row.
  assert (Z.of_nat (length ((fun x => Cell.new x y) <$> seqZ 0 x)) = x) as Hrow.
  { rewrite length_fmap, length_seqZ. lia. }
  rewrite (js_set_push _ _ _ Hrow).
  rewrite (seqZ_app 0 x 1) by lia. rewrite fmap_app. reflexivity.
Qed.

Lemma generate_cells_shape (w h : Z) :
  0 <= w -> 0 <= h -> grid_shape w h (Maze.generate_cells w h).
Proof.
  intros Hw Hh. rewrite generate_cells_rows. split.
  - rewrite length_fmap, length_seqZ. lia.
  - apply Forall_fmap, Forall_forall. intros y _. simpl.
    unfold new_row. rewrite length_fmap, length_seqZ. lia.
Qed.

Lemma generate_cells_deref (w h x y : Z) :
  0 <= x < w -> 0 <= y < h ->
  deref (Maze.generate_cells w h) (x, y) = Some (Cell.new x y).
Proof.
  intros Hx Hy. rewrite generate_cells_rows. apply deref_Some. simpl.
  split; [lia|]. split; [lia|]. exists (new_row w y). split.
  - rewrite list_lookup_fmap, lookup_seqZ_lt by lia. simpl. f_equal. f_equal. lia.
  - unfold new_row. rewrite list_lookup_fmap, lookup_seqZ_lt by lia. simpl.
    f_equal. f_equal. lia.
Qed.

(** A loop of updates, one per position, leaves at every position of its
    range the update of that position. *)
Lemma for_range_modify_row (F : Z -> Cell.t -> Cell.t) (y k : Z) (cells : Cells) (r : Ref) :
  0 <= k ->
  (r.2 = y /\ 0 <= r.1 < k ->
   deref (for_range 0 k (fun x cells => modify (x, y) (F x) cells) cells) r
   = F r.1 <$> deref cells r) /\
  (~ (r.2 = y /\ 0 <= r.1 < k) ->
   deref (for_range 0 k (fun x cells => modify (x, y) (F x) cells) cells) r = deref cells r).
Proof.
  intros Hk. revert r.
  apply (for_range_ind (fun k (t : Cells) => forall r,
    (r.2 = y /\ 0 <= r.1 < k -> deref t r = F r.1 <$> deref cells r) /\
    (~ (r.2 = y /\ 0 <= r.1 < k) -> deref t r = deref cells r))); [| |exact Hk].
  - intros r. split; [lia|done].
  - intros x t Hx IH r.
    destruct (IH r) as [IHin IHout].
    destruct (decide ((x, y) = r)) as [<-|Hne]; simpl in *.
    + rewrite deref_modify_eq. split; [|lia]. intros _. rewrite IHout by lia. reflexivity.
    + rewrite deref_modify_ne by exact Hne.
      assert (~ (r.2 = y /\ r.1 = x)) as Hne'.
      { intros [? ?]. apply Hne. destruct r; simpl in *; congruence. }
      split; intros Hr; [apply IHin|apply IHout]; lia.
Qed.

Lemma for_range_modify_grid (F : Z -> Z -> Cell.t -> Cell.t) (w k : Z) (cells : Cells) (r : Ref) :
  0 <= w -> 0 <= k ->
  (0 <= r.1 < w /\ 0 <= r.2 < k ->
   deref (for_range 0 k (fun y cells =>
            for_range 0 w (fun x cells => modify (x, y) (F x y) cells) cells) cells) r
   = F r.1 r.2 <$> deref cells r) /\
  (~ (0 <= r.1 < w /\ 0 <= r.2 < k) ->
   deref (for_range 0 k (fun y cells =>
            for_range 0 w (fun x cells => modify (x, y) (F x y) cells) cells) cells) r
   = deref cells r).
Proof.
  intros Hw Hk. revert r.
  apply (for_range_ind (fun k (t : Cells) => forall r,
    (0 <= r.1 < w /\ 0 <= r.2 < k -> deref t r = F r.1 r.2 <$> deref cells r) /\
    (~ (0 <= r.1 < w /\ 0 <= r.2 < k) -> deref t r = deref cells r))); [| |exact Hk].
  - intros r. split; [lia|done].
  - intros y t Hy IH r.
    destruct (for_range_modify_row (fun x => F x y) y w t r Hw) as [Hin Hout].
    destruct (IH r) as [IHin IHout].
    destruct (decide (r.2 = y /\ 0 <= r.1 < w)) as [[<- ?]|Hn1].
    + split; [|lia]. intros _. rewrite Hin by lia. rewrite IHout by lia. reflexivity.
    + rewrite Hout by exact Hn1. split; intros Hr; [apply IHin|apply IHout]; lia.
Qed.

Lemma setup_neighbors_modify (w h : Z) (cells : Cells) :
  Maze.setup_neighbors w h cells =
  for_range 0 h (fun y cells =>
    for_range 0 w (fun x cells => modify (x, y) (wire w h x y) cells) cells) cells.
Proof.
  unfold Maze.setup_neighbors, for_range.
  assert (forall x y (cs : Cells),
    (let cell := (x, y) in
     let cells := if 0 <? x then modify cell (Cell.push_neighbor (x - 1, y)) cs else cs in
     let cells := if x <? w - 1 then modify cell (Cell.push_neighbor (x + 1, y)) cells else cells in
     let cells := if 0 <? y then modify cell (Cell.push_neighbor (x, y - 1)) cells else cells in
     let cells := if y <? h - 1 then modify cell (Cell.push_neighbor (x, y + 1)) cells else cells in
     cells) = modify (x, y) (wire w h x y) cs) as Hbody.
  { intros x y cs. unfold wire. cbv zeta.
    destruct (0 <? x), (x <? w - 1), (0 <? y), (y <? h - 1);
      rewrite ?modify_modify; try reflexivity.
    rewrite <- (modify_id (x, y) cs) at 1. reflexivity. }
  generalize (seqZ 0 (h - 0)). intros ys. revert cells.
  induction ys as [|y ys IH]; intros cells; simpl; [reflexivity|].
  rewrite <- IH. f_equal.
  generalize (seqZ 0 (w - 0)). intros xs. revert cells.
  induction xs as [|x xs IHx]; intros cells; simpl; [reflexivity|].
  rewrite <- IHx. f_equal. apply Hbody.
Qed.

Lemma setup_neighbors_deref (w h : Z) (cells : Cells) (r : Ref) :
  0 <= w -> 0 <= h ->
  deref (Maze.setup_neighbors w h cells) r =
  if decide (in_bounds w h r) then wire w h r.1 r.2 <$> deref cells r else deref cells r.
Proof.
  intros Hw Hh. rewrite setup_neighbors_modify.
  destruct (for_range_modify_grid (wire w h) w h cells r Hw Hh) as [Hin Hout].
  destruct (decide (in_bounds w h r)) as [Hr|Hr]; [apply Hin|apply Hout]; exact Hr.
Qed.

Lemma setup_neighbors_shape (w h w' h' : Z) (cells : Cells) :
  grid_shape w h cells -> grid_shape w h (Maze.setup_neighbors w' h' cells).
Proof.
  rewrite setup_neighbors_modify. unfold for_range.
  generalize (seqZ 0 (h' - 0)). intros ys. revert cells.
  induction ys as [|y ys IH]; intros cells Hs; simpl; [exact Hs|].
  apply IH.
  generalize (seqZ 0 (w' - 0)). intros xs. revert cells Hs.
  induction xs as [|x xs IHx]; intros cells Hs; simpl; [exact Hs|].
  apply IHx. apply modify_shape. exact Hs.
Qed.

Lemma wire_new (w h x y : Z) :
  wire w h x y (Cell.new x y) =
  Cell.mk x y []
    ((if 0 <? x then [(x - 1, y)] else []) ++ (if x <? w - 1 then [(x + 1, y)] else []) ++
     (if 0 <? y then [(x, y - 1)] else []) ++ (if y <? h - 1 then [(x, y + 1)] else [])).
Proof.
  unfold wire, Cell.new, Cell.push_neighbor.
  destruct (0 <? x), (x <? w - 1), (0 <? y), (y <? h - 1); reflexivity.
Qed.

Lemma wire_new_neighbors (w h x y : Z) (r : Ref) :
  0 <= x < w -> 0 <= y < h ->
  r ∈ Cell.neighbors (wire w h x y (Cell.new x y)) <-> in_bounds w h r /\ r ∈ around x y.
Proof.
  intros Hx Hy. rewrite wire_new. simpl. unfold around, in_bounds.
  destruct r as [rx ry]. simpl.
  destruct (Z.ltb_spec 0 x), (Z.ltb_spec x (w - 1)), (Z.ltb_spec 0 y), (Z.ltb_spec y (h - 1));
    rewrite ?elem_of_app, ?elem_of_cons, ?elem_of_nil, ?pair_equal_spec; lia.
Qed.

Lemma wire_new_NoDup (w h x y : Z) : NoDup (Cell.neighbors (wire w h x y (Cell.new x y))).
Proof.
  rewrite wire_new. simpl.
  assert (NoDup (around x y)) as Hnd.
  { unfold around. repeat (apply NoDup_cons; split; [rewrite ?elem_of_cons, elem_of_nil;
      intros Hr; repeat destruct Hr as [Hr|Hr]; try done; injection Hr; lia|]).
    apply NoDup_nil. done. }
  eapply sublist_NoDup; [exact Hnd|]. unfold around.
  destruct (0 <? x), (x <? w - 1), (0 <? y), (y <? h - 1); simpl;
    repeat (first [apply sublist_nil | apply sublist_skip | apply sublist_cons ]).
Qed.

Lemma maze_new_shape (w h : Z) :
  0 <= w -> 0 <= h -> grid_shape w h (Maze.cells (Maze.new w h)).
Proof.
  intros Hw Hh. simpl. apply setup_neighbors_shape, generate_cells_shape; assumption.
Qed.

Lemma maze_new_deref (w h x y : Z) :
  0 <= x < w -> 0 <= y < h ->
  deref (Maze.cells (Maze.new w h)) (x, y) = Some (wire w h x y (Cell.new x y)).
Proof.
  intros Hx Hy. simpl. rewrite setup_neighbors_deref by lia.
  destruct (decide (in_bounds w h (x, y))) as [_|Hn].
  - rewrite generate_cells_deref by assumption. reflexivity.
  - exfalso. apply Hn. split; assumption.
Qed.

(** C9: after construction with positive dimensions the maze holds exactly
    width * height cells, one per in-bounds position; the neighbors of each
    are exactly the in-bounds positions among left, right, top and bottom,
    and its edges are empty. *)
Theorem maze_new_grid (w h : Z) :
  0 < w -> 0 < h ->
  grid_shape w h (Maze.cells (Maze.new w h)) /\
  Z.of_nat (length (flat (Maze.cells (Maze.new w h)))) = w * h /\
  (forall r, r ∈ flat (Maze.cells (Maze.new w h)) <-> in_bounds w h r) /\
  forall x y, 0 <= x < w -> 0 <= y < h ->
    exists c, deref (Maze.cells (Maze.new w h)) (x, y) = Some c /\
      Cell.x c = x /\ Cell.y c = y /\
      Cell.edges c = [] /\
      NoDup (Cell.neighbors c) /\
      forall r, r ∈ Cell.neighbors c <-> in_bounds w h r /\ r ∈ around x y.
Proof.
  intros Hw Hh.
  assert (grid_shape w h (Maze.cells (Maze.new w h))) as Hshape
    by (apply maze_new_shape; lia).
  split; [exact Hshape|]. split; [apply flat_length; exact Hshape|]. split.
  - intros r. rewrite elem_of_flat. apply deref_in_bounds. exact Hshape.
  - intros x y Hx Hy. exists (wire w h x y (Cell.new x y)).
    split; [apply maze_new_deref; assumption|].
    split; [rewrite wire_new; reflexivity|].
    split; [rewrite wire_new; reflexivity|].
    split; [rewrite wire_new; reflexivity|].
    split; [apply wire_new_NoDup|].
    intros r. apply wire_new_neighbors; assumption.
Qed.

Lemma maze_new_grid_witness :
  0 < 2 /\ 0 < 3 /\
  Z.of_nat (length (flat (Maze.cells (Maze.new 2 3)))) = 2 * 3.
Proof.
  split; [lia|]. split; [lia|].
  apply (maze_new_grid 2 3); lia.
Defined.

(** ** Random picks *)

Lemma randomIndex_range (random : Q) (n : Z) :
  unit_interval random -> 0 < n ->
  0 <= Qfloor (random * inject_Z n) < n.
Proof.
  intros [H0 H1] Hn. split.
  - change 0 with (Qfloor (inject_Z 0)). apply Qfloor_resp_le.
    apply Qmult_le_0_compat; [exact H0|].
    change 0%Q with (inject_Z 0). rewrite <- Zle_Qle. lia.
  - apply Z.lt_nge. intros Hge.
    assert (inject_Z n <= random * inject_Z n)%Q as Hle.
    { eapply Qle_trans; [|apply Qfloor_le]. rewrite <- Zle_Qle. exact Hge. }
    assert (random * inject_Z n < 1 * inject_Z n)%Q as Hlt.
    { apply Qmult_lt_compat_r; [|exact H1].
      change 0%Q with (inject_Z 0). rewrite <- Zlt_Qlt. exact Hn. }
    rewrite Qmult_1_l in Hlt.
    apply (Qlt_irrefl (inject_Z n)). eapply Qle_lt_trans; eassumption.
Qed.

Lemma randomMember_nonempty {T} (random : Q) (items : list T) :
  unit_interval random -> items <> [] ->
  exists a, randomMember random (GArray items) = Normal (Some a) /\
            randomMember random (GSet items) = Normal (Some a) /\
            a ∈ items.
Proof.
  intros Hr Hne.
  assert (0 < Z.of_nat (length items)) as Hlen by (destruct items; simpl; [done|lia]).
  pose proof (randomIndex_range random _ Hr Hlen) as Hidx.
  destruct (lookup_lt_is_Some_2 items (Z.to_nat (Qfloor (random * inject_Z (Z.of_nat (length items))))))
    as [a Ha]; [lia|].
  exists a. unfold randomMember, Set_size.
  destruct (Z.eqb_spec (Z.of_nat (length items)) 0); [lia|].
  assert (js_get items (Qfloor (random * inject_Z (Z.of_nat (length items)))) = Some a) as ->.
  { apply js_get_Some. split; [lia|exact Ha]. }
  split; [reflexivity|]. split; [reflexivity|].
  eapply list_elem_of_lookup_2. exact Ha.
Qed.

(** C7: on an empty Set or array [randomMember] throws (the error the
    specification calls EmptyCollectionError is [Error("empty group")]); on a
    singleton it returns the single element, whatever [Math.random()] gives. *)
Theorem randomMember_empty_singleton {T} (random : Q) (a : T) :
  randomMember random (@GSet T []) = Throw "empty group"%string /\
  randomMember random (@GArray T []) = Throw "empty group"%string /\
  (unit_interval random ->
   randomMember random (GSet [a]) = Normal (Some a) /\
   randomMember random (GArray [a]) = Normal (Some a)).
Proof.
  split; [reflexivity|]. split; [reflexivity|].
  intros Hr.
  destruct (randomMember_nonempty random [a] Hr) as (b & Harr & Hset & Hb); [done|].
  apply list_elem_of_singleton in Hb. subst b. split; assumption.
Qed.

Lemma randomMember_empty_singleton_witness :
  unit_interval (3 # 4) /\
  randomMember (3 # 4) (GArray [7]) = Normal (Some 7).
Proof.
  assert (unit_interval (3 # 4)) as Hr by (split; reflexivity || discriminate).
  split; [exact Hr|].
  apply (randomMember_empty_singleton (3 # 4) 7). exact Hr.
Defined.

(** ** The cancellable delay *)

Lemma settle_length (p : nat) (st : PromiseState) (h : Host) :
  length (promises (settle p st h)) = length (promises h).
Proof.
  unfold settle. destruct (promises h !! p) as [[]|]; simpl; rewrite ?length_insert; reflexivity.
Qed.

Lemma settle_other (p q : nat) (st : PromiseState) (h : Host) :
  q <> p -> promises (settle q st h) !! p = promises h !! p.
Proof.
  intros Hne. unfold settle.
  destruct (promises h !! q) as [[]|]; simpl; try reflexivity.
  apply list_lookup_insert_ne. exact Hne.
Qed.

Lemma settle_pending (p : nat) (st : PromiseState) (h : Host) :
  promises h !! p = Some Pending -> promises (settle p st h) !! p = Some st.
Proof.
  intros Hp. unfold settle. rewrite Hp. simpl.
  apply list_lookup_insert_eq. eapply lookup_lt_Some. exact Hp.
Qed.

Lemma settle_fields (p : nat) (st : PromiseState) (h : Host) :
  aborted (settle p st h) = aborted h /\
  listeners (settle p st h) = listeners h /\
  timers (settle p st h) = timers h.
Proof.
  unfold settle. destruct (promises h !! p) as [[]|]; done.
Qed.

(** A listener of another promise leaves promise [p] and its timer alone. *)
Lemma on_abort_other (p q : nat) (h : Host) :
  q <> p ->
  promises (on_abort q h) !! p = promises h !! p /\
  existsb (Nat.eqb p) (timers (on_abort q h)) = existsb (Nat.eqb p) (timers h) /\
  length (promises (on_abort q h)) = length (promises h) /\
  aborted (on_abort q h) = aborted h /\
  listeners (on_abort q h) = listeners h.
Proof.
  intros Hne. unfold on_abort, reject.
  destruct (settle_fields q (Rejected "aborted") (clearTimeout q h)) as (Ha & Hl & Ht).
  rewrite settle_other by exact Hne. rewrite settle_length, Ha, Hl, Ht. simpl.
  repeat split.
  induction (timers h) as [|t ts IH]; simpl; [reflexivity|].
  destruct (Nat.eqb_spec t q) as [->|Htq]; simpl.
  - rewrite IH. destruct (Nat.eqb_spec p q); [congruence|reflexivity].
  - rewrite IH. reflexivity.
Qed.

Lemma on_abort_others (p : nat) (ls : list nat) (h : Host) :
  Forall (fun q => q <> p) ls ->
  let h' := fold_left (fun h q => on_abort q h) ls h in
  promises h' !! p = promises h !! p /\
  existsb (Nat.eqb p) (timers h') = existsb (Nat.eqb p) (timers h) /\
  length (promises h') = length (promises h) /\
  aborted h' = aborted h /\
  listeners h' = listeners h.
Proof.
  intros Hls. revert h. induction Hls as [|q ls Hq Hls IH]; intros h; simpl; [done|].
  destruct (on_abort_other p q h Hq) as (H1 & H2 & H3 & H4 & H5).
  destruct (IH (on_abort q h)) as (I1 & I2 & I3 & I4 & I5).
  rewrite I1, I2, I3, I4, I5, H1, H2, H3, H4, H5. done.
Qed.

(** The listener of a pending promise rejects it and clears its timer. *)
Lemma on_abort_pending (p : nat) (h : Host) :
  promises h !! p = Some Pending ->
  promises (on_abort p h) !! p = Some (Rejected "aborted") /\
  existsb (Nat.eqb p) (timers (on_abort p h)) = false /\
  length (promises (on_abort p h)) = length (promises h) /\
  aborted (on_abort p h) = aborted h /\
  listeners (on_abort p h) = listeners h.
Proof.
  intros Hp. unfold on_abort, reject.
  destruct (settle_fields p (Rejected "aborted") (clearTimeout p h)) as (Ha & Hl & Ht).
  rewrite settle_pending by exact Hp. rewrite settle_length, Ha, Hl, Ht. simpl.
  repeat split.
  induction (timers h) as [|t ts IH]; simpl; [reflexivity|].
  destruct (Nat.eqb_spec t p) as [->|Htp]; simpl; [exact IH|].
  rewrite IH. destruct (Nat.eqb_spec p t); [congruence|reflexivity].
Qed.

Lemma existsb_eqb_snoc (p : nat) (ts : list nat) : existsb (Nat.eqb p) (ts ++ [p]) = true.
Proof.
  rewrite existsb_app. simpl. rewrite Nat.eqb_refl. rewrite orb_true_r. reflexivity.
Qed.

(** The timer of a pending promise elapses with no abort dispatched: the
    promise is fulfilled. *)
Lemma timeout_elapses (time : Z) (h : Host) :
  let p := (timeoutWithCancel time h).1 in
  let h' := timer_fires p (timeoutWithCancel time h).2 in
  p = length (promises h) /\
  promises h' !! p = Some Fulfilled /\
  length (promises h') = S (length (promises h)) /\
  aborted h' = aborted h /\
  listeners h' = listeners h ++ [p].
Proof.
  simpl. unfold timer_fires. simpl. rewrite existsb_eqb_snoc. unfold resolve.
  set (h1 := clearTimeout _ _).
  assert (promises h1 !! length (promises h) = Some Pending) as Hp.
  { simpl. rewrite lookup_app_r by lia. rewrite Nat.sub_diag. reflexivity. }
  destruct (settle_fields (length (promises h)) Fulfilled h1) as (Ha & Hl & Ht).
  rewrite settle_pending by exact Hp. rewrite settle_length, Ha, Hl. simpl.
  rewrite length_app. simpl. repeat split. lia.
Qed.

(** [abort()] is called on a signal not yet aborted while the promise is
    pending: the promise is rejected, and the timer elapsing later changes
    nothing. *)
Lemma timeout_aborted (time : Z) (h : Host) :
  aborted h = false ->
  Forall (fun q => (q < length (promises h))%nat) (listeners h) ->
  let p := (timeoutWithCancel time h).1 in
  let h' := while_pending true p (timeoutWithCancel time h).2 in
  p = length (promises h) /\
  promises h' !! p = Some (Rejected "aborted") /\
  length (promises h') = S (length (promises h)).
Proof.
  intros Hab Hls. simpl. unfold while_pending, signal_abort. simpl. rewrite Hab.
  rewrite fold_left_app. simpl.
  set (h1 := mkHost true _ _ _ _).
  assert (Forall (fun q => q <> length (promises h)) (listeners h)) as Hne.
  { eapply Forall_impl; [exact Hls|]. simpl. intros q Hq. lia. }
  destruct (on_abort_others (length (promises h)) (listeners h) h1 Hne) as (H1 & H2 & H3 & _).
  set (h2 := fold_left _ (listeners h) h1) in *.
  assert (promises h2 !! length (promises h) = Some Pending) as Hp.
  { rewrite H1. simpl. rewrite lookup_app_r by lia. rewrite Nat.sub_diag. reflexivity. }
  destruct (on_abort_pending _ _ Hp) as (A1 & A2 & A3 & _).
  unfold timer_fires. rewrite A2. rewrite A1, A3, H3. simpl.
  rewrite length_app. simpl. repeat split. lia.
Qed.

Lemma host_event_keeps_unrejected (p : nat) (h : Host) (e : HostEvent) :
  aborted h = true ->
  promises h !! p = Some Pending \/ promises h !! p = Some Fulfilled ->
  aborted (host_event h e) = true /\
  (promises (host_event h e) !! p = Some Pending \/
   promises (host_event h e) !! p = Some Fulfilled).
Proof.
  intros Hab Hp. destruct e as [|q|time]; simpl.
  - unfold signal_abort. rewrite Hab. done.
  - unfold timer_fires. destruct (existsb _ _); [|done]. unfold resolve.
    destruct (settle_fields q Fulfilled (clearTimeout q h)) as (Ha & _).
    rewrite Ha. split; [exact Hab|].
    destruct (decide (q = p)) as [->|Hne].
    + destruct Hp as [Hp|Hp].
      * right. apply settle_pending. exact Hp.
      * right. unfold settle. simpl. rewrite Hp. exact Hp.
    + rewrite settle_other by exact Hne. exact Hp.
  - split; [exact Hab|].
    destruct Hp as [Hp|Hp]; [left|right]; apply lookup_app_l_Some; exact Hp.
Qed.

(** ** Runs of Wilson's algorithm: what survives every step *)

Module WilsonLogic.
Import Wilson.

Section Keeps.
Variable rng : nat -> Q.
Variable world : nat -> bool.

(** [IH] is a property of the host that holds as long as no await has
    thrown "aborted"; [E] describes the state such a throw leaves. *)
Variable IH : Host -> Prop.
Variable E : State -> Prop.

Local Abbreviation keeps := (keeps_unless_aborted IH E).

Lemma keeps_ret {A} (a : A) : keeps (ret a).
Proof. intros s Hs. left. simpl. done. Qed.

Lemma keeps_diverge {A} : keeps (@diverge A).
Proof. intros s Hs. left. simpl. done. Qed.

Lemma keeps_gets {A} (f : State -> A) : keeps (gets f).
Proof. intros s Hs. left. simpl. done. Qed.

Lemma keeps_update (f : State -> State) :
  (forall s, host (f s) = host s) -> keeps (update f).
Proof. intros Hf s Hs. left. simpl. rewrite Hf. done. Qed.

Lemma keeps_bind {A B} (c : M A) (k : A -> M B) :
  keeps c -> (forall a, keeps (k a)) -> keeps (bind c k).
Proof.
  intros Hc Hk s Hs. unfold bind.
  destruct (Hc s Hs) as [[Hne HI]|[He HE]]; destruct (c s) as [s' [a|msg|]];
    simpl in *; try discriminate.
  - apply Hk. exact HI.
  - left. split; [|exact HI]. intros [= ->]. apply Hne. reflexivity.
  - left. done.
  - right. injection He as ->. done.
Qed.

Lemma keeps_pick (group : Group Ref) : keeps (pick rng group).
Proof.
  intros s Hs. left. unfold pick, bind, random. simpl.
  destruct (randomMember (rng (randoms s)) group) as [[c|]|msg] eqn:Hpick; simpl.
  - done.
  - done.
  - split; [|exact Hs]. unfold randomMember in Hpick.
    destruct (match group with GSet s0 => Set_size s0 =? 0
                             | GArray a => Z.of_nat (length a) =? 0 end);
      [|discriminate].
    injection Hpick as <-. discriminate.
Qed.

Lemma keeps_cell (r : Ref) : keeps (cell r).
Proof.
  intros s Hs. left. unfold cell.
  destruct (deref (Maze.cells (maze s)) r); simpl; done.
Qed.

(** The one place where a run can be aborted. *)
Hypothesis keeps_render_await : forall cur path time,
  keeps (bind (renderMaze cur path) (fun _ => await_timeout world time)).

Lemma keeps_walk_step (stepTime : Z) (startCell : Ref) (path : list Ref) (current : Ref) :
  keeps (walk_step rng world stepTime startCell path current).
Proof.
  unfold walk_step.
  apply keeps_bind; [apply keeps_update; done|intros _].
  apply keeps_bind; [apply keeps_cell|intros c].
  apply keeps_bind; [apply keeps_pick|intros next].
  apply keeps_bind; [apply keeps_gets|intros size].
  apply keeps_bind; [|intros _; apply keeps_ret].
  destruct (size >? 1) eqn:Hsize; [|apply keeps_ret].
  destruct (Z.eqb_spec size 1) as [->|_]; [discriminate|].
  intros s Hs.
  exact (keeps_render_await (Some next) (erase_loop (path ++ [current]) next) stepTime s Hs).
Qed.

Lemma keeps_walk (fuel : nat) (stepTime : Z) (startCell : Ref) (path : list Ref) (current : Ref) :
  keeps (walk rng world fuel stepTime startCell path current).
Proof.
  revert path current. induction fuel as [|fuel IH']; intros path current; simpl.
  - apply keeps_bind; [apply keeps_gets|intros seen].
    destruct seen; [apply keeps_ret|apply keeps_diverge].
  - apply keeps_bind; [apply keeps_gets|intros seen].
    destruct seen; [apply keeps_ret|].
    apply keeps_bind; [apply keeps_walk_step|intros step]. apply IH'.
Qed.

Lemma carve_path_host (path : list Ref) (s : State) : host (carve_path path s) = host s.
Proof.
  unfold carve_path, for_range.
  generalize (seqZ 0 (Z.of_nat (length path) - 1 - 0)). intros idx. revert s.
  induction idx as [|i idx IH']; intros s; simpl; [reflexivity|].
  rewrite IH'. destruct (js_get path i), (js_get path (i + 1)); reflexivity.
Qed.

Lemma keeps_walks (fuel : nat) (stepTime : Z) (startCell : Ref) :
  keeps (walks rng world fuel stepTime startCell).
Proof.
  induction fuel as [|fuel IH']; simpl.
  - apply keeps_bind; [apply keeps_gets|intros size].
    destruct (size >? 0); [apply keeps_diverge|apply keeps_ret].
  - apply keeps_bind; [apply keeps_gets|intros size].
    destruct (size >? 0); [|apply keeps_ret].
    apply keeps_bind; [apply keeps_gets|intros u].
    apply keeps_bind; [apply keeps_pick|intros current].
    apply keeps_bind; [apply keeps_walk|intros path].
    apply keeps_bind; [apply keeps_update; apply carve_path_host|intros _].
    exact IH'.
Qed.

Lemma keeps_body (fuel : nat) (stepTime : Z) : keeps (body rng world fuel stepTime).
Proof.
  unfold body.
  apply keeps_bind; [apply keeps_gets|intros m].
  apply keeps_bind; [apply keeps_update; done|intros _].
  apply keeps_bind; [apply keeps_update; done|intros _].
  apply keeps_bind; [apply keeps_pick|intros startCell].
  apply keeps_bind; [apply keeps_update; done|intros _].
  apply keeps_bind; [apply keeps_update; done|intros _].
  apply keeps_bind; [apply keeps_update; done|intros _].
  apply keeps_bind; [apply keeps_walks|intros _].
  intros s Hs.
  assert (keeps (bind (bind (renderMaze None []) (fun _ => await_timeout world 5000))
                      (fun _ => gets stepsTaken))) as Hk.
  { apply keeps_bind; [apply keeps_render_await|intros _; apply keeps_gets]. }
  specialize (Hk s Hs). unfold bind in *.
  destruct (renderMaze None [] s) as [s1 [[]| |]]; simpl in *; try exact Hk.
Qed.
End Keeps.
End WilsonLogic.

Lemma timeout_on_aborted (time : Z) (h : Host) (abort_called : bool) :
  aborted h = true ->
  let p := (timeoutWithCancel time h).1 in
  let h' := while_pending abort_called p (timeoutWithCancel time h).2 in
  promises h' !! p = Some Fulfilled /\ aborted h' = true.
Proof.
  intros Hab. unfold while_pending.
  assert ((if abort_called then signal_abort (timeoutWithCancel time h).2
           else (timeoutWithCancel time h).2) = (timeoutWithCancel time h).2) as ->.
  { destruct abort_called; [|reflexivity]. unfold signal_abort. simpl. rewrite Hab. reflexivity. }
  destruct (timeout_elapses time h) as (_ & Hp & _ & Ha & _).
  split; [exact Hp|]. rewrite <- Hab. exact Ha.
Qed.

Lemma await_on_aborted (world : nat -> bool) cur path time :
  keeps_unless_aborted (fun h => aborted h = true) (fun _ => False)
    (Wilson.bind (Wilson.renderMaze cur path) (fun _ => Wilson.await_timeout world time)).
Proof.
  intros s Hs. left.
  unfold Wilson.bind, Wilson.renderMaze, Wilson.update, Wilson.await_timeout. simpl.
  destruct (timeout_on_aborted time (Wilson.host s) (world (length (promises (Wilson.host s)))) Hs)
    as [Hp Ha].
  simpl in Hp, Ha. rewrite Hp. simpl. split; [discriminate|exact Ha].
Qed.

(** C10: on a signal that is already aborted when [timeoutWithCancel] is
    called the returned promise is pending, no later event of the host
    rejects it, and it is fulfilled when its timer elapses, whether or not
    [abort()] is called again meanwhile; so a run of [wilsonsAlgorithm]
    started with such a signal never fails with the "aborted" error. *)
Theorem timeout_on_aborted_signal_resolves (time : Z) (h : Host) :
  aborted h = true ->
  let p := (timeoutWithCancel time h).1 in
  let h1 := (timeoutWithCancel time h).2 in
  promises h1 !! p = Some Pending /\
  (forall events reason,
     promises (fold_left host_event events h1) !! p <> Some (Rejected reason)) /\
  (forall abort_called,
     promises (while_pending abort_called p h1) !! p = Some Fulfilled) /\
  (forall rng world fuel m stepTime,
     (Wilson.wilsonsAlgorithm rng world fuel m true stepTime).2 <> Err "aborted").
Proof.
  intros Hab p h1.
  assert (promises h1 !! p = Some Pending) as Hp.
  { subst p h1. simpl. rewrite lookup_app_r by lia. rewrite Nat.sub_diag. reflexivity. }
  split; [exact Hp|]. split; [|split].
  - intros events reason.
    assert (forall h2, aborted h2 = true ->
              promises h2 !! p = Some Pending \/ promises h2 !! p = Some Fulfilled ->
              promises (fold_left host_event events h2) !! p <> Some (Rejected reason)) as Hgen.
    { induction events as [|e events IH]; intros h2 Ha2 Hp2; simpl.
      - destruct Hp2 as [-> | ->]; discriminate.
      - destruct (host_event_keeps_unrejected p h2 e Ha2 Hp2) as [Ha3 Hp3].
        apply IH; assumption. }
    apply Hgen; [exact Hab|left; exact Hp].
  - intros abort_called. apply (timeout_on_aborted time h abort_called Hab).
  - intros rng world fuel m stepTime.
    destruct (WilsonLogic.keeps_body rng world (fun h => aborted h = true) (fun _ => False)
                (await_on_aborted world) fuel stepTime
                (Wilson.mkState m [] [] 0 0%nat [] (mkHost true [] [] [] [])) eq_refl)
      as [[Hne _]|[_ []]].
    exact Hne.
Qed.

Lemma timeout_on_aborted_signal_resolves_witness :
  aborted (mkHost true [] [] [] []) = true /\
  promises (while_pending true 0%nat (timeoutWithCancel 100 (mkHost true [] [] [] [])).2) !! 0%nat
  = Some Fulfilled.
Proof.
  split; [reflexivity|].
  apply (timeout_on_aborted_signal_resolves 100 (mkHost true [] [] [] []) eq_refl).
Defined.

Lemma await_quiet (world : nat -> bool) cur path time :
  keeps_unless_aborted (quiet world) (fun s => exists p, cut_at world p s)
    (Wilson.bind (Wilson.renderMaze cur path) (fun _ => Wilson.await_timeout world time)).
Proof.
  intros s (Hab & Hls & Hworld).
  unfold Wilson.bind, Wilson.renderMaze, Wilson.update, Wilson.await_timeout. simpl.
  destruct (world (length (promises (Wilson.host s)))) eqn:Hw.
  - right.
    destruct (timeout_aborted time (Wilson.host s) Hab Hls) as (_ & Hp & Hlen).
    simpl in Hp, Hlen. rewrite Hp. simpl. split; [reflexivity|].
    exists (length (promises (Wilson.host s))). unfold cut_at. simpl.
    split; [exact Hp|]. split; [exact Hlen|]. split; [exact Hw|]. split; [exact Hworld|].
    eauto.
  - left.
    destruct (timeout_elapses time (Wilson.host s)) as (_ & Hp & Hlen & Ha & Hl).
    unfold while_pending. simpl in *. rewrite Hp. simpl. split; [discriminate|].
    split; [rewrite Ha; exact Hab|]. split.
    + rewrite Hl, Hlen. apply Forall_app. split.
      * eapply Forall_impl; [exact Hls|]. simpl. intros q Hq. lia.
      * apply Forall_singleton. lia.
    + rewrite Hlen. intros q Hq.
      destruct (decide (q = length (promises (Wilson.host s)))) as [->|Hne]; [exact Hw|].
      apply Hworld. lia.
Qed.

(** C6: when the signal fires while a delay of the run is pending, per step
    or terminal, that delay's promise is rejected with "aborted" and the run
    ends with that error: no step count is returned, no further delay is
    made, and the maze is the one rendered in the last frame, right before
    that delay. *)
Theorem abort_during_delay_ends_run
  (rng : nat -> Q) (world : nat -> bool) (fuel : nat) (m : Maze.t) (stepTime : Z) (p : nat) :
  (p < length (promises (Wilson.host (Wilson.wilsonsAlgorithm rng world fuel m false stepTime).1)))%nat ->
  world p = true ->
  (Wilson.wilsonsAlgorithm rng world fuel m false stepTime).2 = Err "aborted" /\
  cut_at world p (Wilson.wilsonsAlgorithm rng world fuel m false stepTime).1.
Proof.
  intros Hp Hw.
  assert (quiet world (mkHost false [] [] [] [])) as Hq0.
  { split; [reflexivity|]. split; [apply Forall_nil; done|]. simpl. intros q Hq. lia. }
  destruct (WilsonLogic.keeps_body rng world (quiet world) (fun s => exists p, cut_at world p s)
              (await_quiet world) fuel stepTime
              (Wilson.mkState m [] [] 0 0%nat [] (mkHost false [] [] [] [])) Hq0)
    as [[_ (_ & _ & Hworld)]|[Herr (p' & Hcut)]].
  - rewrite (Hworld p Hp) in Hw. discriminate.
  - split; [exact Herr|].
    assert (p = p') as ->; [|exact Hcut].
    destruct Hcut as (_ & Hlen & _ & Hbefore & _).
    unfold Wilson.wilsonsAlgorithm in Hp. rewrite Hlen in Hp.
    destruct (decide (p = p')) as [Heq|Hne]; [exact Heq|].
    rewrite (Hbefore p) in Hw by lia. discriminate.
Qed.

Lemma abort_during_delay_ends_run_witness :
  let run := Wilson.wilsonsAlgorithm (rng_of [9 # 10; 1 # 2; 1 # 2; 0 # 1; 0 # 1])
               (during 0) 20 (Maze.new 3 1) false 100 in
  (0 < length (promises (Wilson.host run.1)))%nat /\ during 0 0%nat = true /\
  run.2 = Err "aborted".
Proof.
  assert (0 < length (promises (Wilson.host
            (Wilson.wilsonsAlgorithm (rng_of [9 # 10; 1 # 2; 1 # 2; 0 # 1; 0 # 1])
               (during 0) 20 (Maze.new 3 1) false 100).1)))%nat as Hp
    by (vm_compute; lia).
  split; [exact Hp|]. split; [reflexivity|].
  apply (abort_during_delay_ends_run _ _ _ _ _ _ Hp eq_refl).
Defined.

(** ** Rendering of the walk steps *)

Lemma settle_delays (p : nat) (st : PromiseState) (h : Host) :
  delays (settle p st h) = delays h.
Proof. unfold settle. destruct (promises h !! p) as [[]|]; reflexivity. Qed.

Lemma on_abort_delays (p : nat) (h : Host) : delays (on_abort p h) = delays h.
Proof. unfold on_abort, reject. rewrite settle_delays. reflexivity. Qed.

Lemma signal_abort_delays (h : Host) : delays (signal_abort h) = delays h.
Proof.
  unfold signal_abort. destruct (aborted h); [reflexivity|].
  set (h1 := mkHost true _ _ _ _). change (delays h) with (delays h1).
  generalize h1. induction (listeners h) as [|q ls IH]; intros h2; simpl; [reflexivity|].
  rewrite IH. apply on_abort_delays.
Qed.

Lemma while_pending_delays (abort_called : bool) (p : nat) (h : Host) :
  delays (while_pending abort_called p h) = delays h.
Proof.
  unfold while_pending, timer_fires.
  assert (delays (if abort_called then signal_abort h else h) = delays h) as Hd
    by (destruct abort_called; [apply signal_abort_delays|reflexivity]).
  destruct (existsb _ _); [|exact Hd].
  unfold resolve. rewrite settle_delays. exact Hd.
Qed.

Lemma walk_step_unfold
  (rng : nat -> Q) (world : nat -> bool) (stepTime : Z) (startCell : Ref)
  (path : list Ref) (current : Ref) (s : Wilson.State) (c : Cell.t) (next : Ref) :
  deref (Maze.cells (Wilson.maze s)) current = Some c ->
  randomMember (rng (Wilson.randoms s)) (GArray (Cell.uncarvedEdges c)) = Normal (Some next) ->
  let path' := Wilson.erase_loop (path ++ [current]) next in
  let s1 := Wilson.set_randoms (S (Wilson.randoms s))
              (Wilson.set_stepsTaken (Wilson.stepsTaken s + 1) s) in
  let out := Wilson.walk_step rng world stepTime startCell path current s in
  (Set_size (Wilson.visited s) > 1 ->
   let p := length (promises (Wilson.host s)) in
   Wilson.frames out.1 = Wilson.frames s ++ [RenderMaze (Wilson.maze s) (Some next) path'] /\
   Wilson.host out.1 = while_pending (world p) p (timeoutWithCancel stepTime (Wilson.host s)).2 /\
   out.2 = match promises (Wilson.host out.1) !! p with
           | Some Fulfilled => Ok (path', next)
           | Some (Rejected reason) => Err reason
           | _ => NoCompletion
           end) /\
  (Set_size (Wilson.visited s) <= 1 -> out = (s1, Ok (path', next))).
Proof.
  intros Hc Hnext path' s1 out. subst out.
  unfold Wilson.walk_step, Wilson.update, Wilson.cell, Wilson.pick,
    Wilson.random, Wilson.gets, Wilson.ret. repeat unfold Wilson.bind.
  cbn [Wilson.maze Wilson.randoms Wilson.set_randoms Wilson.set_stepsTaken].
  rewrite Hc. cbn [Wilson.maze Wilson.randoms Wilson.set_randoms Wilson.set_stepsTaken].
  rewrite Hnext. simpl. fold path'.
  split.
  - intros Hsize.
    destruct (Z.gtb_spec (Set_size (Wilson.visited s)) 1) as [_|?]; [|lia].
    destruct (Z.eqb_spec (Set_size (Wilson.visited s)) 1) as [?|_]; [lia|].
    unfold Wilson.renderMaze, Wilson.update, Wilson.await_timeout. simpl.
    destruct (promises _ !! _) as [[| |reason]|] eqn:Hp; simpl; rewrite Hp; done.
  - intros Hsize.
    destruct (Z.gtb_spec (Set_size (Wilson.visited s)) 1) as [?|_]; [lia|].
    reflexivity.
Qed.

(** While [visited] holds at most one cell a walk step draws nothing and
    awaits nothing, however it ends. *)
Lemma walk_step_silent
  (rng : nat -> Q) (world : nat -> bool) (stepTime : Z) (startCell : Ref)
  (path : list Ref) (current : Ref) (s : Wilson.State) :
  Set_size (Wilson.visited s) <= 1 ->
  let out := Wilson.walk_step rng world stepTime startCell path current s in
  Wilson.frames out.1 = Wilson.frames s /\
  Wilson.host out.1 = Wilson.host s /\
  Wilson.visited out.1 = Wilson.visited s.
Proof.
  intros Hsize.
  unfold Wilson.walk_step, Wilson.update, Wilson.cell, Wilson.pick,
    Wilson.random, Wilson.gets, Wilson.ret, Wilson.throw. repeat unfold Wilson.bind.
  cbn [Wilson.maze Wilson.randoms Wilson.set_randoms Wilson.set_stepsTaken].
  destruct (deref (Maze.cells (Wilson.maze s)) current) as [c|]; [|done].
  destruct (randomMember _ _) as [[next|]|msg]; try done. simpl.
  destruct (Z.gtb_spec (Set_size (Wilson.visited s)) 1) as [?|_]; [lia|]. done.
Qed.

Lemma walk_silent
  (rng : nat -> Q) (world : nat -> bool) (stepTime : Z) (startCell : Ref) (fuel : nat) :
  forall (path : list Ref) (current : Ref) (s : Wilson.State),
    Set_size (Wilson.visited s) <= 1 ->
    let out := Wilson.walk rng world fuel stepTime startCell path current s in
    Wilson.frames out.1 = Wilson.frames s /\
    Wilson.host out.1 = Wilson.host s /\
    Wilson.visited out.1 = Wilson.visited s.
Proof.
  induction fuel as [|fuel IH]; intros path current s Hsize; simpl;
    unfold Wilson.bind, Wilson.gets; simpl;
    destruct (Set_has ref_eqb (Wilson.visited s) current); try done.
  destruct (walk_step_silent rng world stepTime startCell path current s Hsize)
    as (Hf & Hh & Hv).
  destruct (Wilson.walk_step rng world stepTime startCell path current s)
    as [s1 [step|msg|]]; simpl in *; try done.
  destruct (IH step.1 step.2 s1) as (Hf' & Hh' & Hv'); [rewrite Hv; exact Hsize|].
  rewrite Hf', Hh', Hv'. done.
Qed.

(** C5, amended: a walk step that runs while [visited] holds more than one
    cell calls the renderer once, with the maze, the cell just chosen and
    the path after loop erasure, and then awaits the delay of [stepTime];
    a step that runs while [visited] holds at most one cell neither renders
    nor waits, and so a whole walk made while only the seed is visited, as
    the first walk is, leaves no frame and no delay. *)
Theorem walk_step_renders_when_tree_grown
  (rng : nat -> Q) (world : nat -> bool) (stepTime : Z) (startCell : Ref) :
  (forall (path : list Ref) (current : Ref) (s : Wilson.State) (c : Cell.t) (next : Ref),
     deref (Maze.cells (Wilson.maze s)) current = Some c ->
     randomMember (rng (Wilson.randoms s)) (GArray (Cell.uncarvedEdges c))
       = Normal (Some next) ->
     let path' := Wilson.erase_loop (path ++ [current]) next in
     let s1 := Wilson.set_randoms (S (Wilson.randoms s))
                 (Wilson.set_stepsTaken (Wilson.stepsTaken s + 1) s) in
     let out := Wilson.walk_step rng world stepTime startCell path current s in
     (Set_size (Wilson.visited s) > 1 ->
      let p := length (promises (Wilson.host s)) in
      Wilson.frames out.1
        = Wilson.frames s ++ [RenderMaze (Wilson.maze s) (Some next) path'] /\
      Wilson.host out.1
        = while_pending (world p) p (timeoutWithCancel stepTime (Wilson.host s)).2 /\
      delays (Wilson.host out.1) = delays (Wilson.host s) ++ [stepTime] /\
      out.2 = match promises (Wilson.host out.1) !! p with
              | Some Fulfilled => Ok (path', next)
              | Some (Rejected reason) => Err reason
              | _ => NoCompletion
              end) /\
     (Set_size (Wilson.visited s) <= 1 -> out = (s1, Ok (path', next)))) /\
  (forall (fuel : nat) (current : Ref) (s : Wilson.State),
     Wilson.visited s = [startCell] ->
     let out := Wilson.walk rng world fuel stepTime startCell [] current s in
     Wilson.frames out.1 = Wilson.frames s /\ Wilson.host out.1 = Wilson.host s).
Proof.
  split.
  - intros path current s c next Hc Hnext.
    destruct (walk_step_unfold rng world stepTime startCell path current s c next Hc Hnext)
      as [Hgrown Hseed].
    split; [|exact Hseed].
    intros Hsize. destruct (Hgrown Hsize) as (Hframes & Hhost & Hout).
    split; [exact Hframes|]. split; [exact Hhost|]. split; [|exact Hout].
    rewrite Hhost, while_pending_delays. reflexivity.
  - intros fuel current s Hseed.
    destruct (walk_silent rng world stepTime startCell fuel [] current s) as (Hf & Hh & _).
    + rewrite Hseed. unfold Set_size. simpl. lia.
    + split; assumption.
Qed.

Lemma walk_step_renders_when_tree_grown_witness :
  let s := Wilson.mkState (Maze.new 3 1) [(0, 0)] [(2, 0); (1, 0)] 1 3%nat []
             (mkHost false [] [] [] []) in
  let out := Wilson.walk_step (rng_of []) never 100 (2, 0) [] (0, 0) s in
  deref (Maze.cells (Wilson.maze s)) (0, 0) = Some (Cell.mk 0 0 [] [(1, 0)]) /\
  randomMember (rng_of [] (Wilson.randoms s)) (GArray (Cell.uncarvedEdges (Cell.mk 0 0 [] [(1, 0)])))
    = Normal (Some (1, 0)) /\
  Set_size (Wilson.visited s) > 1 /\
  Wilson.frames out.1 = [RenderMaze (Maze.new 3 1) (Some (1, 0)) [(0, 0); (1, 0)]] /\
  out.2 = Ok ([(0, 0); (1, 0)], (1, 0)).
Proof.
  split; [reflexivity|]. split; [reflexivity|]. split; [reflexivity|].
  destruct (walk_step_renders_when_tree_grown (rng_of []) never 100 (2, 0)) as [Hstep _].
  destruct (Hstep [] (0, 0)
    (Wilson.mkState (Maze.new 3 1) [(0, 0)] [(2, 0); (1, 0)] 1 3%nat [] (mkHost false [] [] [] []))
    (Cell.mk 0 0 [] [(1, 0)]) (1, 0) eq_refl eq_refl) as [Hgrown _].
  destruct (Hgrown eq_refl) as (Hframes & _ & _ & Hout).
  split; [exact Hframes|exact Hout].
Defined.

(** The claim of C5 as written fails on the first walk: this run on the
    3 x 1 maze takes two walk steps, both on its first walk, and the only
    call of the renderer is the final one, with no current cell; the only
    delay is the terminal one. *)
Lemma first_walk_is_not_rendered :
  let run := Wilson.wilsonsAlgorithm (rng_of [9 # 10; 0 # 1; 0 # 1; 9 # 10]) never 20
               (Maze.new 3 1) false 100 in
  run.2 = Ok 2 /\
  Wilson.frames run.1 = [RenderMaze (Wilson.maze run.1) None []] /\
  length (promises (Wilson.host run.1)) = 1%nat.
Proof. vm_compute. repeat split. Qed.

(** ** The carved graph *)

Lemma Set_has_elem_of (s : list Ref) (r : Ref) : Set_has ref_eqb s r = true <-> r ∈ s.
Proof.
  unfold Set_has. rewrite existsb_exists. split.
  - intros (x & Hx & Heq). apply ref_eqb_eq in Heq. subst x. apply list_elem_of_In. exact Hx.
  - intros Hr. exists r. split; [apply list_elem_of_In; exact Hr|apply ref_eqb_refl].
Qed.

Lemma Set_add_elem_of (s : list Ref) (v r : Ref) :
  r ∈ Set_add ref_eqb s v <-> r ∈ s \/ r = v.
Proof.
  unfold Set_add. destruct (Set_has ref_eqb s v) eqn:Hhas.
  - apply Set_has_elem_of in Hhas. split; [auto|]. intros [?| ->]; assumption.
  - rewrite elem_of_app, list_elem_of_singleton. reflexivity.
Qed.

Lemma Set_add_all_elem_of (l s : list Ref) (r : Ref) :
  r ∈ fold_left (Set_add ref_eqb) l s <-> r ∈ s \/ r ∈ l.
Proof.
  revert s. induction l as [|v l IH]; intros s; simpl.
  - rewrite elem_of_nil. tauto.
  - rewrite IH, Set_add_elem_of, elem_of_cons. tauto.
Qed.

Lemma traverse_sound (cells : Cells) (a : Ref) (fuel : nat) (seen : list Ref) (r : Ref) :
  (forall x, x ∈ seen -> rtc (carved cells) a x) ->
  r ∈ traverse fuel cells seen -> rtc (carved cells) a r.
Proof.
  revert seen. induction fuel as [|fuel IH]; intros seen Hseen; simpl; [apply Hseen|].
  apply IH. intros x Hx. apply Set_add_all_elem_of in Hx as [Hx|Hx]; [apply Hseen; exact Hx|].
  apply list_elem_of_bind in Hx as (y & Hx & Hy).
  eapply rtc_r; [apply Hseen; exact Hy|].
  unfold edges_of in Hx. destruct (deref cells y) as [c|] eqn:Hc; [|apply elem_of_nil in Hx; done].
  exists c. done.
Qed.

Lemma connectedb_sound (cells : Cells) : connectedb cells = true -> connected cells.
Proof.
  unfold connectedb. rewrite forallb_forall. intros Hall a b Ha Hb.
  apply list_elem_of_In in Ha, Hb.
  specialize (Hall a Ha). rewrite forallb_forall in Hall. specialize (Hall b Hb).
  apply Set_has_elem_of in Hall.
  eapply traverse_sound; [|exact Hall].
  intros x Hx. apply list_elem_of_singleton in Hx. subst x. apply rtc_refl.
Qed.

(** ** What the carvers leave *)

(** C1 at a failing run: on the 3 x 1 maze, seeded at (2,0), the walk
    (0,0) -> (1,0) -> (2,0) completes the run after two steps; the graph is
    connected, but cell (1,0) is carved to itself and lists four edge ends
    against two neighbors, and three edges are carved where a spanning tree
    has two. *)
Theorem wilson_two_step_walk_carves_self_loop :
  let run := Wilson.wilsonsAlgorithm (rng_of [9 # 10; 0 # 1; 0 # 1; 9 # 10]) never 20
               (Maze.new 3 1) false 100 in
  let cells := Maze.cells (Wilson.maze run.1) in
  run.2 = Ok 2 /\
  deref cells (1, 0) = Some (Cell.mk 1 0 [(0, 0); (1, 0); (1, 0); (2, 0)] [(0, 0); (2, 0)]) /\
  carved cells (1, 0) (1, 0) /\
  ~ edges_within_neighbors cells /\
  carved_edges cells = 3 /\
  connected cells.
Proof.
  intros run cells.
  assert (cells =
          [[Cell.mk 0 0 [(1, 0)] [(1, 0)];
            Cell.mk 1 0 [(0, 0); (1, 0); (1, 0); (2, 0)] [(0, 0); (2, 0)];
            Cell.mk 2 0 [(1, 0)] [(1, 0)]]]) as Hcells by (vm_compute; reflexivity).
  assert (run.2 = Ok 2) as Hout by (vm_compute; reflexivity).
  clearbody cells. clearbody run. subst cells.
  split; [exact Hout|]. split; [reflexivity|].
  split; [eexists; split; [reflexivity|]; simpl; rewrite !elem_of_cons; auto|].
  split; [|split].
  - intros Hinv.
    specialize (Hinv (1, 0) _ eq_refl (1, 0)).
    assert ((1, 0) ∈ [(0, 0); (2, 0)]) as Hin.
    { apply Hinv. simpl. rewrite !elem_of_cons. auto. }
    rewrite !elem_of_cons, elem_of_nil in Hin.
    destruct Hin as [Hin|[Hin|[]]]; discriminate.
  - reflexivity.
  - apply connectedb_sound. vm_compute. reflexivity.
Qed.

(** ** Loop erasure *)

Lemma indexOf_found (path : list Ref) (next : Ref) :
  next ∈ path ->
  exists i, indexOf ref_eqb path next = Z.of_nat i /\
            path !! i = Some next /\ next ∉ take i path.
Proof.
  induction path as [|a path IH]; intros Hin; [apply elem_of_nil in Hin; done|].
  simpl. destruct (ref_eqb a next) eqn:Heq.
  - apply ref_eqb_eq in Heq. subst a. exists 0%nat. simpl.
    split; [reflexivity|]. split; [reflexivity|]. apply not_elem_of_nil.
  - apply ref_eqb_neq in Heq. apply elem_of_cons in Hin as [->|Hin]; [done|].
    destruct (IH Hin) as (i & -> & Hi & Hout). exists (S i).
    destruct (Z.eqb_spec (Z.of_nat i) (-1)); [lia|]. simpl.
    split; [lia|]. split; [exact Hi|].
    rewrite elem_of_cons. intros [->|?]; done.
Qed.

Lemma indexOf_missing (path : list Ref) (next : Ref) :
  next ∉ path -> indexOf ref_eqb path next = -1.
Proof.
  induction path as [|a path IH]; intros Hout; simpl; [reflexivity|].
  rewrite not_elem_of_cons in Hout. destruct Hout as [Hne Hout].
  destruct (ref_eqb a next) eqn:Heq; [apply ref_eqb_eq in Heq; congruence|].
  rewrite (IH Hout). reflexivity.
Qed.

(** When the chosen cell is in the path, loop erasure cuts the path right
    after its first occurrence. *)
Lemma erase_loop_found (path : list Ref) (next : Ref) :
  next ∈ path ->
  exists i, path !! i = Some next /\ (next ∉ take i path) /\
            Wilson.erase_loop path next = take i path ++ [next].
Proof.
  intros Hin. destruct (indexOf_found path next Hin) as (i & Hidx & Hi & Hout).
  exists i. split; [exact Hi|]. split; [exact Hout|].
  unfold Wilson.erase_loop. rewrite Hidx.
  destruct (Z.eqb_spec (Z.of_nat i) (-1)); [lia|]. simpl. unfold slice0.
  replace (Z.to_nat (Z.of_nat i + 1)) with (S i) by lia.
  apply take_S_r. exact Hi.
Qed.

(** The path after a walk step always ends at the chosen cell. *)
Lemma erase_loop_last (path : list Ref) (next : Ref) :
  last (Wilson.erase_loop path next) = Some next.
Proof.
  destruct (decide (next ∈ path)) as [Hin|Hout].
  - destruct (erase_loop_found path next Hin) as (i & _ & _ & ->). apply last_snoc.
  - unfold Wilson.erase_loop. rewrite (indexOf_missing path next Hout). simpl.
    apply last_snoc.
Qed.

(** C2 at a failing step: a run on the 6 x 1 maze whose second walk goes
    (0,0) -> (1,0) -> (2,0) -> (3,0) and then back to (2,0).  The frames show
    the path after each step.  At the fourth step the chosen cell (2,0) is in
    the path already; the path after loop erasure ends at (2,0) but holds
    (1,0) twice. *)
Theorem loop_erasure_leaves_duplicates :
  let run := Wilson.wilsonsAlgorithm
               (rng_of [9 # 10; 9 # 10; 9 # 10; 0 # 1; 0 # 1; 9 # 10; 9 # 10; 0 # 1])
               (during 3) 20 (Maze.new 6 1) false 100 in
  let before := [(0, 0); (1, 0); (1, 0); (2, 0); (2, 0); (3, 0)] in
  let after := [(0, 0); (1, 0); (1, 0); (2, 0)] in
  shown <$> Wilson.frames run.1 =
    [Some (Some (1, 0), [(0, 0); (1, 0)]);
     Some (Some (2, 0), [(0, 0); (1, 0); (1, 0); (2, 0)]);
     Some (Some (3, 0), before);
     Some (Some (2, 0), after)] /\
  (2, 0) ∈ before /\
  Wilson.erase_loop (before ++ [(3, 0)]) (2, 0) = after /\
  last after = Some (2, 0) /\
  ~ NoDup after.
Proof.
  split; [vm_compute; reflexivity|].
  split; [rewrite !elem_of_cons; auto 10|].
  split; [reflexivity|]. split; [reflexivity|].
  intros Hnd. apply NoDup_cons in Hnd as [_ Hnd]. apply NoDup_cons in Hnd as [Hin _].
  apply Hin. rewrite !elem_of_cons. auto.
Qed.

(** A run of the carver on the 2 x 2 maze, started at (0,0): the root call
    [visit(rndCell, rndCell.x, rndCell.y)] carves (0,0) to itself. *)
Example dfs_2x2_run :
  exists m c,
    DFS.solveMazeWithRandomDPS sort_keeps 10 (0 # 1) (Maze.new 2 2) = Some (Normal m) /\
    deref (Maze.cells m) (0, 0) = Some c /\
    Cell.edges c = [(0, 0); (0, 0); (1, 0)] /\
    Cell.neighbors c = [(1, 0); (0, 1)].
Proof.
  eexists. eexists. split; [vm_compute; reflexivity|].
  split; [reflexivity|]. split; reflexivity.
Qed.

(** A run on the 3 x 3 maze, started at (0,0): the [edges] arrays hold 18
    entries, 16 for the eight edges between distinct cells and 2 for the
    start cell carved to itself. *)
Example dfs_3x3_run :
  exists m,
    DFS.solveMazeWithRandomDPS sort_keeps 10 (0 # 1) (Maze.new 3 3) = Some (Normal m) /\
    map (map Cell.edges) (Maze.cells m) =
      [[[(0, 0); (0, 0); (1, 0)]; [(0, 0); (2, 0)]; [(1, 0); (2, 1)]];
       [[(1, 1); (0, 2)]; [(2, 1); (0, 1)]; [(2, 0); (1, 1)]];
       [[(0, 1); (1, 2)]; [(0, 2); (2, 2)]; [(1, 2)]]] /\
    edge_entries (Maze.cells m) = 18.
Proof.
  eexists. split; [vm_compute; reflexivity|]. split; reflexivity.
Qed.

(** C8 at a failing state: after [solveMazeWithRandomDPS] on the 2 x 1 maze
    the start cell (0,0) has one neighbor and three entries in [edges] (itself
    twice); [uncarvedEdges] is empty, which is the neighbors not in edges, but
    its length 0 is not 1 - 3. *)
Theorem uncarvedEdges_length_off_after_self_carve :
  exists m c,
    DFS.solveMazeWithRandomDPS sort_keeps 10 (0 # 1) (Maze.new 2 1) = Some (Normal m) /\
    deref (Maze.cells m) (0, 0) = Some c /\
    Cell.neighbors c = [(1, 0)] /\
    Cell.edges c = [(0, 0); (0, 0); (1, 0)] /\
    Cell.uncarvedEdges c = [] /\
    Z.of_nat (length (Cell.uncarvedEdges c))
      <> Z.of_nat (length (Cell.neighbors c)) - Z.of_nat (length (Cell.edges c)).
Proof.
  eexists. eexists. split; [vm_compute; reflexivity|].
  split; [reflexivity|]. split; [reflexivity|]. split; [reflexivity|].
  split; [reflexivity|]. simpl. lia.
Qed.

(** ** The grid and its neighbors *)

Lemma adjacent_spec (w h : Z) (r n : Ref) :
  in_bounds w h r ->
  n ∈ adjacent w h r <-> in_bounds w h n /\ n ∈ around r.1 r.2.
Proof.
  intros [Hx Hy]. unfold adjacent. apply wire_new_neighbors; assumption.
Qed.

Lemma adjacent_irrefl (w h : Z) (r : Ref) : in_bounds w h r -> r ∉ adjacent w h r.
Proof.
  intros Hr Hin. apply adjacent_spec in Hin as [_ Hin]; [|exact Hr].
  unfold around in Hin. destruct r as [x y]. simpl in Hin.
  rewrite !elem_of_cons, elem_of_nil, !pair_equal_spec in Hin. lia.
Qed.

Lemma elem_of_positions (w h : Z) (r : Ref) : r ∈ positions w h <-> in_bounds w h r.
Proof.
  unfold positions, in_bounds. rewrite list_elem_of_bind. split.
  - intros (y & Hr & Hy). apply list_elem_of_fmap in Hr as (x & -> & Hx).
    apply elem_of_seqZ in Hx, Hy. simpl. lia.
  - intros [Hx Hy]. exists r.2. split.
    + apply list_elem_of_fmap. exists r.1. split; [destruct r; reflexivity|].
      apply elem_of_seqZ. lia.
    + apply elem_of_seqZ. lia.
Qed.

Lemma NoDup_positions (w h : Z) : NoDup (positions w h).
Proof.
  unfold positions. apply NoDup_bind.
  - intros y1 y2 r _ _ H1 H2.
    apply list_elem_of_fmap in H1 as (x1 & -> & _).
    apply list_elem_of_fmap in H2 as (x2 & Heq & _). congruence.
  - intros y _. apply NoDup_fmap_2; [|apply NoDup_seqZ].
    intros x1 x2 Heq. congruence.
  - apply NoDup_seqZ.
Qed.

Lemma length_positions (w h : Z) :
  0 <= w -> 0 <= h -> Z.of_nat (length (positions w h)) = w * h.
Proof.
  intros Hw Hh. unfold positions.
  assert (forall ys : list Z,
            length (ys ≫= fun y => (fun x => (x, y)) <$> seqZ 0 w)
            = (Z.to_nat w * length ys)%nat) as Hlen.
  { induction ys as [|y ys IH]; [simpl; lia|].
    rewrite bind_cons, length_app, length_fmap, length_seqZ, IH. simpl. lia. }
  rewrite Hlen, length_seqZ. lia.
Qed.

(** A set of positions that is closed under adjacency and not empty is the
    whole grid. *)
Lemma line_closed (n a : Z) (P : Z -> Prop) :
  0 <= a < n -> P a ->
  (forall i, 0 <= i < n -> P i -> (i + 1 < n -> P (i + 1)) /\ (0 <= i - 1 -> P (i - 1))) ->
  forall i, 0 <= i < n -> P i.
Proof.
  intros Ha HPa Hstep.
  assert (forall k : nat, (a + Z.of_nat k < n -> P (a + Z.of_nat k)) /\
                          (0 <= a - Z.of_nat k -> P (a - Z.of_nat k))) as Hk.
  { induction k as [|k [IHup IHdown]].
    - simpl. rewrite Z.add_0_r, Z.sub_0_r. auto.
    - rewrite Nat2Z.inj_succ. split; intros Hb.
      + replace (a + Z.succ (Z.of_nat k)) with (a + Z.of_nat k + 1) by lia.
        apply Hstep; [lia|apply IHup; lia|lia].
      + replace (a - Z.succ (Z.of_nat k)) with (a - Z.of_nat k - 1) by lia.
        apply Hstep; [lia|apply IHdown; lia|lia]. }
  intros i Hi. destruct (Z.le_gt_cases a i).
  - replace i with (a + Z.of_nat (Z.to_nat (i - a))) by lia. apply Hk. lia.
  - replace i with (a - Z.of_nat (Z.to_nat (a - i))) by lia. apply Hk. lia.
Qed.

Lemma grid_closed (w h : Z) (P : Ref -> Prop) (root : Ref) :
  in_bounds w h root -> P root ->
  (forall r, in_bounds w h r -> P r -> forall n, n ∈ adjacent w h r -> P n) ->
  forall r, in_bounds w h r -> P r.
Proof.
  intros [Hrx Hry] Hroot Hclosed.
  assert (forall r n, in_bounds w h r -> P r -> in_bounds w h n -> n ∈ around r.1 r.2 -> P n)
    as Hnext.
  { intros r n Hr HP Hn Hin. apply (Hclosed r Hr HP). apply adjacent_spec; [exact Hr|]. done. }
  assert (forall x, 0 <= x < w -> P (x, root.2)) as Hrow.
  { apply (line_closed w root.1 (fun x => P (x, root.2))); [exact Hrx|destruct root; exact Hroot|].
    intros x Hx HP. split; intros Hb.
    - apply (Hnext (x, root.2)); [split; simpl; lia|exact HP|split; simpl; lia|].
      unfold around. simpl. rewrite !elem_of_cons. auto.
    - apply (Hnext (x, root.2)); [split; simpl; lia|exact HP|split; simpl; lia|].
      unfold around. simpl. rewrite !elem_of_cons. auto. }
  intros [x y] [Hx Hy]. simpl in *.
  apply (line_closed h root.2 (fun y => P (x, y))); [exact Hry|apply Hrow; exact Hx| |exact Hy].
  intros y' Hy' HP. split; intros Hb.
  - apply (Hnext (x, y')); [split; simpl; lia|exact HP|split; simpl; lia|].
    unfold around. simpl. rewrite !elem_of_cons. auto 6.
  - apply (Hnext (x, y')); [split; simpl; lia|exact HP|split; simpl; lia|].
    unfold around. simpl. rewrite !elem_of_cons. auto 6.
Qed.

(** ** Carving *)

Lemma carveEdge_deref (a b r : Ref) (cells : Cells) :
  deref (carveEdge a b cells) r =
  (fun c => Cell.mk (Cell.x c) (Cell.y c)
              (Cell.edges c ++ (if decide (a = r) then [b] else [])
                            ++ (if decide (b = r) then [a] else []))
              (Cell.neighbors c)) <$> deref cells r.
Proof.
  unfold carveEdge.
  destruct (decide (b = r)) as [->|Hb]; destruct (decide (a = r)) as [->|Ha];
    rewrite ?deref_modify_eq, ?deref_modify_ne by assumption;
    rewrite ?deref_modify_eq, ?deref_modify_ne by assumption;
    destruct (deref cells r) as [[x y edges neighbors]|]; simpl; try reflexivity;
    unfold Cell.push_edge; simpl; rewrite <- ?app_assoc, ?app_nil_r; reflexivity.
Qed.

Lemma carveEdge_shape (w h : Z) (a b : Ref) (cells : Cells) :
  grid_shape w h cells -> grid_shape w h (carveEdge a b cells).
Proof. intros Hs. unfold carveEdge. apply modify_shape, modify_shape, Hs. Qed.

Lemma carveEdge_grid_maze (w h : Z) (a b : Ref) (m : Maze.t) :
  grid_maze w h m -> grid_maze w h (Maze.with_cells m (carveEdge a b (Maze.cells m))).
Proof.
  intros (Hw & Hh & Hshape & Hcells). unfold grid_maze. simpl.
  split; [exact Hw|]. split; [exact Hh|]. split; [apply carveEdge_shape; exact Hshape|].
  intros r c Hc. rewrite carveEdge_deref in Hc.
  destruct (deref (Maze.cells m) r) as [c0|] eqn:Hc0; [|discriminate].
  injection Hc as <-. simpl. apply Hcells. exact Hc0.
Qed.

Lemma carved_carveEdge (a b p q : Ref) (cells : Cells) :
  carved (carveEdge a b cells) p q <->
  is_Some (deref cells p) /\ (carved cells p q \/ (p = a /\ q = b) \/ (p = b /\ q = a)).
Proof.
  unfold carved. split.
  - intros (c & Hc & Hq). rewrite carveEdge_deref in Hc.
    destruct (deref cells p) as [c0|] eqn:Hc0; [|discriminate].
    injection Hc as <-. simpl in Hq. split; [eauto|].
    rewrite !elem_of_app in Hq. destruct Hq as [Hq|[Hq|Hq]].
    + left. eauto.
    + destruct (decide (a = p)) as [->|_]; [|apply elem_of_nil in Hq; done].
      apply list_elem_of_singleton in Hq. auto.
    + destruct (decide (b = p)) as [->|_]; [|apply elem_of_nil in Hq; done].
      apply list_elem_of_singleton in Hq. auto.
  - intros [[c0 Hc0] Hq]. rewrite carveEdge_deref, Hc0. simpl. eexists. split; [reflexivity|].
    simpl. rewrite !elem_of_app. destruct Hq as [(c & Hc & Hq)|[[-> ->]|[-> ->]]].
    + left. congruence.
    + right. left. destruct (decide (a = a)); [|done]. apply list_elem_of_singleton. reflexivity.
    + right. right. destruct (decide (b = b)); [|done]. apply list_elem_of_singleton. reflexivity.
Qed.

Lemma carved_is_Some (cells : Cells) (p q : Ref) : carved cells p q -> is_Some (deref cells p).
Proof. intros (c & Hc & _). eauto. Qed.

Lemma getCell_in_bounds (w h : Z) (m : Maze.t) (x y : Z) :
  grid_maze w h m -> in_bounds w h (x, y) -> Maze.getCell m x y = Some (x, y).
Proof.
  intros (Hw & Hh & Hshape & _) Hin. unfold Maze.getCell. rewrite Hw, Hh.
  destruct Hin as [Hx Hy]. simpl in Hx, Hy.
  destruct (Z.ltb_spec x 0); [lia|]. destruct (Z.geb_spec x w); [lia|].
  destruct (Z.ltb_spec y 0); [lia|]. destruct (Z.geb_spec y h); [lia|]. simpl.
  destruct (proj2 (deref_in_bounds w h (Maze.cells m) (x, y) Hshape)) as [c ->]; [|reflexivity].
  split; assumption.
Qed.

Lemma found_elem_of (l : list Ref) (n : Ref) :
  match List.find (fun cell => ref_eqb cell n) l with Some _ => true | None => false end = true
  <-> n ∈ l.
Proof.
  induction l as [|a l IH]; simpl.
  - rewrite elem_of_nil. split; [discriminate|done].
  - rewrite elem_of_cons. destruct (ref_eqb a n) eqn:Heq.
    + apply ref_eqb_eq in Heq. subst a. split; auto.
    + apply ref_eqb_neq in Heq. rewrite IH. split; [auto|]. intros [->|?]; [done|assumption].
Qed.

Lemma elem_of_uncarvedEdges (c : Cell.t) (n : Ref) :
  n ∈ Cell.uncarvedEdges c <-> n ∈ Cell.neighbors c /\ n ∉ Cell.edges c.
Proof.
  unfold Cell.uncarvedEdges. rewrite list_elem_of_In, filter_In, <- list_elem_of_In.
  rewrite negb_true_iff, <- not_true_iff_false, found_elem_of. reflexivity.
Qed.

(** [uncarvedEdges] is the neighbors that are not in [edges], in the order
    of [neighbors]. *)
Lemma uncarvedEdges_filter (c : Cell.t) :
  Cell.uncarvedEdges c = filter (fun n => n ∉ Cell.edges c) (Cell.neighbors c).
Proof.
  unfold Cell.uncarvedEdges. induction (Cell.neighbors c) as [|n ns IH]; simpl; [reflexivity|].
  rewrite filter_cons, <- IH.
  destruct (match List.find _ _ with Some _ => true | None => false end) eqn:Hf; simpl.
  - apply found_elem_of in Hf. destruct (decide (n ∉ Cell.edges c)); [done|reflexivity].
  - apply not_true_iff_false in Hf. rewrite found_elem_of in Hf.
    destruct (decide (n ∉ Cell.edges c)); [reflexivity|done].
Qed.

(** When the edges are distinct neighbors, as the data model wants them,
    the length of [uncarvedEdges] makes up the difference. *)
Lemma uncarvedEdges_length (c : Cell.t) :
  NoDup (Cell.edges c) -> NoDup (Cell.neighbors c) ->
  (forall e, e ∈ Cell.edges c -> e ∈ Cell.neighbors c) ->
  Z.of_nat (length (Cell.uncarvedEdges c))
  = Z.of_nat (length (Cell.neighbors c)) - Z.of_nat (length (Cell.edges c)).
Proof.
  intros He Hn Hsub. rewrite uncarvedEdges_filter.
  assert (filter (fun n => n ∈ Cell.edges c) (Cell.neighbors c) ≡ₚ Cell.edges c) as Hperm.
  { apply NoDup_Permutation; [apply NoDup_filter; exact Hn|exact He|].
    intros e. rewrite list_elem_of_filter. split; [tauto|]. intros Hin. split; auto. }
  pose proof (filter_app_complement (fun n => n ∈ Cell.edges c) (Cell.neighbors c)) as Hsplit.
  apply Permutation_length in Hsplit. rewrite length_app in Hsplit.
  apply Permutation_length in Hperm. rewrite <- Hsplit, <- Hperm.
  rewrite Nat2Z.inj_add, Z.add_simpl_l. reflexivity.
Qed.

Lemma sum_list_with_join {A} (g : A -> nat) (ls : list (list A)) :
  sum_list_with g (mjoin ls) = sum_list_with (sum_list_with g) ls.
Proof.
  induction ls as [|l ls IH]; simpl; [reflexivity|].
  rewrite sum_list_with_app, IH. reflexivity.
Qed.

Lemma sum_list_with_alter {A} (g : A -> nat) (f : A -> A) (l : list A) (i : nat) (x : A) :
  l !! i = Some x ->
  (sum_list_with g (alter f i l) + g x = sum_list_with g l + g (f x))%nat.
Proof.
  revert i. induction l as [|a l IH]; intros [|i] Hx; simpl in *; try discriminate.
  - injection Hx as ->. lia.
  - specialize (IH i Hx). unfold alter in IH. lia.
Qed.

Lemma edge_entries_push (r e : Ref) (cells : Cells) :
  is_Some (deref cells r) ->
  edge_entries (modify r (Cell.push_edge e) cells) = edge_entries cells + 1.
Proof.
  intros [c Hc]. apply deref_Some in Hc as (Hx & Hy & row & Hrow & Hc).
  unfold edge_entries, modify.
  destruct (Z.ltb_spec r.1 0); [lia|]. destruct (Z.ltb_spec r.2 0); [lia|]. simpl.
  rewrite !sum_list_with_join.
  pose proof (sum_list_with_alter (sum_list_with (fun c => length (Cell.edges c)))
                (alter (Cell.push_edge e) (Z.to_nat r.1)) cells _ row Hrow) as Hrows.
  pose proof (sum_list_with_alter (fun c => length (Cell.edges c))
                (Cell.push_edge e) row _ c Hc) as Hcell.
  simpl in Hcell. rewrite length_app in Hcell. simpl in Hcell. lia.
Qed.

Lemma edge_entries_carveEdge (a b : Ref) (cells : Cells) :
  is_Some (deref cells a) -> is_Some (deref cells b) ->
  edge_entries (carveEdge a b cells) = edge_entries cells + 2.
Proof.
  intros Ha [cb Hb]. unfold carveEdge.
  rewrite edge_entries_push, edge_entries_push; [lia|exact Ha|].
  rewrite deref_modify, Hb. destruct (decide (a = b)); simpl; eauto.
Qed.

Lemma edge_entries_none (cells : Cells) :
  (forall r c, deref cells r = Some c -> Cell.edges c = []) -> edge_entries cells = 0.
Proof.
  intros Hnone. unfold edge_entries.
  assert (forall c, c ∈ mjoin cells -> Cell.edges c = []) as Hall.
  { intros c Hc. apply list_elem_of_join in Hc as (row & Hc & Hrow).
    apply list_elem_of_lookup in Hrow as [j Hrow]. apply list_elem_of_lookup in Hc as [i Hc].
    apply (Hnone (Z.of_nat i, Z.of_nat j)). apply deref_Some. simpl. rewrite !Nat2Z.id.
    split; [lia|]. split; [lia|]. eauto. }
  induction (mjoin cells) as [|c cs IH]; simpl; [reflexivity|].
  rewrite (Hall c) by (apply elem_of_cons; auto). simpl.
  apply IH. intros c' Hc'. apply Hall. apply elem_of_cons. auto.
Qed.

(** ** The depth-first carver visits the whole grid *)

Lemma Set_add_new (v : list Ref) (r : Ref) :
  Set_has ref_eqb v r = false -> Set_add ref_eqb v r = v ++ [r] /\ r ∉ v.
Proof.
  intros Hhas. unfold Set_add. rewrite Hhas. split; [reflexivity|].
  intros Hin. apply Set_has_elem_of in Hin. congruence.
Qed.

Lemma visited_bound (w h : Z) (v : list Ref) :
  0 <= w -> 0 <= h -> NoDup v -> (forall r, r ∈ v -> in_bounds w h r) ->
  (length v <= Z.to_nat (w * h))%nat.
Proof.
  intros Hw Hh Hnd Hin.
  assert (v ⊆+ positions w h) as Hsub.
  { apply NoDup_submseteq; [exact Hnd|]. intros r Hr. apply elem_of_positions, Hin, Hr. }
  apply submseteq_length in Hsub. pose proof (length_positions w h Hw Hh). lia.
Qed.

Lemma visit_unfold (sort_random : nat -> list Ref -> list Ref)
  (fuel : nat) (last : Ref) (x y : Z) (s : DFS.State) :
  DFS.visit sort_random (S fuel) last x y s =
  if Set_has ref_eqb (DFS.visited s) (x, y) then Some s
  else
    let seen := Set_add ref_eqb (DFS.visited s) (x, y) in
    match Maze.getCell (DFS.maze s) x y with
    | None => Some (DFS.mkState (DFS.maze s) seen (DFS.shuffles s))
    | Some current =>
        let m := Maze.with_cells (DFS.maze s)
                   (carveEdge current last (Maze.cells (DFS.maze s))) in
        match deref (Maze.cells m) current with
        | None => Some (DFS.mkState m seen (DFS.shuffles s))
        | Some c =>
            DFS.visit_each (DFS.visit sort_random fuel) current
              (sort_random (DFS.shuffles s) (Cell.uncarvedEdges c))
              (DFS.mkState m seen (S (DFS.shuffles s)))
        end
    end.
Proof. reflexivity. Qed.

Section CarverInvariant.
Variables w h : Z.
Hypothesis w_pos : 0 < w.
Hypothesis h_pos : 0 < h.
Variable root : Ref.
Variable sort_random : nat -> list Ref -> list Ref.
Hypothesis sort_permutes : forall k arr, Permutation arr (sort_random k arr).

Local Abbreviation inv := (carver_inv w h root).
Local Abbreviation step := (carver_step w h root).

Lemma carver_step_refl (s : DFS.State) : inv s -> step s s.
Proof.
  intros Hs. split; [exact Hs|]. split; [auto|]. split; [lia|]. split; [auto|].
  intros r Hin Hout. done.
Qed.

Lemma carver_step_trans (s1 s2 s3 : DFS.State) : step s1 s2 -> step s2 s3 -> step s1 s3.
Proof.
  intros (_ & Hv12 & Hl12 & Hc12 & Hn12) (Hinv & Hv23 & Hl23 & Hc23 & Hn23).
  split; [exact Hinv|]. split; [auto|]. split; [lia|]. split; [auto|].
  intros r Hin Hout n Hn.
  destruct (decide (r ∈ DFS.visited s2)) as [Hr2|Hr2].
  - apply Hv23. eapply Hn12; eassumption.
  - eapply Hn23; eassumption.
Qed.

(** Marking the cell at [(x, y)] and carving it to [last] keeps the invariant. *)
Lemma carver_inv_carve (s : DFS.State) (last : Ref) (x y : Z) (k : nat) :
  inv s -> in_bounds w h (x, y) -> in_bounds w h last ->
  last ∈ DFS.visited s \/ last = (x, y) ->
  rtc (carved (Maze.cells (DFS.maze s))) root last ->
  (x, y) ∉ DFS.visited s ->
  let s' := DFS.mkState
              (Maze.with_cells (DFS.maze s) (carveEdge (x, y) last (Maze.cells (DFS.maze s))))
              (DFS.visited s ++ [(x, y)]) k in
  inv s' /\
  (forall a b, carved (Maze.cells (DFS.maze s)) a b -> carved (Maze.cells (DFS.maze s')) a b) /\
  carved (Maze.cells (DFS.maze s')) last (x, y) /\
  exists c, deref (Maze.cells (DFS.maze s')) (x, y) = Some c /\
            Cell.neighbors c = adjacent w h (x, y) /\
            forall e, e ∈ Cell.edges c -> e = last.
Proof.
  intros (Hgrid & Hnd & Hvin & Hfresh & Hcount & Hlink & Hsym) Hxy Hlast Hlv Hroot Hnew s'.
  pose proof Hgrid as (_ & _ & Hshape & Hfields).
  assert (is_Some (deref (Maze.cells (DFS.maze s)) (x, y))) as [c0 Hc0]
    by (apply (deref_in_bounds w h); assumption).
  assert (is_Some (deref (Maze.cells (DFS.maze s)) last)) as Hsl
    by (apply (deref_in_bounds w h); assumption).
  assert (forall a b, carved (Maze.cells (DFS.maze s)) a b ->
                      carved (Maze.cells (DFS.maze s')) a b) as Hmono.
  { intros a b Hab. simpl. apply carved_carveEdge. split; [|auto].
    eapply carved_is_Some. exact Hab. }
  assert (carved (Maze.cells (DFS.maze s')) last (x, y)) as Hlc.
  { simpl. apply carved_carveEdge. split; [exact Hsl|]. auto. }
  assert (carved (Maze.cells (DFS.maze s')) (x, y) last) as Hcl.
  { simpl. apply carved_carveEdge. split; [eauto|]. auto. }
  split; [|split; [exact Hmono|split; [exact Hlc|]]].
  - split; [apply carveEdge_grid_maze; exact Hgrid|]. simpl.
    split; [apply NoDup_app; split; [exact Hnd|]; split;
            [intros r Hr Hr'; apply list_elem_of_singleton in Hr'; subst r; done
            |apply NoDup_singleton]|].
    split; [intros r Hr; apply elem_of_app in Hr as [Hr|Hr];
            [apply Hvin; exact Hr|apply list_elem_of_singleton in Hr; subst r; exact Hxy]|].
    split; [|split; [|split]].
    + intros r c Hc Hr. rewrite carveEdge_deref in Hc.
      destruct (deref (Maze.cells (DFS.maze s)) r) as [c1|] eqn:Hc1; [|discriminate].
      injection Hc as <-. simpl.
      rewrite elem_of_app, list_elem_of_singleton in Hr.
      destruct (decide ((x, y) = r)) as [<-|_]; [exfalso; apply Hr; auto|].
      destruct (decide (last = r)) as [<-|_].
      { exfalso. apply Hr. destruct Hlv as [?| ->]; auto. }
      rewrite !app_nil_r. apply (Hfresh r); [exact Hc1|]. intros Hin. apply Hr. auto.
    + rewrite edge_entries_carveEdge by eauto. rewrite Hcount, length_app. simpl. lia.
    + intros r Hr. apply elem_of_app in Hr as [Hr|Hr].
      * eapply rtc_subrel; [exact Hmono|]. apply Hlink. exact Hr.
      * apply list_elem_of_singleton in Hr. subst r.
        eapply rtc_r; [|exact Hlc]. eapply rtc_subrel; [exact Hmono|exact Hroot].
    + intros a b Hab. apply carved_carveEdge in Hab as [_ [Hab|[[-> ->]|[-> ->]]]].
      * apply Hmono, Hsym, Hab.
      * exact Hlc.
      * exact Hcl.
  - simpl. rewrite carveEdge_deref, Hc0. simpl. eexists. split; [reflexivity|]. simpl.
    split; [apply (Hfields _ _ Hc0)|].
    rewrite (Hfresh _ _ Hc0 Hnew). simpl.
    destruct (decide ((x, y) = (x, y))) as [_|]; [|done].
    intros e He. apply elem_of_app in He as [He|He];
      [apply list_elem_of_singleton in He; exact He|].
    destruct (decide (last = (x, y))) as [Heq|_]; [|apply elem_of_nil in He; done].
    apply list_elem_of_singleton in He. congruence.
Qed.

(** The loop over the shuffled neighbors, given that calls of [visit] with
    this fuel do what they should. *)
Lemma visit_each_spec (fuel : nat) (current : Ref) :
  (forall last x y s,
     inv s -> in_bounds w h (x, y) -> in_bounds w h last ->
     last ∈ DFS.visited s \/ last = (x, y) ->
     rtc (carved (Maze.cells (DFS.maze s))) root last ->
     (Z.to_nat (w * h) < fuel + length (DFS.visited s))%nat ->
     exists s', DFS.visit sort_random fuel last x y s = Some s' /\
                step s s' /\ (x, y) ∈ DFS.visited s' /\
                ((x, y) ∉ DFS.visited s -> carved (Maze.cells (DFS.maze s')) last (x, y))) ->
  in_bounds w h current ->
  forall (neighbors : list Ref) (s : DFS.State),
    inv s -> current ∈ DFS.visited s ->
    (forall n, n ∈ neighbors -> in_bounds w h n) ->
    (Z.to_nat (w * h) < fuel + length (DFS.visited s))%nat ->
    exists s', DFS.visit_each (DFS.visit sort_random fuel) current neighbors s = Some s' /\
               step s s' /\ forall n, n ∈ neighbors -> n ∈ DFS.visited s'.
Proof.
  intros Hvisit Hcur neighbors.
  induction neighbors as [|n ns IH]; intros s Hs Hseen Hns Hfuel; simpl.
  - exists s. split; [reflexivity|]. split; [apply carver_step_refl; exact Hs|].
    intros n Hn. apply elem_of_nil in Hn. done.
  - assert (in_bounds w h n) as Hn by (apply Hns, elem_of_cons; auto).
    pose proof Hs as ((_ & _ & Hshape & Hfields) & _ & _ & _ & _ & Hlink & _).
    destruct (proj2 (deref_in_bounds w h _ n Hshape) Hn) as [cn Hcn].
    rewrite Hcn. destruct (Hfields n cn Hcn) as (-> & -> & _).
    destruct (Hvisit current n.1 n.2 s Hs) as (s1 & -> & Hstep1 & Hn1 & _);
      [destruct n; exact Hn|exact Hcur|auto|apply Hlink; exact Hseen|exact Hfuel|].
    pose proof Hstep1 as (Hs1 & Hv1 & Hl1 & _).
    destruct (IH s1 Hs1) as (s2 & -> & Hstep2 & Hns2);
      [apply Hv1; exact Hseen|intros n' Hn'; apply Hns, elem_of_cons; auto|lia|].
    exists s2. split; [reflexivity|].
    split; [eapply carver_step_trans; eassumption|].
    intros n' Hn'. apply elem_of_cons in Hn' as [->|Hn']; [|apply Hns2; exact Hn'].
    destruct Hstep2 as (_ & Hv2 & _). apply Hv2. destruct n; exact Hn1.
Qed.

(** A call of [visit] on a cell of the grid returns, whatever the shuffles
    do, when the fuel exceeds the number of cells not yet visited. *)
Lemma visit_spec (fuel : nat) :
  forall last x y s,
    inv s -> in_bounds w h (x, y) -> in_bounds w h last ->
    last ∈ DFS.visited s \/ last = (x, y) ->
    rtc (carved (Maze.cells (DFS.maze s))) root last ->
    (Z.to_nat (w * h) < fuel + length (DFS.visited s))%nat ->
    exists s', DFS.visit sort_random fuel last x y s = Some s' /\
               step s s' /\ (x, y) ∈ DFS.visited s' /\
               ((x, y) ∉ DFS.visited s -> carved (Maze.cells (DFS.maze s')) last (x, y)).
Proof.
  induction fuel as [|fuel IH]; intros last x y s Hs Hxy Hlast Hlv Hroot Hfuel.
  - exfalso. destruct Hs as (_ & Hnd & Hvin & _).
    pose proof (visited_bound w h _ ltac:(lia) ltac:(lia) Hnd Hvin). lia.
  - rewrite visit_unfold.
    destruct (Set_has ref_eqb (DFS.visited s) (x, y)) eqn:Hhas.
    { apply Set_has_elem_of in Hhas.
      exists s. split; [reflexivity|]. split; [apply carver_step_refl; exact Hs|].
      split; [exact Hhas|]. intros Hout. done. }
    destruct (Set_add_new _ _ Hhas) as [Hadd Hnew]. cbv zeta. rewrite Hadd.
    rewrite (getCell_in_bounds w h) by (destruct Hs; assumption).
    destruct (carver_inv_carve s last x y (S (DFS.shuffles s)) Hs Hxy Hlast Hlv Hroot Hnew)
      as (Hs2 & Hmono & Hlc & c & Hc & Hnb & Hedges).
    simpl in Hc. simpl. rewrite Hc.
    set (s2 := DFS.mkState _ _ (S (DFS.shuffles s))) in *.
    destruct (visit_each_spec fuel (x, y) IH Hxy
                (sort_random (DFS.shuffles s) (Cell.uncarvedEdges c)) s2 Hs2)
      as (s' & Hrun & Hstep & Hall).
    + subst s2. simpl. apply elem_of_app. right. apply list_elem_of_singleton. reflexivity.
    + intros n Hn. rewrite <- (sort_permutes (DFS.shuffles s)) in Hn.
      apply elem_of_uncarvedEdges in Hn as [Hn _]. rewrite Hnb in Hn.
      apply (adjacent_spec w h (x, y) n Hxy) in Hn. tauto.
    + subst s2. simpl. rewrite length_app. simpl. lia.
    + exists s'. split; [exact Hrun|].
      destruct Hstep as (Hs' & Hv & Hl & Hcm & Hclosed).
      assert ((x, y) ∈ DFS.visited s') as Hxy'.
      { apply Hv. subst s2. simpl. apply elem_of_app. right.
        apply list_elem_of_singleton. reflexivity. }
      split; [|split; [exact Hxy'|intros _; apply Hcm, Hlc]].
      split; [exact Hs'|]. split; [|split; [|split]].
      * intros r Hr. apply Hv. subst s2. simpl. apply elem_of_app. auto.
      * subst s2. simpl in Hl. rewrite length_app in Hl. simpl in Hl. lia.
      * intros a b Hab. apply Hcm, Hmono, Hab.
      * intros r Hr' Hr n Hn.
        destruct (decide (r = (x, y))) as [->|Hne].
        -- destruct (decide (n ∈ Cell.edges c)) as [He|He].
           ++ apply Hedges in He. subst n. destruct Hlv as [Hl'| ->]; [|exact Hxy'].
              apply Hv. subst s2. simpl. apply elem_of_app. auto.
           ++ apply Hall. rewrite <- (sort_permutes (DFS.shuffles s)).
              apply elem_of_uncarvedEdges. rewrite Hnb. done.
        -- eapply Hclosed; [exact Hr'| |exact Hn].
           subst s2. simpl. rewrite elem_of_app, list_elem_of_singleton. tauto.
Qed.
End CarverInvariant.

Lemma rtc_symmetric {A} (R : relation A) (a b : A) :
  (forall x y, R x y -> R y x) -> rtc R a b -> rtc R b a.
Proof.
  intros Hsym Hab. induction Hab as [|a b c Hab _ IH]; [apply rtc_refl|].
  eapply rtc_r; [exact IH|]. apply Hsym, Hab.
Qed.

Lemma maze_new_grid_maze (w h : Z) : 0 < w -> 0 < h -> grid_maze w h (Maze.new w h).
Proof.
  intros Hw Hh.
  assert (grid_shape w h (Maze.cells (Maze.new w h))) as Hshape by (apply maze_new_shape; lia).
  split; [reflexivity|]. split; [reflexivity|]. split; [exact Hshape|].
  intros [x y] c Hc.
  assert (in_bounds w h (x, y)) as [Hx Hy] by (apply (deref_in_bounds w h _ _ Hshape); eauto).
  simpl in Hx, Hy. rewrite maze_new_deref in Hc by assumption. injection Hc as <-.
  unfold adjacent. rewrite wire_new. simpl. rewrite wire_new. done.
Qed.

Lemma maze_new_edges (w h : Z) (r : Ref) (c : Cell.t) :
  0 < w -> 0 < h -> deref (Maze.cells (Maze.new w h)) r = Some c -> Cell.edges c = [].
Proof.
  intros Hw Hh Hc.
  assert (in_bounds w h r) as [Hx Hy].
  { apply (deref_in_bounds w h (Maze.cells (Maze.new w h))); [apply maze_new_shape; lia|eauto]. }
  destruct r as [x y]. simpl in Hx, Hy. rewrite maze_new_deref in Hc by assumption.
  injection Hc as <-. rewrite wire_new. reflexivity.
Qed.

Lemma carver_inv_start (w h : Z) (root : Ref) :
  0 < w -> 0 < h -> carver_inv w h root (DFS.mkState (Maze.new w h) [] 0).
Proof.
  intros Hw Hh. split; [apply maze_new_grid_maze; assumption|]. simpl.
  split; [apply NoDup_nil; done|].
  split; [intros r Hr; apply elem_of_nil in Hr; done|].
  split; [intros r c Hc _; exact (maze_new_edges w h r c Hw Hh Hc)|].
  split; [apply edge_entries_none; intros r c Hc; exact (maze_new_edges w h r c Hw Hh Hc)|].
  split; [intros r Hr; apply elem_of_nil in Hr; done|].
  intros a b (c & Hc & Hb). rewrite (maze_new_edges w h a c Hw Hh Hc) in Hb.
  apply elem_of_nil in Hb. done.
Qed.

(** Every run of the carver on a maze fresh from the constructor returns,
    having visited every cell once and made one [carveEdge] call per cell:
    the cells are all connected, the start cell is carved to itself, and the
    [edges] arrays hold [2 * width * height] entries. *)
Lemma solveMazeWithRandomDPS_spec
  (w h : Z) (sort_random : nat -> list Ref -> list Ref) (random : Q) (fuel : nat) :
  0 < w -> 0 < h ->
  (forall k arr, Permutation arr (sort_random k arr)) ->
  unit_interval random ->
  (Z.to_nat (w * h) < fuel)%nat ->
  exists m root,
    DFS.solveMazeWithRandomDPS sort_random fuel random (Maze.new w h) = Some (Normal m) /\
    in_bounds w h root /\
    grid_maze w h m /\
    carved (Maze.cells m) root root /\
    edge_entries (Maze.cells m) = 2 * (w * h) /\
    connected (Maze.cells m).
Proof.
  intros Hw Hh Hperm Hrandom Hfuel.
  assert (grid_shape w h (Maze.cells (Maze.new w h))) as Hshape by (apply maze_new_shape; lia).
  assert (flat (Maze.cells (Maze.new w h)) <> []) as Hne.
  { intros Hnil. pose proof (flat_length w h _ Hshape) as Hlen. rewrite Hnil in Hlen.
    simpl in Hlen. nia. }
  destruct (randomMember_nonempty random _ Hrandom Hne) as (root & Hpick & _ & Hroot).
  apply elem_of_flat in Hroot. pose proof Hroot as [c0 Hc0].
  apply (deref_in_bounds w h _ _ Hshape) in Hroot.
  destruct (maze_new_grid_maze w h Hw Hh) as (_ & _ & _ & Hfields).
  destruct (Hfields root c0 Hc0) as (Hx0 & Hy0 & _).
  destruct (visit_spec w h Hw Hh root sort_random Hperm fuel root root.1 root.2
              (DFS.mkState (Maze.new w h) [] 0)) as (s' & Hrun & Hstep & Hseen & Hself).
  { apply carver_inv_start; assumption. }
  { destruct root; exact Hroot. }
  { exact Hroot. }
  { right. destruct root; reflexivity. }
  { apply rtc_refl. }
  { simpl. lia. }
  exists (DFS.maze s'), root.
  unfold DFS.solveMazeWithRandomDPS. rewrite Hpick, Hc0, Hx0, Hy0, Hrun.
  split; [reflexivity|]. split; [exact Hroot|].
  destruct Hstep as ((Hgrid & Hnd & Hvin & _ & Hcount & Hlink & Hsym) & _ & _ & _ & Hclosed).
  split; [exact Hgrid|].
  split; [destruct root; apply Hself; simpl; apply not_elem_of_nil|].
  assert (forall r, in_bounds w h r -> r ∈ DFS.visited s') as Hall.
  { apply (grid_closed w h (fun r => r ∈ DFS.visited s') root Hroot).
    - destruct root; exact Hseen.
    - intros r _ Hr n Hn. apply (Hclosed r Hr); [simpl; apply not_elem_of_nil|exact Hn]. }
  split.
  - rewrite Hcount.
    assert (DFS.visited s' ≡ₚ positions w h) as Hp.
    { apply NoDup_Permutation; [exact Hnd|apply NoDup_positions|].
      intros r. rewrite elem_of_positions. split; [apply Hvin|apply Hall]. }
    rewrite Hp. rewrite length_positions by lia. reflexivity.
  - intros a b Ha Hb.
    destruct Hgrid as (_ & _ & Hshape' & _).
    apply elem_of_flat, (deref_in_bounds w h _ _ Hshape') in Ha, Hb.
    etransitivity.
    + apply rtc_symmetric; [exact Hsym|]. apply Hlink, Hall, Ha.
    + apply Hlink, Hall, Hb.
Qed.

(** C3 on every run: [solveMazeWithRandomDPS] on a fresh maze returns with
    the start cell carved to itself by the root call [visit(rndCell,
    rndCell.x, rndCell.y)]: the start cell is in its own [edges] and not in
    its [neighbors], so the edges are not within the neighbors. *)
Theorem dfs_root_carves_itself
  (w h : Z) (sort_random : nat -> list Ref -> list Ref) (random : Q) (fuel : nat) :
  0 < w -> 0 < h ->
  (forall k arr, Permutation arr (sort_random k arr)) ->
  unit_interval random ->
  (Z.to_nat (w * h) < fuel)%nat ->
  exists m root c,
    DFS.solveMazeWithRandomDPS sort_random fuel random (Maze.new w h) = Some (Normal m) /\
    deref (Maze.cells m) root = Some c /\
    root ∈ Cell.edges c /\
    (root ∉ Cell.neighbors c) /\
    ~ edges_within_neighbors (Maze.cells m).
Proof.
  intros Hw Hh Hperm Hrandom Hfuel.
  destruct (solveMazeWithRandomDPS_spec w h sort_random random fuel Hw Hh Hperm Hrandom Hfuel)
    as (m & root & Hrun & Hroot & Hgrid & (c & Hc & Hself) & _).
  exists m, root, c. split; [exact Hrun|]. split; [exact Hc|]. split; [exact Hself|].
  destruct Hgrid as (_ & _ & _ & Hfields). destruct (Hfields root c Hc) as (_ & _ & Hnb).
  assert (root ∉ Cell.neighbors c) as Hout.
  { rewrite Hnb. apply adjacent_irrefl. exact Hroot. }
  split; [exact Hout|].
  intros Hinv. apply Hout. eapply Hinv; eassumption.
Qed.

Lemma dfs_root_carves_itself_witness :
  exists m root c,
    DFS.solveMazeWithRandomDPS sort_keeps 10 (0 # 1) (Maze.new 2 2) = Some (Normal m) /\
    deref (Maze.cells m) root = Some c /\
    root ∈ Cell.edges c /\
    (root ∉ Cell.neighbors c) /\
    ~ edges_within_neighbors (Maze.cells m).
Proof.
  apply (dfs_root_carves_itself 2 2 sort_keeps (0 # 1) 10).
  - lia.
  - lia.
  - intros k arr. reflexivity.
  - split; [discriminate|reflexivity].
  - simpl. lia.
Defined.

(** C4 on every run: on the 3 x 3 maze [solveMazeWithRandomDPS] returns with
    all nine cells reachable from one another, but with nine carved edges
    (18 entries in the [edges] arrays), not eight: the ninth is the start
    cell carved to itself. *)
Theorem dfs_3x3_carves_nine_edges
  (sort_random : nat -> list Ref -> list Ref) (random : Q) (fuel : nat) :
  (forall k arr, Permutation arr (sort_random k arr)) ->
  unit_interval random ->
  (9 < fuel)%nat ->
  exists m root,
    DFS.solveMazeWithRandomDPS sort_random fuel random (Maze.new 3 3) = Some (Normal m) /\
    edge_entries (Maze.cells m) = 18 /\
    carved_edges (Maze.cells m) = 9 /\
    carved (Maze.cells m) root root /\
    connected (Maze.cells m).
Proof.
  intros Hperm Hrandom Hfuel.
  destruct (solveMazeWithRandomDPS_spec 3 3 sort_random random fuel) as
    (m & root & Hrun & _ & _ & Hself & Hcount & Hconn);
    [lia|lia|exact Hperm|exact Hrandom|simpl; lia|].
  exists m, root. split; [exact Hrun|]. split; [exact Hcount|].
  split; [unfold carved_edges; rewrite Hcount; reflexivity|]. split; assumption.
Qed.

Lemma dfs_3x3_carves_nine_edges_witness :
  exists m root,
    DFS.solveMazeWithRandomDPS sort_keeps 10 (0 # 1) (Maze.new 3 3) = Some (Normal m) /\
    edge_entries (Maze.cells m) = 18 /\
    carved_edges (Maze.cells m) = 9 /\
    carved (Maze.cells m) root root /\
    connected (Maze.cells m).
Proof.
  apply (dfs_3x3_carves_nine_edges sort_keeps (0 # 1) 10).
  - intros k arr. reflexivity.
  - split; [discriminate|reflexivity].
  - lia.
Defined.

(** ** How a walk comes to carve a cell to itself *)

(** From the second step of a walk on, [path] ends at [current] when the
    step begins; if the chosen cell is new to the path, the step leaves
    [current] twice in a row in it. *)
Lemma walk_step_doubles_current (path : list Ref) (current next : Ref) :
  last path = Some current -> next ∉ path ->
  exists before,
    Wilson.erase_loop (path ++ [current]) next = before ++ [current; current; next].
Proof.
  intros Hlast Hout.
  destruct (decide (next = current)) as [->|Hne].
  { exfalso. apply Hout. apply last_Some_elem_of. exact Hlast. }
  apply last_Some in Hlast as [before ->]. exists before.
  unfold Wilson.erase_loop. rewrite indexOf_missing.
  - simpl. rewrite <- !app_assoc. reflexivity.
  - rewrite elem_of_app, list_elem_of_singleton. intros [Hin|Heq]; [done|]. done.
Qed.

(** The carving loop on a path that holds [c] twice in a row carves [c] to
    itself, and what is carved stays carved. *)
Lemma carve_path_self_loop (before after : list Ref) (c : Ref) (s : Wilson.State) :
  is_Some (deref (Maze.cells (Wilson.maze s)) c) ->
  carved (Maze.cells (Wilson.maze (Wilson.carve_path (before ++ c :: c :: after) s))) c c.
Proof.
  intros Hc. set (path := before ++ c :: c :: after).
  assert (js_get path (Z.of_nat (length before)) = Some c) as Hi.
  { apply js_get_Some. split; [lia|]. rewrite Nat2Z.id. subst path.
    rewrite lookup_app_r by lia. rewrite Nat.sub_diag. reflexivity. }
  assert (js_get path (Z.of_nat (length before) + 1) = Some c) as Hi'.
  { apply js_get_Some. split; [lia|].
    replace (Z.to_nat (Z.of_nat (length before) + 1)) with (S (length before)) by lia.
    subst path. rewrite lookup_app_r by lia.
    replace (S (length before) - length before)%nat with 1%nat by lia. reflexivity. }
  assert (Z.of_nat (length before) < Z.of_nat (length path) - 1) as Hlen.
  { subst path. rewrite length_app. simpl. lia. }
  unfold Wilson.carve_path.
  apply (for_range_ind
    (fun k t => is_Some (deref (Maze.cells (Wilson.maze t)) c) /\
                (Z.of_nat (length before) < k -> carved (Maze.cells (Wilson.maze t)) c c)));
    [split; [exact Hc|lia]| |lia|lia].
  intros i t Hi0 [Hsome Hcarved].
  destruct (js_get path i) as [cell|] eqn:Hcell;
    [destruct (js_get path (i + 1)) as [nextCell|] eqn:Hnext|];
    simpl; try (split; [exact Hsome|intros ?]).
  - split.
    + destruct Hsome as [c0 Hc0]. rewrite carveEdge_deref, Hc0. simpl. eauto.
    + intros Hk. apply carved_carveEdge. split; [exact Hsome|].
      destruct (decide (i = Z.of_nat (length before))) as [->|Hne].
      * rewrite Hi in Hcell. rewrite Hi' in Hnext.
        injection Hcell as <-. injection Hnext as <-. auto.
      * left. apply Hcarved. lia.
  - destruct (decide (i = Z.of_nat (length before))) as [->|Hne];
      [rewrite Hi' in Hnext; discriminate|apply Hcarved; lia].
  - destruct (decide (i = Z.of_nat (length before))) as [->|Hne];
      [rewrite Hi in Hcell; discriminate|apply Hcarved; lia].
Qed.

(** * Further properties of the code *)

(** ** Lookups and carving *)

(** [getCell] never fails: on a maze of [w] by [h], carved or not, it gives
    the cell at an in-bounds position and [null] at any other. *)
Theorem getCell_bounds (w h : Z) (m : Maze.t) (x y : Z) :
  grid_maze w h m ->
  (in_bounds w h (x, y) -> Maze.getCell m x y = Some (x, y)) /\
  (~ in_bounds w h (x, y) -> Maze.getCell m x y = None).
Proof.
  intros Hgrid. split; [apply getCell_in_bounds; exact Hgrid|].
  intros Hout. destruct Hgrid as (Hw & Hh & _). unfold Maze.getCell. rewrite Hw, Hh.
  unfold in_bounds in Hout. simpl in Hout.
  destruct (Z.ltb_spec x 0); [reflexivity|]. destruct (Z.geb_spec x w); [reflexivity|].
  destruct (Z.ltb_spec y 0); [reflexivity|]. destruct (Z.geb_spec y h); [reflexivity|].
  lia.
Qed.

Lemma getCell_bounds_witness :
  Maze.getCell (Maze.new 3 2) 2 1 = Some (2, 1) /\ Maze.getCell (Maze.new 3 2) 3 1 = None.
Proof.
  destruct (getCell_bounds 3 2 (Maze.new 3 2) 2 1) as [Hin _];
    [apply maze_new_grid_maze; lia|].
  destruct (getCell_bounds 3 2 (Maze.new 3 2) 3 1) as [_ Hout];
    [apply maze_new_grid_maze; lia|].
  split; [apply Hin; split; simpl; lia|apply Hout; intros [? ?]; simpl in *; lia].
Defined.

(** [carveEdge] on any two cells of the maze, adjacent or not, distinct or
    not: each ends up in the other's [edges], two entries are added in all,
    every edge carved before stays, and no cell's coordinates or neighbors
    change. *)
Theorem carveEdge_records_both_ends (cells : Cells) (a b : Ref) :
  is_Some (deref cells a) -> is_Some (deref cells b) ->
  carved (carveEdge a b cells) a b /\
  carved (carveEdge a b cells) b a /\
  edge_entries (carveEdge a b cells) = edge_entries cells + 2 /\
  (forall p q, carved cells p q -> carved (carveEdge a b cells) p q) /\
  (forall r c', deref (carveEdge a b cells) r = Some c' ->
     exists c, deref cells r = Some c /\
               Cell.x c' = Cell.x c /\ Cell.y c' = Cell.y c /\
               Cell.neighbors c' = Cell.neighbors c /\
               (r <> a -> r <> b -> Cell.edges c' = Cell.edges c)).
Proof.
  intros Ha Hb.
  split; [apply carved_carveEdge; auto|].
  split; [apply carved_carveEdge; auto|].
  split; [apply edge_entries_carveEdge; assumption|].
  split.
  - intros p q Hpq. apply carved_carveEdge. split; [|auto].
    eapply carved_is_Some. exact Hpq.
  - intros r c' Hc'. rewrite carveEdge_deref in Hc'.
    destruct (deref cells r) as [c|]; [|discriminate]. injection Hc' as <-.
    exists c. simpl. repeat split.
    intros Hra Hrb. destruct (decide (a = r)); [congruence|].
    destruct (decide (b = r)); [congruence|]. rewrite !app_nil_r. reflexivity.
Qed.

Lemma carveEdge_records_both_ends_witness :
  carved (carveEdge (0, 0) (2, 1) (Maze.cells (Maze.new 3 2))) (0, 0) (2, 1) /\
  carved (carveEdge (0, 0) (2, 1) (Maze.cells (Maze.new 3 2))) (2, 1) (0, 0).
Proof.
  destruct (carveEdge_records_both_ends (Maze.cells (Maze.new 3 2)) (0, 0) (2, 1))
    as (Hab & Hba & _); [vm_compute; eauto|vm_compute; eauto|].
  split; assumption.
Defined.

(** Carving and [uncarvedEdges] compose: after [a.carveEdge(b)] the uncarved
    list of [a] is the one before without [b], in the same order, and the
    uncarved list of [b] is the one before without [a]. *)
Theorem uncarvedEdges_after_carveEdge (cells : Cells) (a b : Ref) (ca cb : Cell.t) :
  deref cells a = Some ca -> deref cells b = Some cb ->
  exists ca' cb',
    deref (carveEdge a b cells) a = Some ca' /\
    deref (carveEdge a b cells) b = Some cb' /\
    Cell.uncarvedEdges ca' = filter (fun n => n <> b) (Cell.uncarvedEdges ca) /\
    Cell.uncarvedEdges cb' = filter (fun n => n <> a) (Cell.uncarvedEdges cb).
Proof.
  intros Ha Hb. rewrite !carveEdge_deref, Ha, Hb. simpl.
  eexists. eexists. split; [reflexivity|]. split; [reflexivity|].
  rewrite !uncarvedEdges_filter. simpl. rewrite !list_filter_filter.
  split; apply list_filter_iff; intros n; rewrite !elem_of_app.
  - destruct (decide (a = a)) as [_|]; [|done].
    destruct (decide (b = a)) as [->|Hne].
    + rewrite list_elem_of_singleton. tauto.
    + rewrite list_elem_of_singleton, elem_of_nil. tauto.
  - destruct (decide (b = b)) as [_|]; [|done].
    destruct (decide (a = b)) as [->|Hne].
    + rewrite list_elem_of_singleton. tauto.
    + rewrite list_elem_of_singleton, elem_of_nil. tauto.
Qed.

Lemma uncarvedEdges_after_carveEdge_witness :
  exists ca',
    deref (carveEdge (1, 0) (1, 1) (Maze.cells (Maze.new 3 2))) (1, 0) = Some ca' /\
    Cell.uncarvedEdges ca' = [(0, 0); (2, 0)].
Proof.
  destruct (uncarvedEdges_after_carveEdge (Maze.cells (Maze.new 3 2)) (1, 0) (1, 1)
              (Cell.mk 1 0 [] [(0, 0); (2, 0); (1, 1)])
              (Cell.mk 1 1 [] [(0, 1); (2, 1); (1, 0)]) eq_refl eq_refl)
    as (ca' & cb' & Ha & _ & Hu & _).
  exists ca'. split; [exact Ha|]. rewrite Hu. reflexivity.
Defined.

(** When the edges of a cell are distinct neighbors of it, [uncarvedEdges]
    is a duplicate-free sublist of [neighbors] that holds none of the edges,
    and its length is the number of neighbors minus the number of edges. *)
Theorem uncarvedEdges_of_tidy_cell (c : Cell.t) :
  NoDup (Cell.edges c) -> NoDup (Cell.neighbors c) ->
  (forall e, e ∈ Cell.edges c -> e ∈ Cell.neighbors c) ->
  sublist (Cell.uncarvedEdges c) (Cell.neighbors c) /\
  NoDup (Cell.uncarvedEdges c) /\
  (forall e, e ∈ Cell.edges c -> e ∉ Cell.uncarvedEdges c) /\
  Z.of_nat (length (Cell.uncarvedEdges c))
  = Z.of_nat (length (Cell.neighbors c)) - Z.of_nat (length (Cell.edges c)).
Proof.
  intros He Hn Hsub.
  split; [rewrite uncarvedEdges_filter; apply sublist_filter|].
  split; [rewrite uncarvedEdges_filter; apply NoDup_filter; exact Hn|].
  split; [intros e Hin Hun; apply elem_of_uncarvedEdges in Hun as [_ Hout]; done|].
  apply uncarvedEdges_length; assumption.
Qed.

Lemma uncarvedEdges_of_tidy_cell_witness :
  Z.of_nat (length (Cell.uncarvedEdges (Cell.mk 1 1 [(1, 0)] [(0, 1); (2, 1); (1, 0); (1, 2)])))
  = 4 - 1.
Proof.
  apply (uncarvedEdges_of_tidy_cell (Cell.mk 1 1 [(1, 0)] [(0, 1); (2, 1); (1, 0); (1, 2)])).
  - simpl. apply NoDup_singleton.
  - simpl.
    repeat (apply NoDup_cons; split;
            [rewrite ?elem_of_cons, elem_of_nil; intros Hin;
             repeat destruct Hin as [Hin|Hin]; try done; discriminate|]).
    apply NoDup_nil. done.
  - simpl. intros e He. apply list_elem_of_singleton in He. subst e.
    rewrite !elem_of_cons. auto.
Defined.

(** In a maze fresh from the constructor the neighbors of a cell are exactly
    the cells of the grid at Manhattan distance 1; so being a neighbor is
    mutual, no cell is its own neighbor, a cell has at most four neighbors,
    and at least one unless the maze is a single cell. *)
Theorem maze_new_neighbors_manhattan (w h : Z) (a : Ref) (ca : Cell.t) :
  0 < w -> 0 < h ->
  deref (Maze.cells (Maze.new w h)) a = Some ca ->
  (forall b, b ∈ Cell.neighbors ca <->
             in_bounds w h b /\ Z.abs (a.1 - b.1) + Z.abs (a.2 - b.2) = 1) /\
  (forall b cb, deref (Maze.cells (Maze.new w h)) b = Some cb ->
                b ∈ Cell.neighbors ca <-> a ∈ Cell.neighbors cb) /\
  (length (Cell.neighbors ca) <= 4)%nat /\
  (1 < w \/ 1 < h -> Cell.neighbors ca <> []).
Proof.
  intros Hw Hh Ha.
  pose proof (maze_new_grid_maze w h Hw Hh) as (_ & _ & Hshape & Hfields).
  assert (forall r c, deref (Maze.cells (Maze.new w h)) r = Some c ->
            in_bounds w h r /\
            forall n, n ∈ Cell.neighbors c <->
                      in_bounds w h n /\ Z.abs (r.1 - n.1) + Z.abs (r.2 - n.2) = 1) as Hspec.
  { intros r c Hc.
    assert (in_bounds w h r) as Hr by (apply (deref_in_bounds w h _ _ Hshape); eauto).
    split; [exact Hr|]. intros n. destruct (Hfields r c Hc) as (_ & _ & ->).
    rewrite (adjacent_spec w h r n Hr). unfold around.
    rewrite !elem_of_cons, elem_of_nil. destruct r as [x y], n as [nx ny].
    unfold in_bounds. simpl. rewrite !pair_equal_spec. lia. }
  destruct (Hspec a ca Ha) as [Hin Hnb].
  split; [exact Hnb|]. split; [|split].
  - intros b cb Hb. destruct (Hspec b cb Hb) as [Hinb Hnbb].
    rewrite Hnb, Hnbb. unfold in_bounds in *. lia.
  - destruct (Hfields a ca Ha) as (_ & _ & ->). unfold adjacent. rewrite wire_new. simpl.
    destruct (0 <? a.1), (a.1 <? w - 1), (0 <? a.2), (a.2 <? h - 1); simpl; lia.
  - intros Hbig Hnil. destruct Hin as [Hx Hy].
    assert (exists b, in_bounds w h b /\ Z.abs (a.1 - b.1) + Z.abs (a.2 - b.2) = 1)
      as (b & Hb).
    { destruct Hbig as [Hbig|Hbig].
      - destruct (decide (a.1 = 0)).
        + exists (a.1 + 1, a.2). unfold in_bounds. simpl. lia.
        + exists (a.1 - 1, a.2). unfold in_bounds. simpl. lia.
      - destruct (decide (a.2 = 0)).
        + exists (a.1, a.2 + 1). unfold in_bounds. simpl. lia.
        + exists (a.1, a.2 - 1). unfold in_bounds. simpl. lia. }
    apply Hnb in Hb. rewrite Hnil in Hb. apply elem_of_nil in Hb. done.
Qed.

Lemma maze_new_neighbors_manhattan_witness :
  (2, 1) ∈ Cell.neighbors (Cell.mk 1 1 [] [(0, 1); (2, 1); (1, 0); (1, 2)]) <->
  in_bounds 3 3 (2, 1) /\ Z.abs (1 - 2) + Z.abs (1 - 1) = 1.
Proof.
  destruct (maze_new_neighbors_manhattan 3 3 (1, 1)
              (Cell.mk 1 1 [] [(0, 1); (2, 1); (1, 0); (1, 2)])) as [Hnb _];
    [lia|lia|reflexivity|].
  apply (Hnb (2, 1)).
Defined.

(** With a width or a height that is not positive the constructor makes no
    cell: [flat] is empty, [getCell] is [null] everywhere, and both carvers
    stop at their first [randomMember] with the error "empty group", having
    carved, drawn and awaited nothing. *)
Theorem empty_maze_carvers_throw (w h : Z) :
  w <= 0 \/ h <= 0 ->
  flat (Maze.cells (Maze.new w h)) = [] /\
  (forall x y, Maze.getCell (Maze.new w h) x y = None) /\
  (forall sort_random fuel random,
     DFS.solveMazeWithRandomDPS sort_random fuel random (Maze.new w h)
     = Some (Throw "empty group")) /\
  (forall rng world fuel signal_aborted stepTime,
     let run := Wilson.wilsonsAlgorithm rng world fuel (Maze.new w h) signal_aborted stepTime in
     run.2 = Err "empty group" /\
     Wilson.maze run.1 = Maze.new w h /\
     Wilson.frames run.1 = [] /\
     promises (Wilson.host run.1) = []).
Proof.
  intros Hdim.
  assert (flat (Maze.cells (Maze.new w h)) = []) as Hflat.
  { destruct (flat (Maze.cells (Maze.new w h))) as [|r rs] eqn:Hf; [reflexivity|].
    exfalso.
    assert (r ∈ flat (Maze.cells (Maze.new w h))) as Hr by (rewrite Hf; apply elem_of_cons; auto).
    apply elem_of_flat in Hr as [c Hc]. simpl in Hc.
    assert (deref (Maze.generate_cells w h) r = Some c \/
            exists c0, deref (Maze.generate_cells w h) r = Some c0) as Hgen.
    { destruct (Z.le_gt_cases 0 w) as [Hw|Hw]; destruct (Z.le_gt_cases 0 h) as [Hh|Hh].
      - rewrite setup_neighbors_deref in Hc by assumption.
        destruct (decide (in_bounds w h r)) as [[? ?]|_]; [lia|]. left. exact Hc.
      - rewrite setup_neighbors_modify, for_range_empty in Hc by lia. left. exact Hc.
      - rewrite setup_neighbors_modify in Hc.
        assert (forall cs : Cells,
                  for_range 0 h (fun y cells =>
                    for_range 0 w (fun x cells => modify (x, y) (wire w h x y) cells) cells) cs
                  = cs) as Hid.
        { intros cs. unfold for_range at 1. generalize (seqZ 0 (h - 0)). intros ys. revert cs.
          induction ys as [|y ys IH]; intros cs; simpl; [reflexivity|].
          rewrite (for_range_empty 0 w) by lia. apply IH. }
        rewrite Hid in Hc. left. exact Hc.
      - rewrite setup_neighbors_modify, for_range_empty in Hc by lia. left. exact Hc. }
    assert (exists c0, deref (Maze.generate_cells w h) r = Some c0) as [c0 Hc0]
      by (destruct Hgen as [?|?]; eauto).
    rewrite generate_cells_rows in Hc0. apply deref_Some in Hc0 as (Hx & Hy & row & Hrow & Hcell).
    rewrite list_lookup_fmap in Hrow.
    destruct (seqZ 0 h !! Z.to_nat r.2) as [y|] eqn:Hy'; [|discriminate].
    injection Hrow as <-. apply lookup_seqZ in Hy' as [-> Hlt].
    unfold new_row in Hcell. rewrite list_lookup_fmap in Hcell.
    destruct (seqZ 0 w !! Z.to_nat r.1) as [x|] eqn:Hx'; [|discriminate].
    apply lookup_seqZ in Hx' as [_ Hlt']. lia. }
  split; [exact Hflat|]. split; [|split].
  - intros x y. unfold Maze.getCell. simpl.
    destruct (Z.ltb_spec x 0); [reflexivity|]. destruct (Z.geb_spec x w); [reflexivity|].
    destruct (Z.ltb_spec y 0); [reflexivity|]. destruct (Z.geb_spec y h); [reflexivity|].
    lia.
  - intros sort_random fuel random. unfold DFS.solveMazeWithRandomDPS.
    rewrite Hflat. reflexivity.
  - intros rng world fuel signal_aborted stepTime.
    unfold Wilson.wilsonsAlgorithm, Wilson.body, Wilson.pick, Wilson.random, Wilson.gets,
      Wilson.update. repeat unfold Wilson.bind. cbn [Wilson.maze].
    rewrite Hflat. simpl. repeat split.
Qed.

Lemma empty_maze_carvers_throw_witness :
  0 <= 0 /\ flat (Maze.cells (Maze.new 4 0)) = [] /\
  DFS.solveMazeWithRandomDPS sort_keeps 5 (0 # 1) (Maze.new 4 0) = Some (Throw "empty group").
Proof.
  destruct (empty_maze_carvers_throw 4 0) as (Hflat & _ & Hdfs & _); [right; lia|].
  split; [lia|]. split; [exact Hflat|apply Hdfs].
Defined.

(** ** Random picks *)

Lemma Qfloor_unique (q : Q) (i : Z) :
  (inject_Z i <= q)%Q -> (q < inject_Z (i + 1))%Q -> Qfloor q = i.
Proof.
  intros Hle Hlt.
  assert (i <= Qfloor q).
  { rewrite <- (Qfloor_Z i). apply Qfloor_resp_le. exact Hle. }
  assert (Qfloor q < i + 1).
  { rewrite Zlt_Qlt. eapply Qle_lt_trans; [apply Qfloor_le|exact Hlt]. }
  lia.
Qed.



(** ** The cancellable delay and the host *)

Lemma on_abort_lookup (p q : nat) (h : Host) :
  promises (on_abort q h) !! p =
  match promises h !! p with
  | Some Pending => if decide (p = q) then Some (Rejected "aborted") else Some Pending
  | o => o
  end.
Proof.
  destruct (decide (p = q)) as [->|Hne].
  - destruct (promises h !! q) as [[| |reason]|] eqn:Hq.
    + apply on_abort_pending. exact Hq.
    + unfold on_abort, reject, settle. simpl. rewrite Hq. exact Hq.
    + unfold on_abort, reject, settle. simpl. rewrite Hq. exact Hq.
    + unfold on_abort, reject, settle. simpl. rewrite Hq. exact Hq.
  - destruct (on_abort_other p q h) as (-> & _); [congruence|].
    destruct (promises h !! p) as [[| |reason]|]; reflexivity.
Qed.

Lemma on_abort_timers (q : nat) (h : Host) (t : nat) :
  t ∈ timers (on_abort q h) <-> t ∈ timers h /\ t <> q.
Proof.
  unfold on_abort, reject.
  destruct (settle_fields q (Rejected "aborted") (clearTimeout q h)) as (_ & _ & ->).
  simpl. rewrite list_elem_of_In, filter_In, <- list_elem_of_In, negb_true_iff, Nat.eqb_neq.
  reflexivity.
Qed.

(** The dispatch of the "abort" event to the listeners [ls]. *)
Lemma abort_dispatch (ls : list nat) (h : Host) :
  let h' := fold_left (fun h q => on_abort q h) ls h in
  aborted h' = aborted h /\ listeners h' = listeners h /\ delays h' = delays h /\
  length (promises h') = length (promises h) /\
  (forall t, t ∈ timers h' <-> t ∈ timers h /\ t ∉ ls) /\
  (forall p, promises h' !! p =
             match promises h !! p with
             | Some Pending => if decide (p ∈ ls) then Some (Rejected "aborted") else Some Pending
             | o => o
             end).
Proof.
  revert h. induction ls as [|q ls IH]; intros h; simpl.
  - do 4 (split; [reflexivity|]). split.
    + intros t. rewrite elem_of_nil. tauto.
    + intros p. destruct (promises h !! p) as [[| |reason]|]; reflexivity.
  - destruct (IH (on_abort q h)) as (Ha & Hl & Hd & Hn & Ht & Hp).
    assert (aborted (on_abort q h) = aborted h /\ listeners (on_abort q h) = listeners h /\
            length (promises (on_abort q h)) = length (promises h)) as (Ha' & Hl' & Hn').
    { unfold on_abort, reject.
      destruct (settle_fields q (Rejected "aborted") (clearTimeout q h)) as (-> & -> & _).
      rewrite settle_length. done. }
    rewrite Ha' in Ha. rewrite Hl' in Hl. rewrite on_abort_delays in Hd. rewrite Hn' in Hn.
    split; [exact Ha|]. split; [exact Hl|]. split; [exact Hd|]. split; [exact Hn|]. split.
    + intros t. rewrite Ht, on_abort_timers, not_elem_of_cons. tauto.
    + intros p. rewrite Hp, on_abort_lookup.
      destruct (promises h !! p) as [[| |reason]|]; try reflexivity.
      destruct (decide (p = q)) as [->|Hne].
      * destruct (decide (q ∈ q :: ls)) as [_|Hout]; [reflexivity|].
        exfalso. apply Hout. apply elem_of_cons. auto.
      * destruct (decide (p ∈ ls)) as [Hin|Hout];
          destruct (decide (p ∈ q :: ls)) as [Hin'|Hout']; try reflexivity.
        -- exfalso. apply Hout'. apply elem_of_cons. auto.
        -- apply elem_of_cons in Hin' as [?|?]; done.
Qed.

Lemma signal_abort_spec (h : Host) :
  let h' := signal_abort h in
  aborted h' = true /\ listeners h' = listeners h /\ delays h' = delays h /\
  length (promises h') = length (promises h) /\
  (forall t, t ∈ timers h' -> t ∈ timers h) /\
  (aborted h = true -> h' = h) /\
  (aborted h = false ->
   (forall t, t ∈ timers h' <-> t ∈ timers h /\ t ∉ listeners h) /\
   (forall p, promises h' !! p =
              match promises h !! p with
              | Some Pending =>
                  if decide (p ∈ listeners h) then Some (Rejected "aborted") else Some Pending
              | o => o
              end)).
Proof.
  unfold signal_abort. destruct (aborted h) eqn:Hab.
  - split; [exact Hab|]. do 3 (split; [reflexivity|]). split; [tauto|].
    split; [reflexivity|discriminate].
  - destruct (abort_dispatch (listeners h)
                (mkHost true (listeners h) (timers h) (delays h) (promises h)))
      as (Ha & Hl & Hd & Hn & Ht & Hp).
    simpl in *.
    split; [exact Ha|]. split; [exact Hl|]. split; [exact Hd|]. split; [exact Hn|].
    split; [intros t Hin; apply Ht in Hin; tauto|].
    split; [discriminate|]. intros _. split; [exact Ht|exact Hp].
Qed.

(** The whole of one awaited delay. *)
Lemma while_pending_spec (time : Z) (h : Host) (abort_called : bool) :
  let p := length (promises h) in
  let h' := while_pending abort_called p (timeoutWithCancel time h).2 in
  promises h' !! p
    = Some (if abort_called && negb (aborted h) then Rejected "aborted" else Fulfilled) /\
  (forall q, q <> p -> promises h' !! q =
     match promises h !! q with
     | Some Pending =>
         if abort_called && negb (aborted h) && bool_decide (q ∈ listeners h)
         then Some (Rejected "aborted") else Some Pending
     | o => o
     end) /\
  length (promises h') = S (length (promises h)) /\
  (p ∉ timers h') /\
  (forall q, q ∈ timers h' -> q ∈ timers h) /\
  listeners h' = listeners h ++ [p] /\
  delays h' = delays h ++ [time] /\
  aborted h' = aborted h || abort_called.
Proof.
  intros p h'. subst h'. unfold while_pending.
  set (h1 := (timeoutWithCancel time h).2).
  assert (promises h1 !! p = Some Pending) as Hp1.
  { subst h1 p. simpl. rewrite lookup_app_r by lia. rewrite Nat.sub_diag. reflexivity. }
  assert (forall q, q <> p -> promises h1 !! q = promises h !! q) as Hq1.
  { intros q Hne. subst h1 p. simpl. destruct (decide (q < length (promises h))%nat).
    - apply lookup_app_l. assumption.
    - rewrite lookup_ge_None_2 by (rewrite length_app; simpl; lia).
      symmetry. apply lookup_ge_None_2. lia. }
  destruct (abort_called && negb (aborted h)) eqn:Hcase.
  - apply andb_true_iff in Hcase as [-> Hab]. apply negb_true_iff in Hab.
    destruct (signal_abort_spec h1) as (Ha & Hl & Hd & Hn & _ & _ & Hfresh).
    destruct (Hfresh Hab) as [Ht Hp]. clear Hfresh.
    set (h2 := signal_abort h1) in *.
    assert (p ∉ timers h2) as Hout.
    { intros Hin. apply Ht in Hin as [_ Hin]. apply Hin. subst h1. simpl.
      apply elem_of_app. right. apply list_elem_of_singleton. reflexivity. }
    unfold timer_fires.
    assert (existsb (Nat.eqb p) (timers h2) = false) as ->.
    { apply not_true_iff_false. rewrite existsb_exists. intros (t & Hin & Heq).
      apply Nat.eqb_eq in Heq. subst t. apply Hout. apply list_elem_of_In. exact Hin. }
    split; [|split; [|split; [|split; [|split; [|split; [|split]]]]]].
    + rewrite Hp, Hp1. destruct (decide (p ∈ listeners h1)) as [_|Hno]; [reflexivity|].
      exfalso. apply Hno. subst h1. simpl. apply elem_of_app. right.
      apply list_elem_of_singleton. reflexivity.
    + intros q Hne. rewrite Hp, (Hq1 q Hne).
      destruct (promises h !! q) as [[| |reason]|]; try reflexivity. simpl.
      subst h1. simpl.
      destruct (decide _) as [Hin|Hno]; case_bool_decide as Hin'; try reflexivity.
      * apply elem_of_app in Hin as [?|Hin]; [done|].
        apply list_elem_of_singleton in Hin. done.
      * exfalso. apply Hno. apply elem_of_app. auto.
    + rewrite Hn. subst h1. simpl. rewrite length_app. simpl. lia.
    + exact Hout.
    + intros q Hin. apply Ht in Hin as [Hin Hno]. subst h1. simpl in *.
      apply elem_of_app in Hin as [Hin|Hin]; [exact Hin|].
      exfalso. apply Hno. apply elem_of_app. right. exact Hin.
    + rewrite Hl. reflexivity.
    + rewrite Hd. reflexivity.
    + rewrite Ha, Hab. reflexivity.
  - assert ((if abort_called then signal_abort h1 else h1) = h1 /\
            aborted h || abort_called = aborted h) as [-> ->].
    { destruct abort_called; simpl in *; [|rewrite orb_false_r; done].
      apply negb_false_iff in Hcase. rewrite Hcase.
      destruct (signal_abort_spec h1) as (_ & _ & _ & _ & _ & Hsame & _).
      split; [apply Hsame; exact Hcase|reflexivity]. }
    unfold timer_fires.
    assert (existsb (Nat.eqb p) (timers h1) = true) as ->
      by (subst h1 p; simpl; apply existsb_eqb_snoc).
    unfold resolve.
    destruct (settle_fields p Fulfilled (clearTimeout p h1)) as (Ha & Hl & Ht).
    split; [|split; [|split; [|split; [|split; [|split; [|split]]]]]].
    + apply settle_pending. exact Hp1.
    + intros q Hne. rewrite settle_other by congruence.
      change (promises (clearTimeout p h1)) with (promises h1). rewrite (Hq1 q Hne).
      destruct (promises h !! q) as [[| |reason]|]; reflexivity.
    + rewrite settle_length. subst h1. simpl. rewrite length_app. simpl. lia.
    + rewrite Ht. simpl. rewrite list_elem_of_In, filter_In, Nat.eqb_refl. simpl.
      intros [_ ?]. discriminate.
    + intros q. rewrite Ht. simpl.
      rewrite list_elem_of_In, filter_In, <- list_elem_of_In, negb_true_iff, Nat.eqb_neq.
      intros [Hin Hne]. subst h1. simpl in Hin.
      apply elem_of_app in Hin as [Hin|Hin]; [exact Hin|].
      apply list_elem_of_singleton in Hin. done.
    + rewrite Hl. reflexivity.
    + rewrite settle_delays. reflexivity.
    + rewrite Ha. reflexivity.
Qed.

(** An awaited [timeoutWithCancel(time, signal)] always settles: its promise
    is rejected with "aborted" exactly when [abort()] is called, for the
    first time on that signal, while it is pending, and fulfilled by the
    timer otherwise.  Either way its timer is gone afterwards and no other
    timer was set, but its "abort" listener stays on the signal. *)
Theorem awaited_delay_outcome (time : Z) (h : Host) (abort_called : bool) :
  let p := (timeoutWithCancel time h).1 in
  let h' := while_pending abort_called p (timeoutWithCancel time h).2 in
  promises h' !! p
    = Some (if abort_called && negb (aborted h) then Rejected "aborted" else Fulfilled) /\
  (p ∉ timers h') /\
  (forall q, q ∈ timers h' -> q ∈ timers h) /\
  listeners h' = listeners h ++ [p] /\
  delays h' = delays h ++ [time] /\
  aborted h' = aborted h || abort_called.
Proof.
  destruct (while_pending_spec time h abort_called) as (Hp & _ & _ & Hout & Ht & Hl & Hd & Ha).
  simpl. repeat (split; [assumption|]). assumption.
Qed.

Lemma host_event_settled (p : nat) (st : PromiseState) (h : Host) (e : HostEvent) :
  promises h !! p = Some st -> st <> Pending -> promises (host_event h e) !! p = Some st.
Proof.
  intros Hp Hst. destruct e as [|q|time]; simpl.
  - destruct (signal_abort_spec h) as (_ & _ & _ & _ & _ & Hsame & Hfresh).
    destruct (aborted h) eqn:Hab; [rewrite Hsame by reflexivity; exact Hp|].
    destruct (Hfresh eq_refl) as [_ ->]. rewrite Hp. destruct st; done.
  - unfold timer_fires. destruct (existsb _ _); [|exact Hp]. unfold resolve.
    destruct (decide (q = p)) as [->|Hne].
    + unfold settle. simpl. rewrite Hp. destruct st; done.
    + rewrite settle_other by exact Hne. exact Hp.
  - apply lookup_app_l_Some. exact Hp.
Qed.

(** Once the promise of a delay is settled, nothing that happens later on
    the host changes its outcome: not a late [abort()] (whose listener still
    runs [reject]), not a timer, not another [timeoutWithCancel]. *)
Theorem settled_promise_is_final (h : Host) (p : nat) (st : PromiseState)
  (events : list HostEvent) :
  promises h !! p = Some st -> st <> Pending ->
  promises (fold_left host_event events h) !! p = Some st.
Proof.
  revert h. induction events as [|e events IH]; intros h Hp Hst; simpl; [exact Hp|].
  apply IH; [|exact Hst]. apply host_event_settled; assumption.
Qed.

Lemma settled_promise_is_final_witness :
  let h := while_pending false 0 (timeoutWithCancel 100 (mkHost false [] [] [] [])).2 in
  promises h !! 0%nat = Some Fulfilled /\
  promises (fold_left host_event [AbortCalled; TimerElapsed 0; TimeoutRequested 5] h) !! 0%nat
    = Some Fulfilled.
Proof.
  split; [reflexivity|].
  apply (settled_promise_is_final
           (while_pending false 0 (timeoutWithCancel 100 (mkHost false [] [] [] [])).2)
           0 Fulfilled [AbortCalled; TimerElapsed 0; TimeoutRequested 5] eq_refl).
  discriminate.
Defined.

Lemma host_event_listeners (h : Host) (e : HostEvent) :
  let n := match e with TimeoutRequested _ => 1%nat | _ => 0%nat end in
  listeners (host_event h e) = listeners h ++ seq (length (promises h)) n /\
  length (promises (host_event h e)) = (length (promises h) + n)%nat.
Proof.
  destruct e as [|q|time]; simpl.
  - destruct (signal_abort_spec h) as (_ & -> & _ & -> & _).
    rewrite app_nil_r. split; [reflexivity|lia].
  - unfold timer_fires. destruct (existsb _ _).
    + unfold resolve.
      destruct (settle_fields q Fulfilled (clearTimeout q h)) as (_ & -> & _).
      rewrite settle_length. simpl. rewrite app_nil_r. split; [reflexivity|lia].
    + rewrite app_nil_r. split; [reflexivity|lia].
  - rewrite length_app. simpl. split; reflexivity.
Qed.

(** [timeoutWithCancel] never takes its "abort" listener off the signal:
    whatever happens on the host, every call made so far has left one
    listener there, in the order of the calls, settled or not. *)
Theorem abort_listeners_pile_up (events : list HostEvent) (h : Host) :
  let requests :=
    length (List.filter (fun e => match e with TimeoutRequested _ => true | _ => false end)
              events) in
  let h' := fold_left host_event events h in
  listeners h' = listeners h ++ seq (length (promises h)) requests /\
  length (promises h') = (length (promises h) + requests)%nat.
Proof.
  revert h. induction events as [|e events IH]; intros h; simpl.
  - rewrite app_nil_r. split; [reflexivity|lia].
  - destruct (IH (host_event h e)) as [Hl Hn].
    destruct (host_event_listeners h e) as [Hl1 Hn1].
    rewrite Hl, Hn, Hl1, Hn1. clear.
    destruct e as [|q|time]; simpl.
    + rewrite app_nil_r, Nat.add_0_r. split; reflexivity.
    + rewrite app_nil_r, Nat.add_0_r. split; reflexivity.
    + rewrite <- app_assoc. simpl. rewrite Nat.add_1_r. split; [reflexivity|lia].
Qed.

(** ** The depth-first carver on every grid *)



Lemma adjacent_sym (w h : Z) (r n : Ref) :
  in_bounds w h r -> n ∈ adjacent w h r -> in_bounds w h n /\ r ∈ adjacent w h n /\ n <> r.
Proof.
  intros Hr Hn. pose proof Hn as Hn'. apply (adjacent_spec w h r n Hr) in Hn as [Hin Har].
  split; [exact Hin|]. split.
  - apply (adjacent_spec w h n r Hin). split; [exact Hr|].
    unfold around in *. destruct r as [x y], n as [x' y']. simpl in *.
    rewrite !elem_of_cons, elem_of_nil, !pair_equal_spec in *. lia.
  - intros ->. exact (adjacent_irrefl w h r Hr Hn').
Qed.

Section CarverTree.
Variables w h : Z.
Hypothesis w_pos : 0 < w.
Hypothesis h_pos : 0 < h.
Variable root : Ref.
Variable sort_random : nat -> list Ref -> list Ref.
Hypothesis sort_permutes : forall k arr, Permutation arr (sort_random k arr).

Local Abbreviation inv := (carver_inv w h root).
Local Abbreviation tree := (fun s => tree_edges root (DFS.visited s) (Maze.cells (DFS.maze s))).

(** How a call [visit(last, x, y)] is made: by [solveMazeWithRandomDPS], on
    the start cell and with nothing visited, or by the loop of a visited
    cell [last] over its neighbors. *)
Local Abbreviation called := (fun (last xy : Ref) (s : DFS.State) =>
  (last = xy /\ xy = root /\ DFS.visited s = []) \/
  (last ∈ DFS.visited s /\ xy ∈ adjacent w h last)).

Lemma tree_edges_carve (s : DFS.State) (last : Ref) (x y : Z) :
  inv s -> tree s -> in_bounds w h (x, y) -> in_bounds w h last ->
  (x, y) ∉ DFS.visited s -> called last (x, y) s ->
  tree_edges root (DFS.visited s ++ [(x, y)]) (carveEdge (x, y) last (Maze.cells (DFS.maze s))).
Proof.
  intros (Hgrid & Hnd & Hvin & Hfresh & _ & _ & Hsym) [Hroot Htree] Hxy Hlast Hnew Hcall.
  destruct Hgrid as (_ & _ & Hshape & Hfields).
  split.
  - right. apply elem_of_app. destruct Hcall as [(_ & -> & _)|[Hl _]].
    + right. apply list_elem_of_singleton. reflexivity.
    + left. destruct Hroot as [Hnil|Hin]; [rewrite Hnil in Hl; apply elem_of_nil in Hl; done|].
      exact Hin.
  - intros r c Hc Hr. rewrite carveEdge_deref in Hc.
    destruct (deref (Maze.cells (DFS.maze s)) r) as [c1|] eqn:Hc1; [|discriminate].
    injection Hc as <-. simpl.
    destruct (Hfields r c1 Hc1) as (_ & _ & Hnb).
    destruct Hcall as [(-> & Hxr & Hnil)|[Hl Hadj]].
    + rewrite Hnil in Hr. simpl in Hr. apply list_elem_of_singleton in Hr. subst r.
      rewrite (Hfresh _ _ Hc1 Hnew). rewrite <- Hxr.
      destruct (decide ((x, y) = (x, y))) as [_|]; [|done].
      exists []. simpl. split; [reflexivity|]. split; [apply NoDup_nil; done|].
      split; [apply not_elem_of_nil|]. intros e He. apply elem_of_nil in He. done.
    + destruct (adjacent_sym w h last (x, y) Hlast Hadj) as (_ & Hadj' & Hne).
      assert (root ∈ DFS.visited s) as Hrv.
      { destruct Hroot as [Hnil|Hin]; [rewrite Hnil in Hl; apply elem_of_nil in Hl; done|].
        exact Hin. }
      destruct (decide ((x, y) = r)) as [<-|Hxr].
      * rewrite (Hfresh _ _ Hc1 Hnew).
        destruct (decide (last = (x, y))) as [Heq|_]; [congruence|].
        destruct (decide ((x, y) = root)) as [Heq|_]; [congruence|].
        exists [last]. simpl. split; [reflexivity|]. split; [apply NoDup_singleton|].
        split; [intros Hin; apply list_elem_of_singleton in Hin; congruence|].
        intros e He. apply list_elem_of_singleton in He. subst e. rewrite Hnb. exact Hadj'.
      * assert (r ∈ DFS.visited s) as Hrv'.
        { apply elem_of_app in Hr as [Hr|Hr]; [exact Hr|].
          apply list_elem_of_singleton in Hr. congruence. }
        destruct (Htree r c1 Hc1 Hrv') as (rest & Hedges & Hndr & Hself & Hnbs).
        destruct (decide (last = r)) as [<-|Hlr].
        -- exists (rest ++ [(x, y)]). rewrite Hedges. simpl.
           split; [rewrite <- app_assoc; reflexivity|].
           assert ((x, y) ∉ rest) as Hout.
           { intros Hin.
             assert (carved (Maze.cells (DFS.maze s)) last (x, y)) as Hcv.
             { exists c1. split; [exact Hc1|]. rewrite Hedges. apply elem_of_app. auto. }
             apply Hsym in Hcv as (cxy & Hcxy & Hin').
             rewrite (Hfresh _ _ Hcxy Hnew) in Hin'. apply elem_of_nil in Hin'. done. }
           split; [apply NoDup_app; split; [exact Hndr|]; split;
                   [intros e He He'; apply list_elem_of_singleton in He'; congruence
                   |apply NoDup_singleton]|].
           split; [rewrite elem_of_app, list_elem_of_singleton; intros [?|?]; [done|congruence]|].
           intros e He. apply elem_of_app in He as [He|He]; [apply Hnbs; exact He|].
           apply list_elem_of_singleton in He. subst e. rewrite Hnb. exact Hadj.
        -- exists rest. rewrite Hedges, !app_nil_r. done.
Qed.

(** Every call of [visit] keeps the shape of the [edges] arrays. *)
Lemma visit_tree (fuel : nat) :
  forall last x y s s',
    inv s -> tree s -> in_bounds w h (x, y) -> in_bounds w h last ->
    called last (x, y) s ->
    (Z.to_nat (w * h) < fuel + length (DFS.visited s))%nat ->
    DFS.visit sort_random fuel last x y s = Some s' -> tree s'.
Proof.
  induction fuel as [|fuel IH]; intros last x y s s' Hs Ht Hxy Hlast Hcall Hfuel Hrun;
    [discriminate|].
  rewrite visit_unfold in Hrun.
  destruct (Set_has ref_eqb (DFS.visited s) (x, y)) eqn:Hhas; [injection Hrun as <-; exact Ht|].
  destruct (Set_add_new _ _ Hhas) as [Hadd Hnew]. cbv zeta in Hrun. rewrite Hadd in Hrun.
  rewrite (getCell_in_bounds w h) in Hrun by (destruct Hs; assumption).
  assert (last ∈ DFS.visited s \/ last = (x, y)) as Hlv
    by (destruct Hcall as [(-> & _)|[? _]]; auto).
  assert (rtc (carved (Maze.cells (DFS.maze s))) root last) as Hlink.
  { destruct Hcall as [(-> & -> & _)|[Hl _]]; [apply rtc_refl|].
    destruct Hs as (_ & _ & _ & _ & _ & Hlink & _). apply Hlink. exact Hl. }
  destruct (carver_inv_carve w h root s last x y (S (DFS.shuffles s)) Hs Hxy Hlast Hlv Hlink Hnew)
    as (Hs2 & _ & _ & c & Hc & Hnb & _).
  pose proof (tree_edges_carve s last x y Hs Ht Hxy Hlast Hnew Hcall) as Ht2.
  simpl in Hc. simpl in Hrun. rewrite Hc in Hrun.
  set (s2 := DFS.mkState _ _ (S (DFS.shuffles s))) in *.
  change (tree s2) in Ht2.
  assert ((x, y) ∈ DFS.visited s2) as Hseen.
  { subst s2. simpl. apply elem_of_app. right. apply list_elem_of_singleton. reflexivity. }
  assert (Z.to_nat (w * h) < fuel + length (DFS.visited s2))%nat as Hfuel2.
  { subst s2. simpl. rewrite length_app. simpl. lia. }
  assert (forall n, n ∈ sort_random (DFS.shuffles s) (Cell.uncarvedEdges c) ->
                    n ∈ adjacent w h (x, y)) as Hns.
  { intros n Hn. rewrite <- (sort_permutes (DFS.shuffles s)) in Hn.
    apply elem_of_uncarvedEdges in Hn as [Hn _]. rewrite Hnb in Hn. exact Hn. }
  clearbody s2. clear Hc Hnb Hhas Hadd Hnew Hcall Hlv Hlink Ht Hs Hfuel.
  revert s2 Hs2 Ht2 Hseen Hfuel2 Hrun.
  induction (sort_random (DFS.shuffles s) (Cell.uncarvedEdges c)) as [|n ns IHn];
    intros s2 Hs2 Ht2 Hseen Hfuel2 Hrun; simpl in Hrun.
  - injection Hrun as <-. exact Ht2.
  - assert (n ∈ adjacent w h (x, y)) as Hn by (apply Hns, elem_of_cons; auto).
    destruct (adjacent_sym w h (x, y) n Hxy Hn) as (Hnin & _ & _).
    pose proof Hs2 as ((_ & _ & Hshape & Hfields) & _ & _ & _ & _ & Hlink2 & _).
    destruct (proj2 (deref_in_bounds w h _ n Hshape) Hnin) as [cn Hcn].
    rewrite Hcn in Hrun. destruct (Hfields n cn Hcn) as (Hx & Hy & _).
    rewrite Hx, Hy in Hrun.
    destruct (visit_spec w h w_pos h_pos root sort_random sort_permutes fuel (x, y) n.1 n.2 s2)
      as (s3 & Hrun3 & (Hs3 & Hv3 & Hl3 & _) & _);
      [exact Hs2|destruct n; exact Hnin|exact Hxy|auto|apply Hlink2; exact Hseen|exact Hfuel2|].
    rewrite Hrun3 in Hrun.
    assert (forall n', n' ∈ ns -> n' ∈ adjacent w h (x, y)) as Hns'
      by (intros n' Hn'; apply Hns, elem_of_cons; auto).
    apply (IHn Hns' s3 Hs3); [|apply Hv3; exact Hseen|lia|exact Hrun].
    apply (IH (x, y) n.1 n.2 s2 s3 Hs2 Ht2);
      [destruct n; exact Hnin|exact Hxy| |exact Hfuel2|exact Hrun3].
    right. split; [exact Hseen|]. destruct n; exact Hn.
Qed.
End CarverTree.

Lemma solveMazeWithRandomDPS_tree
  (w h : Z) (sort_random : nat -> list Ref -> list Ref) (random : Q) (fuel : nat) :
  0 < w -> 0 < h ->
  (forall k arr, Permutation arr (sort_random k arr)) ->
  unit_interval random ->
  (Z.to_nat (w * h) < fuel)%nat ->
  exists m root,
    DFS.solveMazeWithRandomDPS sort_random fuel random (Maze.new w h) = Some (Normal m) /\
    in_bounds w h root /\
    (forall r c, deref (Maze.cells m) r = Some c ->
       exists rest,
         Cell.edges c = (if decide (r = root) then [root; root] else []) ++ rest /\
         NoDup rest /\ (r ∉ rest) /\ forall e, e ∈ rest -> e ∈ Cell.neighbors c) /\
    (forall a b, carved (Maze.cells m) a b -> carved (Maze.cells m) b a) /\
    edge_entries (Maze.cells m) - 2 = 2 * (w * h - 1) /\
    connected (Maze.cells m).
Proof.
  intros Hw Hh Hperm Hrandom Hfuel.
  assert (grid_shape w h (Maze.cells (Maze.new w h))) as Hshape by (apply maze_new_shape; lia).
  assert (flat (Maze.cells (Maze.new w h)) <> []) as Hne.
  { intros Hnil. pose proof (flat_length w h _ Hshape) as Hlen. rewrite Hnil in Hlen.
    simpl in Hlen. nia. }
  destruct (randomMember_nonempty random _ Hrandom Hne) as (root & Hpick & _ & Hroot).
  apply elem_of_flat in Hroot. pose proof Hroot as [c0 Hc0].
  apply (deref_in_bounds w h _ _ Hshape) in Hroot.
  destruct (maze_new_grid_maze w h Hw Hh) as (_ & _ & _ & Hfields).
  destruct (Hfields root c0 Hc0) as (Hx0 & Hy0 & _).
  pose proof (carver_inv_start w h root Hw Hh) as Hinv0.
  assert (tree_edges root [] (Maze.cells (Maze.new w h))) as Htree0.
  { split; [auto|]. intros r c _ Hr. apply elem_of_nil in Hr. done. }
  destruct (visit_spec w h Hw Hh root sort_random Hperm fuel root root.1 root.2
              (DFS.mkState (Maze.new w h) [] 0)) as (s' & Hrun & Hstep & Hseen & _);
    [exact Hinv0|destruct root; exact Hroot|exact Hroot|right; destruct root; reflexivity
    |apply rtc_refl|simpl; lia|].
  pose proof (visit_tree w h Hw Hh root sort_random Hperm fuel root root.1 root.2
                (DFS.mkState (Maze.new w h) [] 0) s' Hinv0 Htree0) as Htree.
  destruct Htree as [_ Htree];
    [destruct root; exact Hroot|exact Hroot|left; destruct root; done|simpl; lia|exact Hrun|].
  exists (DFS.maze s'), root.
  unfold DFS.solveMazeWithRandomDPS. rewrite Hpick, Hc0, Hx0, Hy0, Hrun.
  split; [reflexivity|]. split; [exact Hroot|].
  destruct Hstep as ((Hgrid & Hnd & Hvin & _ & Hcount & Hlink & Hsym) & _ & _ & _ & Hclosed).
  assert (forall r, in_bounds w h r -> r ∈ DFS.visited s') as Hall.
  { apply (grid_closed w h (fun r => r ∈ DFS.visited s') root Hroot).
    - destruct root; exact Hseen.
    - intros r _ Hr n Hn. apply (Hclosed r Hr); [simpl; apply not_elem_of_nil|exact Hn]. }
  destruct Hgrid as (_ & _ & Hshape' & _).
  split; [|split; [exact Hsym|split]].
  - intros r c Hc. apply (Htree r c Hc). apply Hall.
    apply (deref_in_bounds w h _ _ Hshape'). eauto.
  - rewrite Hcount.
    assert (DFS.visited s' ≡ₚ positions w h) as Hp.
    { apply NoDup_Permutation; [exact Hnd|apply NoDup_positions|].
      intros r. rewrite elem_of_positions. split; [apply Hvin|apply Hall]. }
    rewrite Hp. rewrite length_positions by lia. lia.
  - intros a b Ha Hb.
    apply elem_of_flat, (deref_in_bounds w h _ _ Hshape') in Ha, Hb.
    etransitivity.
    + apply rtc_symmetric; [exact Hsym|]. apply Hlink, Hall, Ha.
    + apply Hlink, Hall, Hb.
Qed.



(** ** Runs of Wilson's algorithm, step by step *)

Module WilsonTriples.
Import Wilson.

Section Rules.
Variable rng : nat -> Q.
Variable world : nat -> bool.
Context {A B : Type}.
Variable P : State -> Prop.
Variable I : State -> Prop.

Lemma triple_ret (a : A) (Q : A -> State -> Prop) :
  (forall s, P s -> Q a s) -> run_triple P (ret a) Q I.
Proof. intros H s Hs. simpl. auto. Qed.

Lemma triple_gets (f : State -> A) (Q : A -> State -> Prop) :
  (forall s, P s -> Q (f s) s) -> run_triple P (gets f) Q I.
Proof. intros H s Hs. simpl. auto. Qed.

Lemma triple_update (f : State -> State) (Q : unit -> State -> Prop) :
  (forall s, P s -> Q tt (f s)) -> run_triple P (update f) Q I.
Proof. intros H s Hs. simpl. auto. Qed.

Lemma triple_diverge (Q : A -> State -> Prop) :
  (forall s, P s -> I s) -> run_triple P (@diverge A) Q I.
Proof. intros H s Hs. simpl. auto. Qed.

Lemma triple_bind (c : M A) (k : A -> M B) (Q1 : A -> State -> Prop) (Q : B -> State -> Prop) :
  run_triple P c Q1 I -> (forall a, run_triple (Q1 a) (k a) Q I) ->
  run_triple P (bind c k) Q I.
Proof.
  intros Hc Hk s Hs. specialize (Hc s Hs). unfold bind.
  destruct (c s) as [s1 [a|msg|]]; simpl in *; [|exact Hc|exact Hc].
  apply (Hk a s1 Hc).
Qed.

Lemma triple_cell (r : Ref) (Q : Cell.t -> State -> Prop) :
  (forall s, P s -> I s) ->
  (forall s c, P s -> deref (Maze.cells (maze s)) r = Some c -> Q c s) ->
  run_triple P (cell r) Q I.
Proof.
  intros HI HQ s Hs. unfold cell.
  destruct (deref (Maze.cells (maze s)) r) as [c|] eqn:Hc; simpl; auto.
Qed.

Lemma triple_await (time : Z) (Q : unit -> State -> Prop) :
  (forall s, P s ->
     let p := length (promises (host s)) in
     let s' := set_host (while_pending (world p) p (timeoutWithCancel time (host s)).2) s in
     I s' /\ Q tt s') ->
  run_triple P (await_timeout world time) Q I.
Proof.
  intros H s Hs. destruct (H s Hs) as [HI HQ]. unfold await_timeout. simpl.
  destruct (promises _ !! _) as [[| |reason]|]; simpl; assumption.
Qed.
End Rules.

Lemma randomMember_elem_of {T} (random : Q) (group : Group T) (a : T) :
  randomMember random group = Normal (Some a) ->
  a ∈ match group with GSet items => items | GArray items => items end.
Proof.
  unfold randomMember. destruct (match group with GSet _ => _ | GArray _ => _ end);
    [discriminate|].
  intros [= Hget]. apply js_get_Some in Hget as [_ Hget].
  eapply list_elem_of_lookup_2. exact Hget.
Qed.

Lemma triple_pick (rng : nat -> Q) (P I : State -> Prop) (group : Group Ref)
  (Q : Ref -> State -> Prop) :
  (forall s, P s -> I (set_randoms (S (randoms s)) s)) ->
  (forall s a, P s ->
     a ∈ match group with GSet items => items | GArray items => items end ->
     Q a (set_randoms (S (randoms s)) s)) ->
  run_triple P (pick rng group) Q I.
Proof.
  intros HI HQ s Hs. unfold pick, bind, random. simpl.
  destruct (randomMember (rng (randoms s)) group) as [[a|]|msg] eqn:Hpick; simpl; auto.
  apply HQ; [exact Hs|]. eapply randomMember_elem_of. exact Hpick.
Qed.

Lemma triple_weaken {A} (P P' I : State -> Prop) (Q Q' : A -> State -> Prop) (c : M A) :
  run_triple P' c Q' I -> (forall s, P s -> P' s) -> (forall a s, Q' a s -> Q a s) ->
  run_triple P c Q I.
Proof.
  intros Hc HP HQ s Hs. specialize (Hc s (HP s Hs)).
  destruct (c s) as [s1 [a|msg|]]; simpl in *; auto.
Qed.

(** *** What a run leaves on the host *)

Section Settled.
Variable rng : nat -> Q.
Variable world : nat -> bool.

Local Abbreviation keeps c := (run_triple settled_run c (fun _ => settled_run) settled_run).

Local Ltac settled_bind :=
  eapply (triple_bind settled_run settled_run _ _ (fun _ => settled_run)).

Lemma settled_render_await (cur : option Ref) (path : list Ref) (time : Z) :
  keeps (bind (renderMaze cur path) (fun _ => await_timeout world time)).
Proof.
  eapply triple_bind.
  - apply (triple_update _ _ _
      (fun _ s => exists s0 m, settled_run s0 /\ host s = host s0 /\
                               frames s = frames s0 ++ [RenderMaze m cur path])).
    intros s Hs. exists s, (maze s). done.
  - intros []. apply triple_await.
    intros s (s0 & m & (Ht & Hl & Hd & Hf & Hshown & Hsettled) & Hh & Hfs) p s'.
    assert (settled_run s'); [|done].
    subst s' p. unfold settled_run. simpl. rewrite Hh, Hfs.
    destruct (while_pending_spec time (host s0) (world (length (promises (host s0)))))
      as (Hp & Hothers & Hlen & Hout & Htimers & Hls & Hds & _).
    set (h' := while_pending _ _ _) in *.
    split; [|split; [|split; [|split; [|split]]]].
    + destruct (timers h') as [|t ts] eqn:Hts; [reflexivity|].
      assert (t ∈ timers (host s0)) as Hin by (apply Htimers, elem_of_cons; auto).
      rewrite Ht in Hin. apply elem_of_nil in Hin. done.
    + rewrite Hls, Hlen, Hl, seq_S. reflexivity.
    + rewrite Hds, Hlen, length_app, Hd. simpl. lia.
    + rewrite Hlen, length_app, Hf. simpl. lia.
    + apply Forall_app. split; [exact Hshown|]. apply Forall_singleton. simpl. eauto.
    + apply Forall_lookup. intros q st Hq.
      destruct (decide (q = length (promises (host s0)))) as [->|Hne].
      * rewrite Hp in Hq. injection Hq as <-. destruct (_ && _); discriminate.
      * rewrite (Hothers q Hne) in Hq.
        destruct (promises (host s0) !! q) as [st0|] eqn:Hq0; [|discriminate].
        rewrite Forall_lookup in Hsettled. specialize (Hsettled q st0 Hq0).
        destruct st0; [done|congruence|congruence].
Qed.

Lemma settled_silent (f : State -> State) :
  (forall s, host (f s) = host s /\ frames (f s) = frames s) -> keeps (update f).
Proof.
  intros Hf. apply triple_update. intros s Hs. unfold settled_run.
  destruct (Hf s) as [-> ->]. exact Hs.
Qed.

Lemma settled_pick (group : Group Ref) : keeps (pick rng group).
Proof. apply triple_pick; intros; assumption. Qed.

Lemma settled_walk_step (stepTime : Z) (startCell : Ref) (path : list Ref) (current : Ref) :
  keeps (walk_step rng world stepTime startCell path current).
Proof.
  unfold walk_step.
  settled_bind; [apply settled_silent; done|intros ?; cbv beta].
  settled_bind; [apply triple_cell; intros; assumption|intros c; cbv beta].
  settled_bind; [apply settled_pick|intros next; cbv beta].
  settled_bind; [apply triple_gets; intros s Hs; exact Hs|intros size; cbv beta].
  settled_bind; [|intros ?; cbv beta; apply triple_ret; intros; assumption].
  destruct (size >? 1) eqn:Hsize; [|apply triple_ret; intros; assumption].
  destruct (Z.eqb_spec size 1) as [->|_]; [discriminate|].
  intros s Hs.
  exact (settled_render_await (Some next) (erase_loop (path ++ [current]) next) stepTime s Hs).
Qed.

Lemma settled_walk (fuel : nat) (stepTime : Z) (startCell : Ref) :
  forall path current, keeps (walk rng world fuel stepTime startCell path current).
Proof.
  induction fuel as [|fuel IH]; intros path current; simpl.
  - settled_bind; [apply triple_gets; intros s Hs; exact Hs|intros seen; cbv beta].
    destruct seen; [apply triple_ret|apply triple_diverge]; intros; assumption.
  - settled_bind; [apply triple_gets; intros s Hs; exact Hs|intros seen; cbv beta].
    destruct seen; [apply triple_ret; intros; assumption|].
    settled_bind; [apply settled_walk_step|intros step; cbv beta]. apply IH.
Qed.

Lemma settled_walks (fuel : nat) (stepTime : Z) (startCell : Ref) :
  keeps (walks rng world fuel stepTime startCell).
Proof.
  induction fuel as [|fuel IH]; simpl.
  - settled_bind; [apply triple_gets; intros s Hs; exact Hs|intros size; cbv beta].
    destruct (size >? 0); [apply triple_diverge|apply triple_ret]; intros; assumption.
  - settled_bind; [apply triple_gets; intros s Hs; exact Hs|intros size; cbv beta].
    destruct (size >? 0); [|apply triple_ret; intros; assumption].
    settled_bind; [apply triple_gets; intros s Hs; exact Hs|intros u; cbv beta].
    settled_bind; [apply settled_pick|intros current; cbv beta].
    settled_bind; [apply settled_walk|intros path; cbv beta].
    settled_bind; [|intros ?; exact IH].
    apply triple_update. intros s Hs. unfold settled_run.
    rewrite WilsonLogic.carve_path_host.
    assert (frames (carve_path path s) = frames s) as ->; [|exact Hs].
    unfold carve_path, for_range.
    generalize (seqZ 0 (Z.of_nat (length path) - 1 - 0)). intros idx. revert s Hs.
    induction idx as [|i idx IHi]; intros s Hs; simpl; [reflexivity|].
    rewrite IHi.
    + destruct (js_get path i), (js_get path (i + 1)); reflexivity.
    + destruct (js_get path i), (js_get path (i + 1)); exact Hs.
Qed.

Lemma settled_body (fuel : nat) (stepTime : Z) : keeps (body rng world fuel stepTime).
Proof.
  unfold body.
  settled_bind; [apply triple_gets; intros s Hs; exact Hs|intros m; cbv beta].
  settled_bind; [apply settled_silent; done|intros ?; cbv beta].
  settled_bind; [apply settled_silent; done|intros ?; cbv beta].
  settled_bind; [apply settled_pick|intros startCell; cbv beta].
  settled_bind; [apply settled_silent; done|intros ?; cbv beta].
  settled_bind; [apply settled_silent; done|intros ?; cbv beta].
  settled_bind; [apply settled_silent; done|intros ?; cbv beta].
  settled_bind; [apply settled_walks|intros ?; cbv beta].
  intros s Hs.
  pose proof (settled_render_await None [] 5000 s Hs) as Hk.
  unfold bind in *. destruct (renderMaze None [] s) as [s1 [[]| |]]; simpl in *; try exact Hk.
  destruct (await_timeout world 5000 s1) as [s2 [[]| |]]; simpl in *; exact Hk.
Qed.
End Settled.
End WilsonTriples.

(** When a run of [wilsonsAlgorithm] has returned or thrown, and whenever
    it is followed up to the head of one of its two [while] loops, no timer
    is running and no promise is pending.  It never calls [fillSelf]: every
    drawing is a call of [renderMaze], and each was followed by one delay.
    Every delay has left its "abort" listener on the signal. *)
Theorem wilson_run_is_settled
  (rng : nat -> Q) (world : nat -> bool) (fuel : nat) (m : Maze.t)
  (signal_aborted : bool) (stepTime : Z) :
  let run := Wilson.wilsonsAlgorithm rng world fuel m signal_aborted stepTime in
  let host := Wilson.host run.1 in
  timers host = [] /\
  Forall (fun st => st <> Pending) (promises host) /\
  Forall (fun d => exists mz cur path, d = RenderMaze mz cur path) (Wilson.frames run.1) /\
  length (Wilson.frames run.1) = length (delays host) /\
  listeners host = seq 0 (length (delays host)).
Proof.
  intros run host.
  assert (settled_run run.1) as (Ht & Hl & Hd & Hf & Hshown & Hsettled).
  { pose proof (WilsonTriples.settled_body rng world fuel stepTime
                  (Wilson.mkState m [] [] 0 0%nat [] (mkHost signal_aborted [] [] [] []))) as Hrun.
    fold (Wilson.wilsonsAlgorithm rng world fuel m signal_aborted stepTime) in Hrun.
    fold run in Hrun.
    assert (settled_run (Wilson.mkState m [] [] 0 0%nat [] (mkHost signal_aborted [] [] [] [])))
      as H0.
    { unfold settled_run. simpl. repeat split; constructor. }
    specialize (Hrun H0). destruct (run.2); exact Hrun. }
  fold host in Ht, Hl, Hd, Hf, Hsettled.
  split; [exact Ht|]. split; [exact Hsettled|]. split; [|split].
  - eapply Forall_impl; [exact Hshown|]. intros [mz cur path|c color] [x Hx]; simpl in Hx.
    + eauto.
    + discriminate.
  - rewrite Hf, Hd. reflexivity.
  - rewrite Hl, Hd. reflexivity.
Qed.

(** ** What Wilson's algorithm carves *)

Lemma Set_delete_elem_of (s : list Ref) (v r : Ref) :
  r ∈ Set_delete ref_eqb s v <-> r ∈ s /\ r <> v.
Proof.
  unfold Set_delete. rewrite list_elem_of_In, filter_In, <- list_elem_of_In.
  rewrite negb_true_iff, ref_eqb_neq. split; intros [? ?]; split; congruence.
Qed.

Lemma Set_of_elem_of (l : list Ref) (r : Ref) : r ∈ Set_of ref_eqb l <-> r ∈ l.
Proof.
  unfold Set_of. rewrite Set_add_all_elem_of, elem_of_nil. tauto.
Qed.

Lemma erase_loop_Forall (P : Ref -> Prop) (path : list Ref) (next : Ref) :
  Forall P path -> P next -> Forall P (Wilson.erase_loop path next).
Proof.
  intros Hpath Hnext. destruct (decide (next ∈ path)) as [Hin|Hout].
  - destruct (erase_loop_found path next Hin) as (i & _ & _ & ->).
    apply Forall_app. split; [apply Forall_take; exact Hpath|apply Forall_singleton; exact Hnext].
  - unfold Wilson.erase_loop. rewrite (indexOf_missing path next Hout). simpl.
    apply Forall_app. split; [exact Hpath|apply Forall_singleton; exact Hnext].
Qed.

Module WilsonCarving.
Import Wilson WilsonTriples.

Section Carving.
Variables w h : Z.
Variable m0 : Maze.t.
Hypothesis m0_grid : grid_maze w h m0.
Variable rng : nat -> Q.
Variable world : nat -> bool.

(** Between two walks, with the seed cell [seed]. *)
Local Abbreviation W seed :=
  (fun s : State => wilson_inv w h m0 seed (maze s) (visited s) (unvisited s)).

(** At every point of a run: the grid has only gained edges, and the
    visited cells are cells of the grid, linked to one another. *)
Local Abbreviation grown :=
  (fun s : State =>
     grid_maze w h (maze s) /\
     Maze.start (maze s) = Maze.start m0 /\ Maze.end_ (maze s) = Maze.end_ m0 /\
     (forall a b, carved (Maze.cells m0) a b -> carved (Maze.cells (maze s)) a b) /\
     (forall r, r ∈ visited s -> in_bounds w h r) /\
     (forall a b, a ∈ visited s -> b ∈ visited s -> rtc (carved (Maze.cells (maze s))) a b)).

Lemma wilson_inv_grown (seed : Ref) (s : State) : W seed s -> grown s.
Proof.
  intros (Hgrid & Hstart & Hend & Hmono & _ & _ & Hvis).
  split; [exact Hgrid|]. split; [exact Hstart|]. split; [exact Hend|]. split; [exact Hmono|].
  split; [intros r Hr; apply Hvis, Hr|].
  intros a b Ha Hb. etransitivity; [apply (Hvis a Ha)|apply (Hvis b Hb)].
Qed.

(** The carving loop on the path of a walk that ended on a visited cell. *)
Lemma carve_path_wilson_inv (seed : Ref) (path : list Ref) (s : State) :
  W seed s -> Forall (in_bounds w h) path ->
  (path = [] \/ exists c, last path = Some c /\ c ∈ visited s) ->
  W seed (carve_path path s).
Proof.
  intros Hs Hpath [->|(c & Hlast & Hc)].
  { unfold carve_path. rewrite for_range_empty by (simpl; lia). exact Hs. }
  assert (path <> []) as Hne by (intros ->; discriminate).
  assert (0 < length path)%nat as Hlen by (destruct path; [done|simpl; lia]).
  set (N := (length path - 1)%nat).
  assert (path !! N = Some c) as HN.
  { rewrite last_lookup in Hlast. subst N. replace (length path - 1)%nat with (pred (length path)) by lia.
    exact Hlast. }
  assert (Z.of_nat (length path) - 1 = Z.of_nat N) as HNz by (subst N; lia).
  unfold carve_path. rewrite HNz.
  set (body := fun (i : Z) (s : State) => _).
  assert (
    let t := for_range 0 (Z.of_nat N) body s in
    grid_maze w h (maze t) /\
    Maze.start (maze t) = Maze.start (maze s) /\ Maze.end_ (maze t) = Maze.end_ (maze s) /\
    (forall a b, carved (Maze.cells (maze s)) a b -> carved (Maze.cells (maze t)) a b) /\
    (forall r, r ∈ visited t <-> r ∈ visited s \/ r ∈ take (Z.to_nat (Z.of_nat N)) path) /\
    (forall r, r ∈ unvisited t <-> r ∈ unvisited s /\ r ∉ take (Z.to_nat (Z.of_nat N)) path) /\
    (forall j a b, (j < Z.to_nat (Z.of_nat N))%nat -> path !! j = Some a -> path !! S j = Some b ->
       carved (Maze.cells (maze t)) a b /\ carved (Maze.cells (maze t)) b a)) as Hloop.
  { apply (for_range_ind (fun i t =>
      grid_maze w h (maze t) /\
      Maze.start (maze t) = Maze.start (maze s) /\ Maze.end_ (maze t) = Maze.end_ (maze s) /\
      (forall a b, carved (Maze.cells (maze s)) a b -> carved (Maze.cells (maze t)) a b) /\
      (forall r, r ∈ visited t <-> r ∈ visited s \/ r ∈ take (Z.to_nat i) path) /\
      (forall r, r ∈ unvisited t <-> r ∈ unvisited s /\ r ∉ take (Z.to_nat i) path) /\
      (forall j a b, (j < Z.to_nat i)%nat -> path !! j = Some a -> path !! S j = Some b ->
         carved (Maze.cells (maze t)) a b /\ carved (Maze.cells (maze t)) b a))); [| |lia].
    - destruct Hs as (Hgrid & _). simpl.
      split; [exact Hgrid|]. split; [reflexivity|]. split; [reflexivity|]. split; [auto|].
      split; [intros r; rewrite elem_of_nil; tauto|].
      split; [intros r; rewrite elem_of_nil; tauto|].
      intros j a b Hj. lia.
    - intros i t Hi (Hgrid & Hstart & Hend & Hmono & Hvis & Hunvis & Hcarved).
      destruct (lookup_lt_is_Some_2 path (Z.to_nat i)) as [cell Hcell]; [lia|].
      destruct (lookup_lt_is_Some_2 path (S (Z.to_nat i))) as [nextCell Hnext]; [lia|].
      assert (js_get path i = Some cell) as Hgi by (apply js_get_Some; split; [lia|exact Hcell]).
      assert (js_get path (i + 1) = Some nextCell) as Hgn.
      { apply js_get_Some. split; [lia|].
        replace (Z.to_nat (i + 1)) with (S (Z.to_nat i)) by lia. exact Hnext. }
      subst body. cbv beta. rewrite Hgi, Hgn. simpl.
      replace (Z.to_nat (i + 1)) with (S (Z.to_nat i)) by lia.
      rewrite (take_S_r _ _ _ Hcell).
      pose proof Hgrid as (_ & _ & Hshape & _).
      assert (is_Some (deref (Maze.cells (maze t)) cell)) as Hsc.
      { apply (deref_in_bounds w h _ _ Hshape). rewrite Forall_forall in Hpath.
        apply Hpath. eapply list_elem_of_lookup_2. exact Hcell. }
      assert (is_Some (deref (Maze.cells (maze t)) nextCell)) as Hsn.
      { apply (deref_in_bounds w h _ _ Hshape). rewrite Forall_forall in Hpath.
        apply Hpath. eapply list_elem_of_lookup_2. exact Hnext. }
      assert (forall a b, carved (Maze.cells (maze t)) a b ->
                          carved (carveEdge cell nextCell (Maze.cells (maze t))) a b) as Hstep.
      { intros a b Hab. apply carved_carveEdge. split; [|auto].
        eapply carved_is_Some. exact Hab. }
      split; [apply carveEdge_grid_maze; exact Hgrid|].
      split; [exact Hstart|]. split; [exact Hend|].
      split; [intros a b Hab; apply Hstep, Hmono, Hab|].
      split; [intros r; rewrite Set_add_elem_of, Hvis, elem_of_app, list_elem_of_singleton; tauto|].
      split.
      + intros r. rewrite Set_delete_elem_of, Hunvis, elem_of_app, list_elem_of_singleton.
        split; [intros [[? ?] ?]; split; [assumption|]; intros [?|?]; congruence|].
        intros [? Hout]. repeat split; [assumption|intros ?; apply Hout; auto|].
        intros ->. apply Hout. auto.
      + intros j a b Hj Ha Hb.
        destruct (decide (j = Z.to_nat i)) as [->|Hne'].
        * rewrite Hcell in Ha. rewrite Hnext in Hb. injection Ha as <-. injection Hb as <-.
          split; apply carved_carveEdge; auto.
        * destruct (Hcarved j a b) as [Hab Hba]; [lia|exact Ha|exact Hb|].
          split; apply Hstep; assumption. }
  cbv zeta in Hloop. rewrite Nat2Z.id in Hloop.
  set (t := for_range 0 (Z.of_nat N) body s) in *.
  destruct Hloop as (Hgrid & Hstart & Hend & Hmono & Hvis & Hunvis & Hcarved).
  destruct Hs as (_ & Hstart0 & Hend0 & Hmono0 & Hcover0 & Hunvis0 & Hvis0).
  assert (forall d j a, (j + d = N)%nat -> path !! j = Some a ->
            rtc (carved (Maze.cells (maze t))) seed a /\
            rtc (carved (Maze.cells (maze t))) a seed) as Hlinked.
  { induction d as [|d IH]; intros j a Hj Ha.
    - replace j with N in Ha by lia. rewrite HN in Ha. injection Ha as <-.
      destruct (Hvis0 c Hc) as (_ & Hto & Hfrom).
      split; (eapply rtc_subrel; [exact Hmono|]); assumption.
    - destruct (lookup_lt_is_Some_2 path (S j)) as [b Hb]; [lia|].
      destruct (IH (S j) b ltac:(lia) Hb) as [Hto Hfrom].
      destruct (Hcarved j a b ltac:(lia) Ha Hb) as [Hab Hba].
      split; [eapply rtc_r; eassumption|eapply rtc_l; eassumption]. }
  split; [exact Hgrid|]. split; [congruence|]. split; [congruence|].
  split; [intros a b Hab; apply Hmono, Hmono0, Hab|].
  split; [|split].
  - intros r Hr. rewrite Hvis, Hunvis.
    destruct (Hcover0 r Hr) as [?|?]; [auto|].
    destruct (decide (r ∈ take N path)); auto.
  - intros r Hr. apply Hunvis in Hr as [Hr _]. apply Hunvis0, Hr.
  - intros r Hr. apply Hvis in Hr as [Hr|Hr].
    + destruct (Hvis0 r Hr) as (Hin & Hto & Hfrom).
      split; [exact Hin|]. split; (eapply rtc_subrel; [exact Hmono|]); assumption.
    + apply list_elem_of_lookup in Hr as [j Hj].
      apply lookup_take_Some in Hj as [Hj Hlt].
      split; [rewrite Forall_forall in Hpath; apply Hpath; eapply list_elem_of_lookup_2; exact Hj|].
      apply (Hlinked (N - j)%nat j r); [lia|exact Hj].
Qed.

Lemma triple_pure {A} (P I : State -> Prop) (Q : A -> State -> Prop) (c : M A) (F : Prop) :
  (forall s, P s -> F) -> (F -> run_triple P c Q I) -> run_triple P c Q I.
Proof. intros HF Hc s Hs. exact (Hc (HF s Hs) s Hs). Qed.

Section Seeded.
Variable seed : Ref.

Lemma carving_walk_step (stepTime : Z) (startCell : Ref) (path : list Ref) (current : Ref) :
  Forall (in_bounds w h) path -> in_bounds w h current ->
  run_triple (W seed) (walk_step rng world stepTime startCell path current)
    (fun step s => W seed s /\ Forall (in_bounds w h) step.1 /\ in_bounds w h step.2 /\
                   last step.1 = Some step.2)
    grown.
Proof.
  intros Hpath Hcur. unfold walk_step.
  eapply (triple_bind _ _ _ _ (fun _ => W seed));
    [apply triple_update; intros s Hs; exact Hs|intros ?; cbv beta].
  eapply (triple_bind _ _ _ _ (fun c s => W seed s /\ Cell.neighbors c = adjacent w h current)).
  { apply triple_cell; [apply wilson_inv_grown|].
    intros s c Hs Hc. split; [exact Hs|].
    destruct Hs as ((_ & _ & _ & Hfields) & _). apply (Hfields current c Hc). }
  intros c. cbv beta.
  eapply (triple_bind _ _ _ _ (fun next s => W seed s /\ in_bounds w h next)).
  { apply triple_pick.
    - intros s [Hs _]. apply (wilson_inv_grown seed). exact Hs.
    - intros s next [Hs Hnb] Hnext. split; [exact Hs|].
      apply elem_of_uncarvedEdges in Hnext as [Hnext _]. rewrite Hnb in Hnext.
      apply (adjacent_sym w h current next Hcur Hnext). }
  intros next. cbv beta.
  eapply (triple_bind _ _ _ _ (fun _ s => W seed s /\ in_bounds w h next));
    [apply triple_gets; intros s Hs; exact Hs|intros size; cbv beta].
  eapply (triple_bind _ _ _ _ (fun _ s => W seed s /\ in_bounds w h next)).
  { destruct (size >? 1); [|apply triple_ret; intros s Hs; exact Hs].
    eapply (triple_bind _ _ _ _ (fun _ s => W seed s /\ in_bounds w h next));
      [apply triple_update; intros s Hs; exact Hs|intros ?; cbv beta].
    eapply (triple_bind _ _ _ _ (fun _ s => W seed s /\ in_bounds w h next)).
    { destruct (size =? 1); [apply triple_update|apply triple_ret]; intros s Hs; exact Hs. }
    intros ?. cbv beta. apply triple_await. intros s [Hs Hn] p s'.
    split; [apply (wilson_inv_grown seed); exact Hs|]. split; [exact Hs|exact Hn]. }
  intros ?. cbv beta. apply triple_ret. intros s [Hs Hn]. simpl.
  split; [exact Hs|]. split; [|split; [exact Hn|apply erase_loop_last]].
  apply erase_loop_Forall; [|exact Hn].
  apply Forall_app. split; [exact Hpath|apply Forall_singleton; exact Hcur].
Qed.

Lemma carving_walk (fuel : nat) (stepTime : Z) (startCell : Ref) :
  forall (path : list Ref) (current : Ref),
    Forall (in_bounds w h) path -> in_bounds w h current ->
    path = [] \/ last path = Some current ->
    run_triple (W seed) (walk rng world fuel stepTime startCell path current)
      (fun path' s => W seed s /\ Forall (in_bounds w h) path' /\
                      (path' = [] \/ exists c, last path' = Some c /\ c ∈ visited s))
      grown.
Proof.
  induction fuel as [|fuel IH]; intros path current Hpath Hcur Hlast; simpl.
  - eapply (triple_bind _ _ _ _
             (fun seen s => W seed s /\ seen = Set_has ref_eqb (visited s) current));
      [apply triple_gets; intros s Hs; done|intros seen; cbv beta].
    destruct seen.
    + apply triple_ret. intros s [Hs Hseen]. split; [exact Hs|]. split; [exact Hpath|].
      destruct Hlast as [->|Hlast]; [auto|]. right. exists current.
      split; [exact Hlast|]. apply Set_has_elem_of. congruence.
    + apply triple_diverge. intros s [Hs _]. apply (wilson_inv_grown seed). exact Hs.
  - eapply (triple_bind _ _ _ _
             (fun seen s => W seed s /\ seen = Set_has ref_eqb (visited s) current));
      [apply triple_gets; intros s Hs; done|intros seen; cbv beta].
    destruct seen.
    + apply triple_ret. intros s [Hs Hseen]. split; [exact Hs|]. split; [exact Hpath|].
      destruct Hlast as [->|Hlast]; [auto|]. right. exists current.
      split; [exact Hlast|]. apply Set_has_elem_of. congruence.
    + eapply triple_bind.
      * eapply triple_weaken; [apply (carving_walk_step stepTime startCell path current Hpath Hcur)
                              |intros s [Hs _]; exact Hs|intros step s Hq; exact Hq].
      * intros step. cbv beta.
        apply (triple_pure _ _ _ _
                 (Forall (in_bounds w h) step.1 /\ in_bounds w h step.2 /\
                  last step.1 = Some step.2)); [intros s (_ & ? & ? & ?); done|].
        intros (Hp' & Hc' & Hl').
        eapply triple_weaken; [apply (IH step.1 step.2 Hp' Hc'); auto
                              |intros s [Hs _]; exact Hs|intros path' s Hq; exact Hq].
Qed.

Lemma carving_walks (fuel : nat) (stepTime : Z) (startCell : Ref) :
  run_triple (W seed) (walks rng world fuel stepTime startCell)
    (fun _ s => W seed s /\ unvisited s = []) grown.
Proof.
  assert (forall size s, (size >? 0) = false -> size = Set_size (unvisited s) ->
                         unvisited s = []) as Hdone.
  { intros size s Hsize ->. unfold Set_size in Hsize.
    destruct (Z.gtb_spec (Z.of_nat (length (unvisited s))) 0) as [|Hle]; [discriminate|].
    destruct (unvisited s); [reflexivity|simpl in Hle; lia]. }
  induction fuel as [|fuel IH]; simpl.
  - eapply (triple_bind _ _ _ _ (fun size s => W seed s /\ size = Set_size (unvisited s)));
      [apply triple_gets; intros s Hs; done|intros size; cbv beta].
    destruct (size >? 0) eqn:Hsize.
    + apply triple_diverge. intros s [Hs _]. apply (wilson_inv_grown seed). exact Hs.
    + apply triple_ret. intros s [Hs Heq]. split; [exact Hs|]. eapply Hdone; eassumption.
  - eapply (triple_bind _ _ _ _ (fun size s => W seed s /\ size = Set_size (unvisited s)));
      [apply triple_gets; intros s Hs; done|intros size; cbv beta].
    destruct (size >? 0) eqn:Hsize;
      [|apply triple_ret; intros s [Hs Heq]; split; [exact Hs|eapply Hdone; eassumption]].
    eapply (triple_bind _ _ _ _ (fun u s => W seed s /\ u = unvisited s));
      [apply triple_gets; intros s [Hs _]; done|intros u; cbv beta].
    eapply (triple_bind _ _ _ _ (fun current s => W seed s /\ in_bounds w h current)).
    { apply triple_pick.
      - intros s [Hs _]. apply (wilson_inv_grown seed). exact Hs.
      - intros s current [Hs ->] Hcur. split; [exact Hs|].
        destruct Hs as (_ & _ & _ & _ & _ & Hunvis & _). apply Hunvis. exact Hcur. }
    intros current. cbv beta.
    apply (triple_pure _ _ _ _ (in_bounds w h current)); [intros s [_ ?]; done|]. intros Hcur.
    eapply triple_bind.
    { eapply triple_weaken;
        [apply (carving_walk fuel stepTime startCell [] current); [constructor|exact Hcur|auto]
        |intros s [Hs _]; exact Hs|intros path s Hq; exact Hq]. }
    intros path. cbv beta.
    eapply (triple_bind _ _ _ _ (fun _ => W seed)).
    { apply triple_update. intros s (Hs & Hpath & Hlast).
      apply carve_path_wilson_inv; assumption. }
    intros ?. exact IH.
Qed.
End Seeded.

Lemma carving_body (fuel : nat) (stepTime : Z) :
  run_triple (fun s => maze s = m0) (body rng world fuel stepTime)
    (fun n s => (exists seed, W seed s) /\ unvisited s = [] /\ n = stepsTaken s /\
                last (frames s) = Some (RenderMaze (maze s) None []) /\
                last (delays (host s)) = Some 5000)
    grown.
Proof.
  pose proof m0_grid as (Hw0 & Hh0 & Hshape0 & Hfields0).
  unfold body.
  eapply (triple_bind _ _ _ _ (fun m s => maze s = m0 /\ m = m0));
    [apply triple_gets; intros s Hs; done|intros m; cbv beta].
  apply (triple_pure _ _ _ _ (m = m0)); [intros s [_ ?]; done|]. intros ->.
  eapply (triple_bind _ _ _ _
           (fun _ s => maze s = m0 /\ unvisited s = Set_of ref_eqb (flat (Maze.cells m0))));
    [apply triple_update; intros s [Hs _]; done|intros ?; cbv beta].
  eapply (triple_bind _ _ _ _
           (fun _ s => maze s = m0 /\ unvisited s = Set_of ref_eqb (flat (Maze.cells m0)) /\
                       visited s = []));
    [apply triple_update; intros s [Hs Hu]; done|intros ?; cbv beta].
  assert (forall s, maze s = m0 -> visited s = [] -> grown s) as Hgrown0.
  { intros s -> Hv. split; [exact m0_grid|]. split; [reflexivity|]. split; [reflexivity|].
    split; [auto|]. rewrite Hv. split; [intros r Hr|intros x y Hr _]; apply elem_of_nil in Hr; done. }
  eapply (triple_bind _ _ _ _
           (fun startCell s => maze s = m0 /\
              unvisited s = Set_of ref_eqb (flat (Maze.cells m0)) /\
              visited s = [] /\ in_bounds w h startCell)).
  { apply triple_pick.
    - intros s (Hm & _ & Hv). apply Hgrown0; assumption.
    - intros s startCell (Hm & Hu & Hv) Hin. split; [exact Hm|]. split; [exact Hu|].
      split; [exact Hv|]. apply elem_of_flat in Hin.
      apply (deref_in_bounds w h _ _ Hshape0). exact Hin. }
  intros startCell. cbv beta.
  apply (triple_pure _ _ _ _ (in_bounds w h startCell)); [intros s (_ & _ & _ & ?); done|].
  intros Hseed.
  eapply (triple_bind _ _ _ _
           (fun _ s => maze s = m0 /\
              unvisited s = Set_of ref_eqb (flat (Maze.cells m0)) /\
              visited s = [startCell]));
    [apply triple_update; intros s (Hm & Hu & Hv & _); simpl; rewrite Hv; done
    |intros ?; cbv beta].
  eapply (triple_bind _ _ _ _ (fun _ => W startCell)).
  { apply triple_update. intros s (Hm & Hu & Hv). simpl. rewrite Hm, Hu, Hv.
    split; [exact m0_grid|]. split; [reflexivity|]. split; [reflexivity|]. split; [auto|].
    split; [|split].
    - intros r Hr. destruct (decide (r = startCell)) as [->|Hne].
      + left. apply list_elem_of_singleton. reflexivity.
      + right. apply Set_delete_elem_of. split; [|exact Hne].
        apply Set_of_elem_of, elem_of_flat, (deref_in_bounds w h _ _ Hshape0). exact Hr.
    - intros r Hr. apply Set_delete_elem_of in Hr as [Hr _].
      apply Set_of_elem_of, elem_of_flat in Hr.
      apply (deref_in_bounds w h _ _ Hshape0). exact Hr.
    - intros r Hr. apply list_elem_of_singleton in Hr. subst r.
      split; [exact Hseed|]. split; apply rtc_refl. }
  intros ?. cbv beta.
  eapply (triple_bind _ _ _ _ (fun _ => W startCell));
    [apply triple_update; intros s Hs; exact Hs|intros ?; cbv beta].
  eapply triple_bind; [apply (carving_walks startCell fuel stepTime startCell)|].
  intros ?. cbv beta.
  eapply (triple_bind _ _ _ _
           (fun _ s => W startCell s /\ unvisited s = [] /\
                       last (frames s) = Some (RenderMaze (maze s) None []))).
  { apply triple_update. intros s [Hs Hu]. simpl. split; [exact Hs|]. split; [exact Hu|].
    apply last_snoc. }
  intros ?. cbv beta.
  eapply (triple_bind _ _ _ _
           (fun _ s => W startCell s /\ unvisited s = [] /\
                       last (frames s) = Some (RenderMaze (maze s) None []) /\
                       last (delays (host s)) = Some 5000)).
  { apply triple_await. intros s (Hs & Hu & Hf) p s'.
    split; [apply (wilson_inv_grown startCell); exact Hs|].
    split; [exact Hs|]. split; [exact Hu|]. split; [exact Hf|].
    subst s'. simpl. rewrite while_pending_delays. simpl. apply last_snoc. }
  intros ?. cbv beta. apply triple_gets. intros s (Hs & Hu & Hf & Hd).
  split; [eauto|]. done.
Qed.
End Carving.
End WilsonCarving.

(** When a run of [wilsonsAlgorithm] on a grid has returned or thrown, and
    whenever it is followed up to the head of one of its two [while] loops,
    all it has done to the maze is carve edges: the size, [start], [end] and every cell's position and
    neighbors are as before and every edge there was is still there.  The
    cells in [visited] are cells of the grid, and each can be reached from
    each along carved edges. *)
Theorem wilson_only_carves
  (w h : Z) (m : Maze.t) (rng : nat -> Q) (world : nat -> bool) (fuel : nat)
  (signal_aborted : bool) (stepTime : Z) :
  grid_maze w h m ->
  let run := Wilson.wilsonsAlgorithm rng world fuel m signal_aborted stepTime in
  let cells := Maze.cells (Wilson.maze run.1) in
  grid_maze w h (Wilson.maze run.1) /\
  Maze.start (Wilson.maze run.1) = Maze.start m /\
  Maze.end_ (Wilson.maze run.1) = Maze.end_ m /\
  (forall a b, carved (Maze.cells m) a b -> carved cells a b) /\
  (forall r, r ∈ Wilson.visited run.1 -> in_bounds w h r) /\
  (forall a b, a ∈ Wilson.visited run.1 -> b ∈ Wilson.visited run.1 -> rtc (carved cells) a b).
Proof.
  intros Hgrid run cells.
  pose proof (WilsonCarving.carving_body w h m Hgrid rng world fuel stepTime
                (Wilson.mkState m [] [] 0 0%nat [] (mkHost signal_aborted [] [] [] [])) eq_refl)
    as Hrun.
  fold (Wilson.wilsonsAlgorithm rng world fuel m signal_aborted stepTime) in Hrun.
  fold run in Hrun.
  destruct (run.2) as [n|msg|]; [|exact Hrun|exact Hrun].
  destruct Hrun as [[seed Hinv] _].
  exact (WilsonCarving.wilson_inv_grown w h m seed run.1 Hinv).
Qed.

Lemma wilson_only_carves_witness :
  let run := Wilson.wilsonsAlgorithm (rng_of [9 # 10; 1 # 2; 1 # 2; 0 # 1; 0 # 1])
               (during 0) 20 (Maze.new 3 1) false 100 in
  run.2 = Err "aborted" /\ grid_maze 3 1 (Wilson.maze run.1).
Proof.
  split; [vm_compute; reflexivity|].
  apply (wilson_only_carves 3 1 (Maze.new 3 1) (rng_of [9 # 10; 1 # 2; 1 # 2; 0 # 1; 0 # 1])
           (during 0) 20 false 100).
  apply maze_new_grid_maze; lia.
Defined.

(** A run of [wilsonsAlgorithm] on a grid that completes has emptied
    [unvisited]: every cell of the grid is in [visited], and every cell can
    be reached from every cell along carved edges.  The value returned is the
    step counter, the last drawing shows the final maze with no current cell
    and no path, and the last delay is the one of 5000 ms. *)
Theorem wilson_completed_run_connects
  (w h : Z) (m : Maze.t) (rng : nat -> Q) (world : nat -> bool) (fuel : nat)
  (signal_aborted : bool) (stepTime : Z) (n : Z) :
  grid_maze w h m ->
  let run := Wilson.wilsonsAlgorithm rng world fuel m signal_aborted stepTime in
  run.2 = Ok n ->
  Wilson.unvisited run.1 = [] /\
  (forall r, in_bounds w h r -> r ∈ Wilson.visited run.1) /\
  connected (Maze.cells (Wilson.maze run.1)) /\
  n = Wilson.stepsTaken run.1 /\
  last (Wilson.frames run.1) = Some (RenderMaze (Wilson.maze run.1) None []) /\
  last (delays (Wilson.host run.1)) = Some 5000.
Proof.
  intros Hgrid run Hok.
  pose proof (WilsonCarving.carving_body w h m Hgrid rng world fuel stepTime
                (Wilson.mkState m [] [] 0 0%nat [] (mkHost signal_aborted [] [] [] [])) eq_refl)
    as Hrun.
  fold (Wilson.wilsonsAlgorithm rng world fuel m signal_aborted stepTime) in Hrun.
  fold run in Hrun. rewrite Hok in Hrun.
  destruct Hrun as ([seed Hinv] & Hu & Hn & Hf & Hd).
  destruct Hinv as ((_ & _ & Hshape & _) & _ & _ & _ & Hcover & _ & Hvis).
  assert (forall r, in_bounds w h r -> r ∈ Wilson.visited run.1) as Hall.
  { intros r Hr. destruct (Hcover r Hr) as [Hin|Hin]; [exact Hin|].
    rewrite Hu in Hin. apply elem_of_nil in Hin. done. }
  split; [exact Hu|]. split; [exact Hall|]. split; [|done].
  intros a b Ha Hb.
  apply elem_of_flat, (deref_in_bounds w h _ _ Hshape) in Ha, Hb.
  etransitivity; [apply (Hvis a (Hall a Ha))|apply (Hvis b (Hall b Hb))].
Qed.

Lemma wilson_completed_run_connects_witness :
  let run := Wilson.wilsonsAlgorithm (rng_of [9 # 10; 0 # 1; 0 # 1; 9 # 10]) never 20
               (Maze.new 3 1) false 100 in
  run.2 = Ok 2 /\ Wilson.unvisited run.1 = [] /\
  connected (Maze.cells (Wilson.maze run.1)).
Proof.
  assert ((Wilson.wilsonsAlgorithm (rng_of [9 # 10; 0 # 1; 0 # 1; 9 # 10]) never 20
             (Maze.new 3 1) false 100).2 = Ok 2) as Hok by (vm_compute; reflexivity).
  split; [exact Hok|].
  destruct (wilson_completed_run_connects 3 1 (Maze.new 3 1)
              (rng_of [9 # 10; 0 # 1; 0 # 1; 9 # 10]) never 20 false 100 2
              (maze_new_grid_maze 3 1 eq_refl eq_refl) Hok) as (Hu & _ & Hconn & _).
  split; [exact Hu|exact Hconn].
Defined.

(** ** Drawing the maze *)

Section DrawingFacts.
Context {num : Type} {numbers : JSNumber num}.

Lemma includes_elem_of (arr : list Ref) (c : Ref) : Canvas.includes arr c = true <-> c ∈ arr.
Proof.
  unfold Canvas.includes. rewrite existsb_exists. split.
  - intros (a & Ha & Heq). apply ref_eqb_eq in Heq. subst a. apply list_elem_of_In. exact Ha.
  - intros Hc. exists c. split; [apply list_elem_of_In; exact Hc|apply ref_eqb_refl].
Qed.

Lemma count_calls_app (kind : CanvasCall num -> bool) (a b : list (CanvasCall num)) :
  count_calls kind (a ++ b) = count_calls kind a + count_calls kind b.
Proof. unfold count_calls. rewrite List.filter_app, length_app. lia. Qed.

Lemma lines_out_counts (cells : Cells) (cx cy cellSize : num) (edges : list Ref) :
  Forall (fun e => is_Some (deref cells e)) edges ->
  exists lines,
    Canvas.lines_out cells cx cy cellSize edges = Some lines /\
    count_calls is_LineTo lines = Z.of_nat (length edges) /\
    count_calls is_Stroke lines = 0 /\ count_calls is_FillRect lines = 0 /\
    count_calls is_ArcTo lines = 0.
Proof.
  induction 1 as [|e edges [n Hn] _ (lines & Hlines & H1 & H2 & H3 & H4)]; simpl.
  - exists []. done.
  - rewrite Hn, Hlines. eexists. split; [reflexivity|].
    unfold count_calls in *. simpl. repeat split; lia.
Qed.

Lemma render_cell_counts (cells : Cells) (cur : option Ref) (path : list Ref)
  (cellSize : num) (r : Ref) (c : Cell.t) :
  edges_in_grid cells -> deref cells r = Some c ->
  exists calls,
    Canvas.render_cell cells cur path cellSize r = Some calls /\
    count_calls is_LineTo calls = Z.of_nat (length (Cell.edges c)) /\
    count_calls is_Stroke calls = (if decide (Cell.edges c = []) then 0 else 1) /\
    count_calls is_FillRect calls = (if decide (r ∈ path) then 1 else 0) /\
    count_calls is_ArcTo calls = (if decide (cur = Some r) then 1 else 0).
Proof.
  intros Hvalid Hc. unfold Canvas.render_cell. rewrite Hc.
  assert (exists outs, Canvas.drawOuts cells c cellSize = Some outs /\
            count_calls is_LineTo outs = Z.of_nat (length (Cell.edges c)) /\
            count_calls is_Stroke outs = (if decide (Cell.edges c = []) then 0 else 1) /\
            count_calls is_FillRect outs = 0 /\ count_calls is_ArcTo outs = 0)
    as (outs & -> & Ho1 & Ho2 & Ho3 & Ho4).
  { unfold Canvas.drawOuts.
    destruct (lines_out_counts cells (Canvas.getCenter c cellSize).1
                (Canvas.getCenter c cellSize).2 cellSize (Cell.edges c))
      as (lines & Hlines & H1 & H2 & H3 & H4).
    { apply Forall_forall. intros e He. eapply Hvalid; eassumption. }
    destruct (Cell.edges c) as [|e es] eqn:He; [exists []; done|].
    rewrite Hlines. eexists. split; [reflexivity|].
    rewrite !count_calls_app, H1, H2, H3, H4.
    destruct (decide (e :: es = [])); [discriminate|]. done. }
  eexists. split; [reflexivity|].
  assert (forall kind : CanvasCall num -> bool,
            kind BeginPath = false -> kind ClosePath = false ->
            (forall x y, kind (MoveTo x y) = false) -> (forall s, kind (SetFillStyle s) = false) ->
            count_calls kind (if Canvas.includes path r
                              then Canvas.fillSelf c cellSize "#888" else [])
            = if decide (r ∈ path)
              then (if kind (FillRect (Canvas.getTopLeft c cellSize).1
                                      (Canvas.getTopLeft c cellSize).2 cellSize cellSize)
                    then 1 else 0)
              else 0) as Hfill.
  { intros kind Hb Hcl Hm Hs. destruct (Canvas.includes path r) eqn:Hinc.
    - apply includes_elem_of in Hinc. destruct (decide (r ∈ path)); [|done].
      unfold count_calls, Canvas.fillSelf. simpl. rewrite Hb, Hcl, Hm, Hs.
      destruct (kind (FillRect _ _ _ _)); reflexivity.
    - destruct (decide (r ∈ path)) as [Hin|]; [|reflexivity].
      apply includes_elem_of in Hin. congruence. }
  assert (forall kind : CanvasCall num -> bool,
            kind BeginPath = false -> kind ClosePath = false ->
            kind Fill = false -> (forall s, kind (SetFillStyle s) = false) ->
            count_calls kind
              match cur with
              | Some cur0 =>
                  if ref_eqb cur0 r
                  then [BeginPath;
                        ArcTo (Canvas.getCenter c cellSize).1 (Canvas.getCenter c cellSize).2
                          (div cellSize (of_int 4)) (of_int 0) (mul (of_int 2) Math_PI);
                        SetFillStyle "firebrick"; Fill; ClosePath]
                  else []
              | None => []
              end
            = if decide (cur = Some r)
              then (if kind (ArcTo (Canvas.getCenter c cellSize).1
                               (Canvas.getCenter c cellSize).2
                               (div cellSize (of_int 4)) (of_int 0) (mul (of_int 2) Math_PI))
                    then 1 else 0)
              else 0) as Hmark.
  { intros kind Hb Hcl Hf Hs. destruct cur as [cur0|].
    - destruct (ref_eqb cur0 r) eqn:Heq.
      + apply ref_eqb_eq in Heq. subst cur0. destruct (decide (Some r = Some r)); [|done].
        unfold count_calls. simpl. rewrite Hb, Hcl, Hf, Hs.
        destruct (kind (ArcTo _ _ _ _ _)); reflexivity.
      + apply ref_eqb_neq in Heq. destruct (decide (Some cur0 = Some r)); [congruence|done].
    - destruct (decide (None = Some r)); [discriminate|reflexivity]. }
  rewrite !count_calls_app, Ho1, Ho2, Ho3, Ho4.
  rewrite !Hfill, !Hmark by done. simpl.
  destruct (decide (r ∈ path)), (decide (cur = Some r)), (decide (Cell.edges c = [])); lia.
Qed.

Lemma render_cells_counts (cells : Cells) (cur : option Ref) (path : list Ref)
  (cellSize : num) (rs : list Ref) (cs : list Cell.t) :
  edges_in_grid cells -> Forall2 (fun r c => deref cells r = Some c) rs cs ->
  exists calls,
    Canvas.render_cells cells cur path cellSize rs = Some calls /\
    count_calls is_LineTo calls = Z.of_nat (sum_list_with (fun c => length (Cell.edges c)) cs) /\
    count_calls is_Stroke calls
      = Z.of_nat (length (filter (fun c => Cell.edges c <> []) cs)) /\
    count_calls is_FillRect calls = Z.of_nat (length (filter (fun r => r ∈ path) rs)) /\
    count_calls is_ArcTo calls = Z.of_nat (length (filter (fun r => cur = Some r) rs)).
Proof.
  intros Hvalid. induction 1 as [|r c rs cs Hc _ (more & Hmore & H1 & H2 & H3 & H4)]; simpl.
  - exists []. done.
  - destruct (render_cell_counts cells cur path cellSize r c Hvalid Hc)
      as (calls & -> & C1 & C2 & C3 & C4).
    rewrite Hmore. eexists. split; [reflexivity|].
    rewrite !count_calls_app, H1, H2, H3, H4, C1, C2, C3, C4, !filter_cons.
    destruct (decide (Cell.edges c = [])), (decide (Cell.edges c <> [])),
      (decide (r ∈ path)), (decide (cur = Some r)); simpl; try done; repeat split; lia.
Qed.
End DrawingFacts.

(** [flat] lists the references to the cells in the order of the rows. *)
Lemma deref_flat (cells : Cells) :
  Forall2 (fun r c => deref cells r = Some c) (flat cells) (mjoin cells).
Proof.
  unfold flat.
  assert (forall (k : nat) (rows : Cells),
            (forall j row, rows !! j = Some row -> cells !! (k + j)%nat = Some row) ->
            Forall2 (fun r c => deref cells r = Some c)
              (mjoin (imap (fun y row =>
                              imap (fun x (_ : Cell.t) => (Z.of_nat x, Z.of_nat (k + y))) row)
                        rows))
              (mjoin rows)) as Hrows.
  { intros k rows. revert k. induction rows as [|row rows IH]; intros k Hk; simpl; [constructor|].
    apply Forall2_app.
    - assert (cells !! k = Some row) as Hrow.
      { specialize (Hk 0%nat row eq_refl). rewrite Nat.add_0_r in Hk. exact Hk. }
      rewrite Nat.add_0_r.
      assert (forall (i : nat) (cs : list Cell.t),
                (forall j c, cs !! j = Some c -> row !! (i + j)%nat = Some c) ->
                Forall2 (fun r c => deref cells r = Some c)
                  (imap (fun x (_ : Cell.t) => (Z.of_nat (i + x), Z.of_nat k)) cs) cs) as Hcs.
      { intros i cs. revert i. induction cs as [|c cs IHc]; intros i Hi; simpl; [constructor|].
        constructor.
        - apply deref_Some. simpl. rewrite !Nat2Z.id.
          split; [lia|]. split; [lia|]. exists row. split; [exact Hrow|].
          apply (Hi 0%nat c eq_refl).
        - assert (Forall2 (fun r c0 => deref cells r = Some c0)
                    (imap (fun x (_ : Cell.t) => (Z.of_nat (S i + x), Z.of_nat k)) cs) cs) as Hrest.
          { apply IHc. intros j c' Hj. replace (S i + j)%nat with (i + S j)%nat by lia.
            apply Hi. exact Hj. }
          erewrite imap_ext; [exact Hrest|]. intros j c' _. simpl. f_equal. lia. }
      apply (Hcs 0%nat row). intros j c Hj. exact Hj.
    - assert (Forall2 (fun r c => deref cells r = Some c)
                (mjoin (imap (fun y row0 =>
                                imap (fun x (_ : Cell.t) => (Z.of_nat x, Z.of_nat (S k + y))) row0)
                          rows))
                (mjoin rows)) as Hrest.
      { apply IH. intros j row' Hj. replace (S k + j)%nat with (k + S j)%nat by lia.
        apply Hk. exact Hj. }
      erewrite imap_ext; [exact Hrest|]. intros j row' _. simpl.
      apply imap_ext. intros i c _. f_equal. lia. }
  apply (Hrows 0%nat cells). intros j row Hj. exact Hj.
Qed.

Lemma edges_in_grid_carveEdge (cells : Cells) (a b : Ref) :
  edges_in_grid cells -> is_Some (deref cells a) -> is_Some (deref cells b) ->
  edges_in_grid (carveEdge a b cells).
Proof.
  intros Hvalid Ha Hb r c Hc e He.
  assert (forall x, is_Some (deref cells x) -> is_Some (deref (carveEdge a b cells) x)) as Hkeep.
  { intros x [cx Hx]. rewrite carveEdge_deref, Hx. simpl. eauto. }
  rewrite carveEdge_deref in Hc.
  destruct (deref cells r) as [c0|] eqn:Hc0; [|discriminate].
  injection Hc as <-. simpl in He. apply Hkeep.
  rewrite !elem_of_app in He. destruct He as [He|[He|He]].
  - eapply Hvalid; eassumption.
  - destruct (decide (a = r)); [|apply elem_of_nil in He; done].
    apply list_elem_of_singleton in He. subst e. exact Hb.
  - destruct (decide (b = r)); [|apply elem_of_nil in He; done].
    apply list_elem_of_singleton in He. subst e. exact Ha.
Qed.

(** [renderMaze] paints the background and then draws every cell: one line
    from the centre of a cell for every entry of its [edges], so that each
    carved edge is drawn from both ends; one stroke per cell that has edges;
    one grey square per cell of the grid that occurs in [currentPath],
    however often it occurs there; and the marker on the current cell. *)
Theorem renderMaze_draws_each_edge_end {num : Type} {numbers : JSNumber num}
  (m : Maze.t) (currentCell : option Ref) (currentPath : list Ref)
  (canvas_width canvas_height : num) :
  edges_in_grid (Maze.cells m) ->
  exists calls,
    Canvas.renderMaze m currentCell currentPath canvas_width canvas_height = Some calls /\
    take 2 calls = [SetFillStyle "#000"; FillRect (of_int 0) (of_int 0) canvas_width canvas_height] /\
    count_calls is_LineTo calls = edge_entries (Maze.cells m) /\
    count_calls is_Stroke calls
      = Z.of_nat (length (filter (fun c => Cell.edges c <> []) (mjoin (Maze.cells m)))) /\
    count_calls is_FillRect calls
      = 1 + Z.of_nat (length (filter (fun r => r ∈ currentPath) (flat (Maze.cells m)))) /\
    count_calls is_ArcTo calls
      = Z.of_nat (length (filter (fun r => currentCell = Some r) (flat (Maze.cells m)))).
Proof.
  intros Hvalid. unfold Canvas.renderMaze.
  destruct (render_cells_counts (Maze.cells m) currentCell currentPath
              (div canvas_width (of_int (Maze.width m))) (flat (Maze.cells m))
              (mjoin (Maze.cells m)) Hvalid (deref_flat (Maze.cells m)))
    as (calls & -> & H1 & H2 & H3 & H4).
  eexists. split; [reflexivity|]. split; [reflexivity|].
  unfold count_calls in *. simpl. unfold edge_entries.
  split; [exact H1|]. split; [exact H2|]. split; [lia|exact H4].
Qed.

Lemma renderMaze_draws_each_edge_end_witness :
  exists calls : list (CanvasCall NumExpr),
    Canvas.renderMaze
      (Maze.with_cells (Maze.new 2 1) (carveEdge (0, 0) (1, 0) (Maze.cells (Maze.new 2 1))))
      (Some (1, 0)) [(0, 0); (0, 0)] (NInt 200) (NInt 100) = Some calls /\
    count_calls is_LineTo calls = 2 /\ count_calls is_FillRect calls = 2.
Proof.
  destruct (renderMaze_draws_each_edge_end (num := NumExpr)
              (Maze.with_cells (Maze.new 2 1) (carveEdge (0, 0) (1, 0) (Maze.cells (Maze.new 2 1))))
              (Some (1, 0)) [(0, 0); (0, 0)] (NInt 200) (NInt 100))
    as (calls & Hrun & _ & Hlines & _ & Hrects & _).
  - apply edges_in_grid_carveEdge; [|vm_compute; eauto|vm_compute; eauto].
    intros r c Hc e He. rewrite (maze_new_edges 2 1 r c eq_refl eq_refl Hc) in He.
    apply elem_of_nil in He. done.
  - exists calls. split; [exact Hrun|]. split; [exact Hlines|exact Hrects].
Defined.

(** The cells of [currentPath] are looked up with [includes]: a path that
    lists the same cells, in any order and any number of times, is drawn
    with the same calls. *)
Theorem renderMaze_path_as_set {num : Type} {numbers : JSNumber num}
  (m : Maze.t) (currentCell : option Ref) (path path' : list Ref)
  (canvas_width canvas_height : num) :
  (forall r, r ∈ path <-> r ∈ path') ->
  Canvas.renderMaze m currentCell path canvas_width canvas_height
  = Canvas.renderMaze m currentCell path' canvas_width canvas_height.
Proof.
  intros Hsame. unfold Canvas.renderMaze.
  assert (forall r, Canvas.includes path r = Canvas.includes path' r) as Hinc.
  { intros r. destruct (Canvas.includes path r) eqn:H1, (Canvas.includes path' r) eqn:H2;
      try reflexivity.
    - apply includes_elem_of, Hsame, includes_elem_of in H1. congruence.
    - apply includes_elem_of, Hsame, includes_elem_of in H2. congruence. }
  assert (forall cs rs,
            Canvas.render_cells (Maze.cells m) currentCell path cs rs
            = Canvas.render_cells (Maze.cells m) currentCell path' cs rs) as ->; [|reflexivity].
  intros cs rs. induction rs as [|r rs IH]; simpl; [reflexivity|].
  rewrite IH. unfold Canvas.render_cell. rewrite Hinc. reflexivity.
Qed.

Lemma renderMaze_path_as_set_witness :
  Canvas.renderMaze (Maze.new 3 1) (Some (2, 0)) [(0, 0); (1, 0); (1, 0); (2, 0)]
    (NInt 300) (NInt 100)
  = Canvas.renderMaze (Maze.new 3 1) (Some (2, 0)) [(2, 0); (1, 0); (0, 0)]
      (NInt 300) (NInt 100).
Proof.
  apply (renderMaze_path_as_set (num := NumExpr)).
  intros r. rewrite !elem_of_cons, !elem_of_nil. tauto.
Defined.

(** A maze in which nothing is carved, drawn with no path and no current
    cell, is the black background and nothing else. *)
Theorem renderMaze_uncarved_is_black {num : Type} {numbers : JSNumber num}
  (m : Maze.t) (canvas_width canvas_height : num) :
  (forall r c, deref (Maze.cells m) r = Some c -> Cell.edges c = []) ->
  Canvas.renderMaze m None [] canvas_width canvas_height
  = Some [SetFillStyle "#000"; FillRect (of_int 0) (of_int 0) canvas_width canvas_height].
Proof.
  intros Hnone. unfold Canvas.renderMaze.
  assert (forall cs rs, Forall (fun r => is_Some (deref (Maze.cells m) r)) rs ->
            Canvas.render_cells (Maze.cells m) None [] cs rs = Some []) as Hcells.
  { intros cs rs. induction 1 as [|r rs [c Hc] _ IH]; simpl; [reflexivity|].
    rewrite IH. unfold Canvas.render_cell, Canvas.drawOuts. rewrite Hc.
    rewrite (Hnone r c Hc). reflexivity. }
  rewrite Hcells; [reflexivity|].
  apply Forall_forall. intros r Hr. apply elem_of_flat. exact Hr.
Qed.

Lemma renderMaze_uncarved_is_black_witness :
  Canvas.renderMaze (Maze.new 3 2) None [] (NInt 300) (NInt 200)
  = Some [SetFillStyle "#000"; FillRect (NInt 0) (NInt 0) (NInt 300) (NInt 200)].
Proof.
  exact (renderMaze_uncarved_is_black (num := NumExpr) (Maze.new 3 2) (NInt 300) (NInt 200)
           (fun r c Hc => maze_new_edges 3 2 r c eq_refl eq_refl Hc)).
Defined.

(** ** The drag-select grid: keys *)

Lemma split_no_sep (sep : ascii) (s : string) :
  ~ In sep (list_ascii_of_string s) -> SquareFlipper.split sep s = [s].
Proof.
  induction s as [|a s IH]; simpl; [reflexivity|]. intros Hout.
  destruct (Ascii.eqb_spec a sep) as [->|_]; [exfalso; apply Hout; auto|].
  rewrite IH by (intros Hin; apply Hout; auto). reflexivity.
Qed.

Lemma split_at_sep (sep : ascii) (s1 s2 : string) :
  ~ In sep (list_ascii_of_string s1) ->
  SquareFlipper.split sep (String.append s1 (String sep s2)) = s1 :: SquareFlipper.split sep s2.
Proof.
  induction s1 as [|a s1 IH]; simpl; intros Hout.
  - rewrite Ascii.eqb_refl. reflexivity.
  - destruct (Ascii.eqb_spec a sep) as [->|_]; [exfalso; apply Hout; auto|].
    rewrite IH by (intros Hin; apply Hout; auto). reflexivity.
Qed.

Lemma String_of_int_no_comma (n : Z) :
  ~ In ","%char (list_ascii_of_string (SquareFlipper.String_of_int n)).
Proof.
  assert (forall d, ~ In ","%char (list_ascii_of_string (NilEmpty.string_of_uint d))) as Hu.
  { induction d; simpl; try tauto; intros [Heq|Hin]; try discriminate; tauto. }
  assert (forall d, ~ In ","%char (list_ascii_of_string (NilZero.string_of_uint d))) as Hz.
  { intros d. destruct d; try apply Hu. simpl. intros [Heq|[]]. discriminate. }
  unfold SquareFlipper.String_of_int. destruct (Z.to_int n) as [d|d]; simpl.
  - apply Hz.
  - intros [Heq|Hin]; [discriminate|]. exact (Hz d Hin).
Qed.

Lemma ToNumber_String_of_int (n : Z) :
  SquareFlipper.ToNumber (SquareFlipper.String_of_int n) = Some n.
Proof.
  unfold SquareFlipper.ToNumber, SquareFlipper.String_of_int.
  rewrite NilZero.isi.
  - simpl. rewrite DecimalZ.of_to. reflexivity.
  - destruct n as [|p|p]; simpl; try discriminate.
    intros [= Hp]. exact (Unsigned.to_uint_nonnil p Hp).
  - destruct n as [|p|p]; simpl; try discriminate.
    intros [= Hp]. exact (Unsigned.to_uint_nonnil p Hp).
Qed.

Lemma parseKey_of_key (r c : Z) :
  SquareFlipper.parseKey (SquareFlipper.key r c) = Some (r, c).
Proof.
  unfold SquareFlipper.parseKey, SquareFlipper.key.
  rewrite split_at_sep by apply String_of_int_no_comma.
  rewrite split_no_sep by apply String_of_int_no_comma.
  simpl. rewrite !ToNumber_String_of_int. reflexivity.
Qed.

Lemma key_inj (r c r' c' : Z) :
  SquareFlipper.key r c = SquareFlipper.key r' c' -> (r, c) = (r', c').
Proof.
  intros Heq. pose proof (parseKey_of_key r c) as H1.
  rewrite Heq, parseKey_of_key in H1. congruence.
Qed.

(** [parseKey] undoes [key]: for all integers [r] and [c] the key
    [`${r},${c}`] parses back to [{ r, c }], so different cells have
    different keys. *)
Theorem parseKey_key (r c : Z) :
  SquareFlipper.parseKey (SquareFlipper.key r c) = Some (r, c) /\
  forall r' c', SquareFlipper.key r c = SquareFlipper.key r' c' -> r = r' /\ c = c'.
Proof.
  split; [apply parseKey_of_key|].
  intros r' c' Heq. apply key_inj in Heq. injection Heq as -> ->. done.
Qed.

(** ** The drag-select grid: selecting *)

Lemma Set_has_keys_of (cells : list (Z * Z)) (r c : Z) :
  Set_has String.eqb (keys_of cells) (SquareFlipper.key r c) = true <-> (r, c) ∈ cells.
Proof.
  unfold Set_has, keys_of. rewrite existsb_exists. split.
  - intros (k & Hk & Heq). apply String.eqb_eq in Heq. subst k.
    apply in_map_iff in Hk as ([r' c'] & Heq & Hin). simpl in Heq.
    apply key_inj in Heq. rewrite <- Heq. apply list_elem_of_In. exact Hin.
  - intros Hin. exists (SquareFlipper.key r c). split; [|apply String.eqb_refl].
    apply in_map_iff. exists (r, c). split; [reflexivity|apply list_elem_of_In; exact Hin].
Qed.

Lemma any_adjacent_keys_of (cells : list (Z * Z)) (r c : Z) :
  SquareFlipper.any_adjacent r c (keys_of cells)
  = Some (bool_decide (Exists (fun p => manhattan p (r, c) = 1) cells)).
Proof.
  induction cells as [|[rr cc] cells IH]; simpl.
  - reflexivity.
  - rewrite parseKey_of_key.
    destruct (Z.eqb_spec (Z.abs (rr - r) + Z.abs (cc - c)) 1) as [Hadj|Hfar].
    + rewrite bool_decide_eq_true_2; [reflexivity|]. apply Exists_cons. left. exact Hadj.
    + rewrite IH. f_equal. apply bool_decide_ext. rewrite Exists_cons.
      unfold manhattan at 2. simpl. tauto.
Qed.

Lemma parse_all_keys_of (cells : list (Z * Z)) :
  SquareFlipper.parse_all (keys_of cells) = Some cells.
Proof.
  induction cells as [|[r c] cells IH]; simpl; [reflexivity|].
  rewrite parseKey_of_key, IH. reflexivity.
Qed.

Lemma select_more_keys_of (cells : list (Z * Z)) (r c : Z) :
  SquareFlipper.select_more r c (keys_of cells)
  = Some (keys_of
            (if decide ((r, c) ∈ cells) then cells
             else if decide (cells = [] \/ Exists (fun p => manhattan p (r, c) = 1) cells)
                  then cells ++ [(r, c)]
                  else cells)).
Proof.
  unfold SquareFlipper.select_more.
  destruct (Set_has String.eqb (keys_of cells) (SquareFlipper.key r c)) eqn:Hhas.
  - apply Set_has_keys_of in Hhas. destruct (decide ((r, c) ∈ cells)); [reflexivity|done].
  - destruct (decide ((r, c) ∈ cells)) as [Hin|_];
      [apply Set_has_keys_of in Hin; congruence|].
    assert (Set_add String.eqb (keys_of cells) (SquareFlipper.key r c)
            = keys_of (cells ++ [(r, c)])) as Hadd.
    { unfold Set_add. rewrite Hhas. unfold keys_of. rewrite map_app. reflexivity. }
    unfold SquareFlipper.isOrthAdjacentToAnySelected, Set_size.
    destruct cells as [|cell cells].
    + reflexivity.
    + destruct (Z.eqb_spec (Z.of_nat (length (keys_of (cell :: cells)))) 0) as [Hlen|_];
        [simpl in Hlen; lia|].
      rewrite any_adjacent_keys_of. case_bool_decide as Hadj.
      * destruct (decide _) as [_|Hno]; [|exfalso; apply Hno; auto].
        rewrite Hadd. reflexivity.
      * destruct (decide _) as [[?|?]|_]; [discriminate|done|reflexivity].
Qed.

(** The updater of [handlePointerEnter] never removes a cell and adds at
    most the cell entered: it adds it exactly when it is not selected yet
    and either nothing is selected or some selected cell is one of its four
    [neighbors]; otherwise it returns the selection as it was. *)
Theorem select_more_adds_adjacent (cells : list (Z * Z)) (r c : Z) :
  let adjacent := exists n, n ∈ SquareFlipper.neighbors r c /\ n ∈ cells in
  (adjacent <-> Exists (fun p => manhattan p (r, c) = 1) cells) /\
  ((r, c) ∉ cells -> cells = [] \/ adjacent ->
   SquareFlipper.select_more r c (keys_of cells) = Some (keys_of cells ++ [SquareFlipper.key r c])) /\
  ((r, c) ∈ cells \/ (cells <> [] /\ ~ adjacent) ->
   SquareFlipper.select_more r c (keys_of cells) = Some (keys_of cells)).
Proof.
  intros adjacent.
  assert (adjacent <-> Exists (fun p => manhattan p (r, c) = 1) cells) as Hadj.
  { subst adjacent. rewrite Exists_exists. unfold SquareFlipper.neighbors, manhattan.
    split.
    - intros (n & Hn & Hin). exists n. split; [exact Hin|].
      rewrite !elem_of_cons, elem_of_nil in Hn. simpl.
      destruct Hn as [->|[->|[->|[->|[]]]]]; simpl; lia.
    - intros ([rr cc] & Hin & Hd). simpl in Hd. exists (rr, cc). split; [|exact Hin].
      rewrite !elem_of_cons, !pair_equal_spec. lia. }
  split; [exact Hadj|]. rewrite select_more_keys_of. split.
  - intros Hout Hok. destruct (decide ((r, c) ∈ cells)); [done|].
    destruct (decide _) as [_|Hno].
    + unfold keys_of. rewrite map_app. reflexivity.
    + exfalso. apply Hno. rewrite <- Hadj. exact Hok.
  - intros [Hin|[Hne Hfar]].
    + destruct (decide ((r, c) ∈ cells)); [reflexivity|done].
    + destruct (decide ((r, c) ∈ cells)); [reflexivity|].
      destruct (decide _) as [[?|Hex]|_]; [done| |reflexivity].
      exfalso. apply Hfar, Hadj, Hex.
Qed.

Lemma select_more_adds_adjacent_witness :
  SquareFlipper.select_more 2 3 (keys_of [(1, 1); (1, 2); (2, 2)])
  = Some (keys_of [(1, 1); (1, 2); (2, 2)] ++ [SquareFlipper.key 2 3]).
Proof.
  destruct (select_more_adds_adjacent [(1, 1); (1, 2); (2, 2)] 2 3) as (_ & Hadd & _).
  apply Hadd.
  - rewrite !elem_of_cons, elem_of_nil, !pair_equal_spec. lia.
  - right. exists (2, 2). unfold SquareFlipper.neighbors. simpl.
    rewrite !elem_of_cons. auto 10.
Defined.

Lemma manhattan_sym (a b : Z * Z) : manhattan a b = manhattan b a.
Proof. unfold manhattan. lia. Qed.

Lemma orth_connected_add (cells : list (Z * Z)) (x p : Z * Z) :
  orth_connected cells -> p ∈ cells -> manhattan p x = 1 -> orth_connected (cells ++ [x]).
Proof.
  intros Hconn Hp Hpx.
  assert (forall a b, a ∈ cells -> b ∈ cells ->
            rtc (fun p q => q ∈ cells ++ [x] /\ manhattan p q = 1) a b) as Hold.
  { intros a b Ha Hb. eapply rtc_subrel; [|apply Hconn; assumption].
    intros u v [Hv Hd]. split; [apply elem_of_app; auto|exact Hd]. }
  assert (x ∈ cells ++ [x]) as Hx
    by (apply elem_of_app; right; apply list_elem_of_singleton; reflexivity).
  assert (p ∈ cells ++ [x]) as Hp' by (apply elem_of_app; auto).
  intros a b Ha Hb. apply elem_of_app in Ha, Hb.
  rewrite list_elem_of_singleton in Ha, Hb.
  destruct Ha as [Ha| ->], Hb as [Hb| ->].
  - apply Hold; assumption.
  - eapply rtc_r; [apply (Hold a p Ha Hp)|]. split; assumption.
  - eapply rtc_l; [|apply (Hold p b Hp Hb)]. split; [exact Hp'|].
    rewrite manhattan_sym. exact Hpx.
  - apply rtc_refl.
Qed.

Lemma handle_keeps_selection (s : SquareFlipper.State) (e : SquareFlipper.Event)
  (cells : list (Z * Z)) :
  SquareFlipper.selected s = keys_of cells -> NoDup cells -> orth_connected cells ->
  (SquareFlipper.isSelecting s = true -> cells <> []) ->
  exists s' cells',
    SquareFlipper.handle s e = Some s' /\
    SquareFlipper.selected s' = keys_of cells' /\ NoDup cells' /\ orth_connected cells' /\
    (SquareFlipper.isSelecting s' = true -> cells' <> []).
Proof.
  intros Hsel Hnd Hconn Hne.
  assert (orth_connected []) as Hnil by (intros a b Ha; apply elem_of_nil in Ha; done).
  destruct e as [r c|r c| | |]; simpl.
  - exists (SquareFlipper.handlePointerDown r c s), [(r, c)].
    split; [reflexivity|]. split; [reflexivity|]. split; [apply NoDup_singleton|].
    split; [|discriminate].
    intros a b Ha Hb. apply list_elem_of_singleton in Ha, Hb. subst a b. apply rtc_refl.
  - unfold SquareFlipper.handlePointerEnter.
    destruct (SquareFlipper.isSelecting s) eqn:Hsl; simpl; [|exists s, cells; split_and!; [reflexivity|assumption|assumption|assumption|congruence]].
    rewrite Hsel, select_more_keys_of. eexists. eexists. split; [reflexivity|]. simpl.
    split; [reflexivity|].
    destruct (decide ((r, c) ∈ cells)) as [Hin|Hout]; [done|].
    destruct (decide _) as [[Hempty|Hadj]|_]; [exfalso; apply Hne; done| |done].
    apply Exists_exists in Hadj as (p & Hp & Hd).
    split; [apply NoDup_app; split; [exact Hnd|]; split;
            [intros x Hx Hx'; apply list_elem_of_singleton in Hx'; congruence
            |apply NoDup_singleton]|].
    split; [eapply orth_connected_add; eassumption|].
    intros _ Hnil'. apply app_eq_nil in Hnil' as [_ ?]. discriminate.
  - unfold SquareFlipper.finishAndLog.
    destruct (SquareFlipper.isSelecting s) eqn:Hsl; simpl; [|exists s, cells; split_and!; [reflexivity|assumption|assumption|assumption|congruence]].
    rewrite Hsel, parse_all_keys_of. eexists. exists cells. split; [reflexivity|]. simpl.
    split_and!; [reflexivity|assumption|assumption|discriminate].
  - unfold SquareFlipper.cancelSelection.
    destruct (SquareFlipper.isSelecting s) eqn:Hsl; simpl; [|exists s, cells; split_and!; [reflexivity|assumption|assumption|assumption|congruence]].
    eexists. exists []. split; [reflexivity|]. simpl.
    split; [reflexivity|]. split; [apply NoDup_nil; done|]. split; [exact Hnil|discriminate].
  - unfold SquareFlipper.cancelSelection.
    destruct (SquareFlipper.isSelecting s) eqn:Hsl; simpl; [|exists s, cells; split_and!; [reflexivity|assumption|assumption|assumption|congruence]].
    eexists. exists []. split; [reflexivity|]. simpl.
    split; [reflexivity|]. split; [apply NoDup_nil; done|]. split; [exact Hnil|discriminate].
Qed.

(** Whatever pointer events the component receives, its selection is a set
    of distinct cells that hang together: every selected cell is reached
    from every other through orthogonally adjacent selected cells.  While a
    drag is on, the selection is never empty, so [handlePointerEnter] never
    takes the branch of [isOrthAdjacentToAnySelected] for an empty set. *)
Theorem selection_stays_connected (events : list SquareFlipper.Event) :
  exists s cells,
    SquareFlipper.run SquareFlipper.initial events = Some s /\
    SquareFlipper.selected s = keys_of cells /\
    NoDup cells /\ orth_connected cells /\
    (SquareFlipper.isSelecting s = true -> cells <> []).
Proof.
  assert (forall s cells,
            SquareFlipper.selected s = keys_of cells -> NoDup cells -> orth_connected cells ->
            (SquareFlipper.isSelecting s = true -> cells <> []) ->
            exists s' cells',
              SquareFlipper.run s events = Some s' /\
              SquareFlipper.selected s' = keys_of cells' /\ NoDup cells' /\
              orth_connected cells' /\
              (SquareFlipper.isSelecting s' = true -> cells' <> [])) as Hrun.
  { induction events as [|e events IH]; intros s cells Hsel Hnd Hconn Hne; simpl.
    - exists s, cells. done.
    - destruct (handle_keeps_selection s e cells Hsel Hnd Hconn Hne)
        as (s1 & cells1 & -> & Hsel1 & Hnd1 & Hconn1 & Hne1).
      apply (IH s1 cells1); assumption. }
  apply (Hrun SquareFlipper.initial []).
  - reflexivity.
  - apply NoDup_nil. done.
  - intros a b Ha. apply elem_of_nil in Ha. done.
  - discriminate.
Qed.

(** ** The drag-select grid: logging *)

Lemma row_major_le_spec (a b : Z * Z) :
  SquareFlipper.row_major a b <= 0 <-> row_major_le a b.
Proof.
  unfold SquareFlipper.row_major, row_major_le.
  destruct (Z.eqb_spec (a.1 - b.1) 0); simpl; lia.
Qed.

Lemma row_major_le_total (a b : Z * Z) : row_major_le a b \/ row_major_le b a.
Proof. unfold row_major_le. lia. Qed.

Lemma row_major_le_trans (a b c : Z * Z) :
  row_major_le a b -> row_major_le b c -> row_major_le a c.
Proof. unfold row_major_le. lia. Qed.

Lemma row_major_le_antisym (a b : Z * Z) : row_major_le a b -> row_major_le b a -> a = b.
Proof. unfold row_major_le. destruct a, b. simpl. intros. f_equal; lia. Qed.

Lemma sort_insert_Permutation {A} (compare : A -> A -> Z) (x : A) (l : list A) :
  SquareFlipper.sort_insert compare x l ≡ₚ x :: l.
Proof.
  induction l as [|y l IH]; simpl; [reflexivity|].
  destruct (compare x y <=? 0); [reflexivity|].
  rewrite IH. apply Permutation_swap.
Qed.

Lemma Array_sort_Permutation {A} (compare : A -> A -> Z) (l : list A) :
  SquareFlipper.Array_sort compare l ≡ₚ l.
Proof.
  induction l as [|x l IH]; simpl; [reflexivity|].
  rewrite sort_insert_Permutation. rewrite IH. reflexivity.
Qed.

Lemma sort_insert_sorted (x : Z * Z) (l : list (Z * Z)) :
  StronglySorted row_major_le l ->
  StronglySorted row_major_le (SquareFlipper.sort_insert SquareFlipper.row_major x l).
Proof.
  induction 1 as [|y l Hl IH Hy]; simpl.
  - constructor; constructor.
  - destruct (Z.leb_spec (SquareFlipper.row_major x y) 0) as [Hle|Hgt].
    + apply row_major_le_spec in Hle. constructor; [constructor; assumption|].
      constructor; [exact Hle|]. eapply Forall_impl; [exact Hy|].
      intros z Hz. eapply row_major_le_trans; eassumption.
    + assert (row_major_le y x) as Hyx.
      { destruct (row_major_le_total x y) as [Hxy|Hyx]; [|exact Hyx].
        apply row_major_le_spec in Hxy. lia. }
      constructor; [exact IH|].
      apply Forall_forall. intros z Hz.
      rewrite (sort_insert_Permutation SquareFlipper.row_major x l) in Hz.
      apply elem_of_cons in Hz as [->|Hz]; [exact Hyx|].
      rewrite Forall_forall in Hy. apply Hy. exact Hz.
Qed.

Lemma Array_sort_sorted (l : list (Z * Z)) :
  StronglySorted row_major_le (SquareFlipper.Array_sort SquareFlipper.row_major l).
Proof.
  induction l as [|x l IH]; simpl; [constructor|]. apply sort_insert_sorted. exact IH.
Qed.

Lemma row_major_sorted_unique (l1 l2 : list (Z * Z)) :
  StronglySorted row_major_le l1 -> StronglySorted row_major_le l2 -> l1 ≡ₚ l2 -> l1 = l2.
Proof.
  revert l2. induction l1 as [|x l1 IH]; intros l2 H1 H2 Hp.
  - apply Permutation_nil_l in Hp. congruence.
  - destruct l2 as [|y l2]; [apply Permutation_nil_r in Hp; discriminate|].
    apply StronglySorted_inv in H1 as [H1 Hx]. apply StronglySorted_inv in H2 as [H2 Hy].
    rewrite Forall_forall in Hx, Hy.
    assert (x = y) as ->.
    { assert (x ∈ y :: l2) as Hxin by (rewrite <- Hp; apply elem_of_cons; auto).
      assert (y ∈ x :: l1) as Hyin by (rewrite Hp; apply elem_of_cons; auto).
      apply elem_of_cons in Hxin as [?|Hxin]; [assumption|].
      apply elem_of_cons in Hyin as [?|Hyin]; [congruence|].
      apply row_major_le_antisym; [apply Hx, Hyin|apply Hy, Hxin]. }
    f_equal. apply IH; [assumption|assumption|]. eapply Permutation_cons_inv. exact Hp.
Qed.

(** On pointer up during a drag, [finishAndLog] logs the selected cells in
    row-major order (by row, then by column) and then the same list with
    1-based coordinates, whatever the order in which the cells were
    selected; it ends the drag and keeps the selection.  Outside a drag it
    does nothing. *)
Theorem finishAndLog_logs_row_major (s : SquareFlipper.State) (cells : list (Z * Z)) :
  SquareFlipper.selected s = keys_of cells ->
  (SquareFlipper.isSelecting s = false -> SquareFlipper.finishAndLog s = Some s) /\
  (SquareFlipper.isSelecting s = true ->
   exists sorted,
     SquareFlipper.finishAndLog s
     = Some (SquareFlipper.mkState false (SquareFlipper.selected s)
               (SquareFlipper.console s
                ++ [sorted; map (fun cell => (cell.1 + 1, cell.2 + 1)) sorted])) /\
     sorted ≡ₚ cells /\
     StronglySorted row_major_le sorted /\
     forall cells', cells' ≡ₚ cells ->
       SquareFlipper.Array_sort SquareFlipper.row_major cells' = sorted).
Proof.
  intros Hsel. unfold SquareFlipper.finishAndLog. split; intros Hsl; rewrite Hsl; simpl.
  - reflexivity.
  - rewrite Hsel, parse_all_keys_of.
    exists (SquareFlipper.Array_sort SquareFlipper.row_major cells).
    split; [reflexivity|]. split; [apply Array_sort_Permutation|].
    split; [apply Array_sort_sorted|].
    intros cells' Hp. apply row_major_sorted_unique; try apply Array_sort_sorted.
    rewrite !Array_sort_Permutation. exact Hp.
Qed.

Lemma finishAndLog_logs_row_major_witness :
  let s := SquareFlipper.mkState true (keys_of [(2, 2); (2, 3); (1, 3); (1, 2)]) [] in
  exists sorted,
    SquareFlipper.finishAndLog s
    = Some (SquareFlipper.mkState false (SquareFlipper.selected s)
              [sorted; map (fun cell => (cell.1 + 1, cell.2 + 1)) sorted]) /\
    sorted ≡ₚ [(2, 2); (2, 3); (1, 3); (1, 2)].
Proof.
  destruct (finishAndLog_logs_row_major
              (SquareFlipper.mkState true (keys_of [(2, 2); (2, 3); (1, 3); (1, 2)]) [])
              [(2, 2); (2, 3); (1, 3); (1, 2)] eq_refl) as [_ Hlog].
  destruct (Hlog eq_refl) as (sorted & Hrun & Hperm & _).
  exists sorted. split; [exact Hrun|exact Hperm].
Defined.

(** ** Drawing what the carver leaves *)



(** ** Loop erasure, in general *)

(** The loop erasure of [wilsonsAlgorithm] does what it should on a path
    without repetitions: the path it leaves ends at the chosen cell and has
    no repetition either; it is the path cut after the chosen cell when that
    cell is on it, and the path with the cell appended otherwise. *)
Theorem loop_erasure_on_simple_path (path : list Ref) (next : Ref) :
  NoDup path ->
  NoDup (Wilson.erase_loop path next) /\
  last (Wilson.erase_loop path next) = Some next /\
  (next ∈ path -> Wilson.erase_loop path next `prefix_of` path) /\
  (next ∉ path -> Wilson.erase_loop path next = path ++ [next]).
Proof.
  intros Hnd. split; [|split; [apply erase_loop_last|split]].
  - destruct (decide (next ∈ path)) as [Hin|Hout].
    + destruct (erase_loop_found path next Hin) as (i & _ & Hfresh & ->).
      apply NoDup_app. split; [exact (sublist_NoDup _ _ Hnd (sublist_take path i))|].
      split; [|apply NoDup_singleton].
      intros x Hx Hx'. apply list_elem_of_singleton in Hx'. congruence.
    + unfold Wilson.erase_loop. rewrite (indexOf_missing path next Hout). simpl.
      apply NoDup_app. split; [exact Hnd|]. split; [|apply NoDup_singleton].
      intros x Hx Hx'. apply list_elem_of_singleton in Hx'. congruence.
  - intros Hin. destruct (erase_loop_found path next Hin) as (i & Hi & _ & ->).
    rewrite <- (take_S_r _ _ _ Hi). apply prefix_take.
  - intros Hout. unfold Wilson.erase_loop. rewrite (indexOf_missing path next Hout). reflexivity.
Qed.

Lemma loop_erasure_on_simple_path_witness :
  NoDup [(0, 0); (1, 0); (2, 0); (3, 0)] /\
  Wilson.erase_loop [(0, 0); (1, 0); (2, 0); (3, 0)] (1, 0) `prefix_of`
    [(0, 0); (1, 0); (2, 0); (3, 0)].
Proof.
  assert (NoDup [(0, 0); (1, 0); (2, 0); (3, 0)]) as Hnd.
  { repeat (apply NoDup_cons; split;
              [rewrite !elem_of_cons, elem_of_nil, !pair_equal_spec; lia|]).
    apply NoDup_singleton. }
  split; [exact Hnd|].
  destruct (loop_erasure_on_simple_path [(0, 0); (1, 0); (2, 0); (3, 0)] (1, 0) Hnd)
    as (_ & _ & Hcut & _).
  apply Hcut. rewrite !elem_of_cons. auto.
Defined.

(** From its second step on, a walk step finds [path] ending at [current]
    and pushes [current] once more before the erasure.  When the chosen cell
    is new to the path, the path it hands on ends with [current] twice and
    the chosen cell; the carving loop on a path that begins with it,
    whatever follows, carves [current] to itself. *)
Theorem second_push_carves_self_loop
  (path after : list Ref) (current next : Ref) (s : Wilson.State) :
  last path = Some current -> (next ∉ path) ->
  is_Some (deref (Maze.cells (Wilson.maze s)) current) ->
  let path' := Wilson.erase_loop (path ++ [current]) next in
  (exists before, path' = before ++ [current; current; next]) /\
  ~ NoDup path' /\
  carved (Maze.cells (Wilson.maze (Wilson.carve_path (path' ++ after) s))) current current.
Proof.
  intros Hlast Hout Hcur path'.
  destruct (walk_step_doubles_current path current next Hlast Hout) as [before Hpath].
  fold path' in Hpath. split; [eauto|]. rewrite Hpath. split.
  - intros Hnd. apply NoDup_app in Hnd as (_ & _ & Hnd).
    apply NoDup_cons in Hnd as [Hin _]. apply Hin. apply elem_of_cons. auto.
  - replace ((before ++ [current; current; next]) ++ after)
      with (before ++ current :: current :: (next :: after))
      by (rewrite <- app_assoc; reflexivity).
    apply carve_path_self_loop. exact Hcur.
Qed.

Lemma second_push_carves_self_loop_witness :
  let s := Wilson.mkState (Maze.new 4 1) [] [(3, 0)] 1 0%nat [] (mkHost false [] [] [] []) in
  let path' := Wilson.erase_loop ([(0, 0); (1, 0)] ++ [(1, 0)]) (2, 0) in
  path' = [(0, 0); (1, 0); (1, 0); (2, 0)] /\
  carved (Maze.cells (Wilson.maze (Wilson.carve_path (path' ++ [(3, 0)]) s))) (1, 0) (1, 0).
Proof.
  split; [reflexivity|].
  apply (second_push_carves_self_loop [(0, 0); (1, 0)] [(3, 0)] (1, 0) (2, 0)
           (Wilson.mkState (Maze.new 4 1) [] [(3, 0)] 1 0%nat [] (mkHost false [] [] [] []))).
  - reflexivity.
  - rewrite !elem_of_cons, elem_of_nil, !pair_equal_spec. lia.
  - vm_compute. eauto.
Defined.

(** ** One abort for all delays *)

(** The first [abort()] on the signal rejects, with "aborted", every delay
    made with [timeoutWithCancel] on it that is still pending, and clears
    their timers; delays that have settled keep their outcome, and a second
    [abort()] does nothing. *)
Theorem abort_rejects_every_pending_delay (h : Host) :
  aborted h = false ->
  let h' := signal_abort h in
  aborted h' = true /\
  (forall p, p ∈ listeners h -> promises h !! p = Some Pending ->
     promises h' !! p = Some (Rejected "aborted") /\ p ∉ timers h') /\
  (forall p st, promises h !! p = Some st -> st <> Pending -> promises h' !! p = Some st) /\
  signal_abort h' = h'.
Proof.
  intros Hab h'.
  destruct (signal_abort_spec h) as (Ha & _ & _ & _ & _ & _ & Hfresh).
  destruct (Hfresh Hab) as [Ht Hp]. fold h' in Ha, Ht, Hp.
  split; [exact Ha|]. split; [|split].
  - intros p Hl Hpending. split.
    + rewrite Hp, Hpending. destruct (decide (p ∈ listeners h)); [reflexivity|done].
    + intros Hin. apply Ht in Hin as [_ Hout]. done.
  - intros p st Hst Hne. rewrite Hp, Hst. destruct st; [done|reflexivity|reflexivity].
  - destruct (signal_abort_spec h') as (_ & _ & _ & _ & _ & Hsame & _). apply Hsame. exact Ha.
Qed.

Lemma abort_rejects_every_pending_delay_witness :
  let h := (timeoutWithCancel 200 (timeoutWithCancel 100 (mkHost false [] [] [] [])).2).2 in
  aborted h = false /\
  promises (signal_abort h) !! 0%nat = Some (Rejected "aborted") /\
  promises (signal_abort h) !! 1%nat = Some (Rejected "aborted").
Proof.
  split; [reflexivity|].
  destruct (abort_rejects_every_pending_delay
              (timeoutWithCancel 200 (timeoutWithCancel 100 (mkHost false [] [] [] [])).2).2
              eq_refl) as (_ & Hall & _).
  split.
  - apply (Hall 0%nat); [|reflexivity]. simpl. rewrite !elem_of_cons. auto.
  - apply (Hall 1%nat); [|reflexivity]. simpl. rewrite !elem_of_cons. auto.
Defined.
